(** * libdnf goal and query core: a shallow embedding

    The development follows two source files of the repository:
    - [libdnf/goal/Goal.cpp] (selector lowering [sltrToJob], the [Goal]
      intents, [Goal::run], [Goal::Impl::solve], result listing and
      problem counting);
    - [libdnf/sack/query.cpp] ([NevraID::parse], [Filter], [Query::addFilter],
      [Query::Impl::apply], [filterLatest], [filterNevraStrict],
      [Query::installed] and [Query::available]).

    libsolv (pool, solver, transaction, bitmaps) is an external library: its
    data is modelled by records and its functions appear as fields of these
    records.  The definitions come first; the facts about them follow from
    [PsetFacts] on. *)

From stdpp Require Import gmap sets list sorting strings.
From Stdlib Require Import ZArith Lia Ascii.

Local Open Scope Z_scope.

(** ** C strings, exceptions *)

(** A NUL-terminated C string, without its terminator. *)
Abbreviation cstring := (list ascii).

Definition cstr (s : string) : cstring := String.list_ascii_of_string s.

(** The error codes of [DnfError] that the two files raise. *)
Inductive DnfError :=
| DNF_ERROR_INTERNAL_ERROR
| DNF_ERROR_FILE_INVALID
| DNF_ERROR_BAD_SELECTOR
| DNF_ERROR_BAD_QUERY
| DNF_ERROR_NO_SOLUTION
| DNF_ERROR_REMOVAL_OF_PROTECTED_PKG.

(** How a C++ call can end abnormally: the typed [Goal::Error], an untyped
    [std::runtime_error], a failed [assert], or the dereference of a null
    pointer (undefined behaviour, kept apart from the exceptions). *)
Inductive Exn :=
| GoalError (msg : string) (code : DnfError)
| RuntimeError (msg : string)
| AssertionFailure
| NullDereference.

Inductive outcome (A : Type) :=
| Returns (a : A)
| Throws (e : Exn).
Arguments Returns {A} a.
Arguments Throws {A} e.

#[global] Instance outcome_ret : MRet outcome := fun _ a => Returns a.

#[global] Instance outcome_bind : MBind outcome := fun _ _ k x =>
  match x with
  | Returns a => k a
  | Throws e => Throws e
  end.

(** Member functions mutate their object and may throw: a computation over
    the object state [St] answers an outcome together with the state it
    leaves behind (what was written before a [throw] stays written). *)
Definition SE (St A : Type) : Type := St -> outcome A * St.

#[global] Instance SE_ret {St} : MRet (SE St) := fun _ a st => (Returns a, st).

#[global] Instance SE_bind {St} : MBind (SE St) := fun _ _ k m st =>
  match m st with
  | (Returns a, st') => k a st'
  | (Throws e, st') => (Throws e, st')
  end.

Definition throw {St A} (e : Exn) : SE St A := fun st => (Throws e, st).
Definition get {St} : SE St St := fun st => (Returns st, st).
Definition modify {St} (f : St -> St) : SE St unit := fun st => (Returns tt, f st).
Definition lift {St A} (x : outcome A) : SE St A := fun st => (x, st).

(** ** libsolv vocabulary *)

Module Solv.

Abbreviation Id := Z.

(** [Queue]: a growable array of ids. *)
Abbreviation Queue := (list Z).

(** [queue_push2]. *)
Definition queue_push2 (q : Queue) (a b : Id) : Queue := q ++ [a; b].

(** Job selection modes, actions and modifiers of [solv/solver.h]. *)
Definition SOLVER_SOLVABLE : Z := 0x01.
Definition SOLVER_SOLVABLE_NAME : Z := 0x02.
Definition SOLVER_SOLVABLE_PROVIDES : Z := 0x03.
Definition SOLVER_SOLVABLE_ONE_OF : Z := 0x04.
Definition SOLVER_SOLVABLE_REPO : Z := 0x05.
Definition SOLVER_SOLVABLE_ALL : Z := 0x06.
Definition SOLVER_SELECTMASK : Z := 0xff.
Definition SOLVER_INSTALL : Z := 0x100.
Definition SOLVER_ERASE : Z := 0x200.
Definition SOLVER_UPDATE : Z := 0x300.
Definition SOLVER_MULTIVERSION : Z := 0x500.
Definition SOLVER_LOCK : Z := 0x600.
Definition SOLVER_DISTUPGRADE : Z := 0x700.
Definition SOLVER_VERIFY : Z := 0x800.
Definition SOLVER_USERINSTALLED : Z := 0xa00.
Definition SOLVER_ALLOWUNINSTALL : Z := 0xb00.
Definition SOLVER_FAVOR : Z := 0xc00.
Definition SOLVER_DISFAVOR : Z := 0xd00.
Definition SOLVER_EXCLUDEFROMWEAK : Z := 0x1000.
Definition SOLVER_WEAK : Z := 0x010000.
Definition SOLVER_CLEANDEPS : Z := 0x040000.
Definition SOLVER_FORCEBEST : Z := 0x100000.
Definition SOLVER_TARGETED : Z := 0x200000.
Definition SOLVER_SETEV : Z := 0x01000000.
Definition SOLVER_SETEVR : Z := 0x02000000.
Definition SOLVER_SETARCH : Z := 0x04000000.
Definition SOLVER_SETREPO : Z := 0x10000000.

(** Known ids of [solv/knownid.h] used as keys. *)
Definition SOLVABLE_NAME : Z := 2.
Definition SOLVABLE_PROVIDES : Z := 6.

(** Relation flags of [solv/pool.h]. *)
Definition REL_EQ : Z := 2.
Definition REL_ARCH : Z := 20.

(** Selection flags of [solv/selection.h]. *)
Definition SELECTION_FILELIST : Z := Z.shiftl 1 5.
Definition SELECTION_GLOB : Z := Z.shiftl 1 9.
Definition SELECTION_NOCASE : Z := Z.shiftl 1 11.

(** Transaction step types and modes of [solv/transaction.h]. *)
Definition SOLVER_TRANSACTION_ERASE : Z := 0x10.
Definition SOLVER_TRANSACTION_OBSOLETED : Z := 0x15.
Definition SOLVER_TRANSACTION_INSTALL : Z := 0x20.
Definition SOLVER_TRANSACTION_REINSTALL : Z := 0x21.
Definition SOLVER_TRANSACTION_DOWNGRADE : Z := 0x22.
Definition SOLVER_TRANSACTION_UPGRADE : Z := 0x24.
Definition SOLVER_TRANSACTION_OBSOLETES : Z := 0x25.
Definition SOLVER_TRANSACTION_SHOW_ACTIVE : Z := Z.shiftl 1 0.
Definition SOLVER_TRANSACTION_SHOW_ALL : Z := Z.shiftl 1 1.
Definition SOLVER_TRANSACTION_SHOW_OBSOLETES : Z := Z.shiftl 1 2.
Definition SOLVER_TRANSACTION_CHANGE_IS_REINSTALL : Z := Z.shiftl 1 4.

(** The solver flags that [Goal] sets. *)
Inductive SolverFlag :=
| SOLVER_FLAG_ALLOW_VENDORCHANGE
| SOLVER_FLAG_DUP_ALLOW_VENDORCHANGE
| SOLVER_FLAG_KEEP_ORPHANS
| SOLVER_FLAG_BEST_OBEY_POLICY
| SOLVER_FLAG_YUM_OBSOLETES
| SOLVER_FLAG_URPM_REORDER
| SOLVER_FLAG_IGNORE_RECOMMENDED
| SOLVER_FLAG_ALLOW_DOWNGRADE.

(** A [Transaction]: its steps and [transaction_type(trans, p, mode)]. *)
Record Transaction := {
  steps : Queue;
  transaction_type : Id -> Z -> Id
}.

(** A [Solver] after [solver_solve]: the number of problems (which is what
    [solver_solve] returns), the decision levels and the transaction that
    [solver_create_transaction] builds. *)
Record Solver := {
  solver_problem_count : Z;
  solver_get_decisionlevel : Id -> Z;
  solver_create_transaction : Transaction
}.

(** A [Solvable]: interned name, arch and evr, and the id of its repo
    (the C field is a pointer; repos are compared by identity). *)
Record Solvable := {
  s_name : Id;
  s_arch : Id;
  s_evr : Id;
  s_repo : Id
}.

Record Repo := {
  repoid : Id;
  repo_name : cstring;
  priority : Z;
  repo_start : Id;
  repo_end : Id
}.

(** The pool.  [solvables] is indexed by solvable id ([nsolvables] is its
    length), [installed] and [considered] may be NULL.  The remaining
    fields are the libsolv operations on this pool that the sources call. *)
Record Pool := {
  solvables : list Solvable;
  repos : list Repo;
  installed : option Id;
  considered : option (gset Z);
  pool_str2id : cstring -> Id;
  pool_id2str : Id -> cstring;
  pool_evrcmp : Id -> Id -> Z;
  pool_evrcmp_str : cstring -> cstring -> Z;
  pool_rel2id : Id -> Id -> Z -> Id;
  pool_queuetowhatprovides : Queue -> Id;
  whatprovides : Id -> list Id;
  solvable_requires : Id -> list Id;
  is_package : Id -> bool;
  str2archid : cstring -> Id;
  (* [selection_make(pool, selection, name, flags)]: return value and the
     new content of [selection] *)
  selection_make : Queue -> cstring -> Z -> Z * Queue;
  (* [selection_filter(pool, sel1, sel2)]: the new content of [sel1] *)
  selection_filter : Queue -> Queue -> Queue;
  (* the steps of a [Dataiterator] over one key with [SEARCH_GLOB]: the
     solvable id and what [di.idp] points to (NULL when it points nowhere) *)
  dataiterator_glob : Z -> cstring -> list (Id * option Id);
  (* [solv_sort(base, n, sizeof(Id), cmp, pool)] on an array of ids *)
  solv_sort : (Id -> Id -> Z) -> list Id -> list Id;
  (* a solver created on this pool, given its flags, after
     [solver_solve(solv, job)] *)
  solver_solve : list (SolverFlag * Z) -> Queue -> Solver
}.

Definition nsolvables (pool : Pool) : Z := Z.of_nat (length (solvables pool)).

Definition null_solvable : Solvable :=
  {| s_name := 0; s_arch := 0; s_evr := 0; s_repo := 0 |}.

(** [pool_id2solvable] / [pool->solvables + id]. *)
Definition pool_id2solvable (pool : Pool) (id : Id) : Solvable :=
  default null_solvable (solvables pool !! Z.to_nat id).

Definition null_repo : Repo :=
  {| repoid := 0; repo_name := []; priority := 0; repo_start := 0; repo_end := 0 |}.

Definition repo_of (pool : Pool) (rid : Id) : Repo :=
  default null_repo (List.find (fun r => repoid r =? rid) (repos pool)).

(** [s->repo->priority]. *)
Definition solvable_priority (pool : Pool) (s : Solvable) : Z :=
  priority (repo_of pool (s_repo s)).

(** [pool->installed == s->repo]. *)
Definition in_installed (pool : Pool) (s : Solvable) : bool :=
  match installed pool with
  | Some r => r =? s_repo s
  | None => false
  end.

End Solv.
Export Solv.

(** ** PackageSet *)

(** Modelled from the spec: [PackageSet] (libdnf/sack/packageset.cpp is not
    under src/) is a bitmap keyed by solvable id with [set], [has],
    [remove], [size], [clear], union, difference and intersection, and
    [next(id)], which walks the members in strictly increasing order and
    answers [-1] at the end.  libsolv's [Map] with [MAPSET], [MAPTST],
    [map_and], [map_or] and [map_subtract] is the same bitmap. *)
Abbreviation PackageSet := (gset Z) (only parsing).

(** The members in increasing order: what the idiom
    [id = -1; while ((id = pset->next(id)) != -1) ...] visits. *)
Definition pset_ids (s : gset Z) : list Id := merge_sort Z.le (elements s).

Definition pset_next (s : gset Z) (id : Id) : Id :=
  default (-1) (head (List.filter (fun x => id <? x) (pset_ids s))).

Definition pset_has (s : gset Z) (id : Id) : bool := bool_decide (id ∈ s).

Definition pset_size (s : gset Z) : Z := Z.of_nat (size s).

(** ** hawkey types: keynames, comparison flags, filters *)

Module Hy.

(** The filter keynames ([HY_PKG_...] of hy-types.h). *)
Inductive Keyname :=
| HY_PKG | HY_PKG_ALL | HY_PKG_ARCH | HY_PKG_CONFLICTS | HY_PKG_DESCRIPTION
| HY_PKG_EPOCH | HY_PKG_EVR | HY_PKG_FILE | HY_PKG_NAME | HY_PKG_NEVRA
| HY_PKG_OBSOLETES | HY_PKG_PROVIDES | HY_PKG_RELEASE | HY_PKG_REPONAME
| HY_PKG_REQUIRES | HY_PKG_SOURCERPM | HY_PKG_SUMMARY | HY_PKG_URL
| HY_PKG_VERSION | HY_PKG_LOCATION | HY_PKG_ENHANCES | HY_PKG_RECOMMENDS
| HY_PKG_SUGGESTS | HY_PKG_SUPPLEMENTS | HY_PKG_ADVISORY | HY_PKG_ADVISORY_BUG
| HY_PKG_ADVISORY_CVE | HY_PKG_ADVISORY_SEVERITY | HY_PKG_ADVISORY_TYPE
| HY_PKG_DOWNGRADABLE | HY_PKG_DOWNGRADES | HY_PKG_EMPTY
| HY_PKG_LATEST_PER_ARCH | HY_PKG_LATEST | HY_PKG_UPGRADABLE | HY_PKG_UPGRADES
| HY_PKG_NEVRA_STRICT | HY_PKG_UPGRADES_BY_PRIORITY
| HY_PKG_OBSOLETES_BY_PRIORITY | HY_PKG_LATEST_PER_ARCH_BY_PRIORITY.

#[global] Instance Keyname_eq_dec : EqDecision Keyname.
Proof. solve_decision. Defined.

(** Modelled from the spec: the comparison flags are a bitset over
    [{EQ, LT, GT, NEQ, GLOB, ICASE, SUBSTR, NOT}] with [NEQ = EQ|NOT]; the
    header that declares them (hy-types.h) is not under src/, the bit
    positions are the header's. *)
Definition HY_ICASE : Z := Z.shiftl 1 0.
Definition HY_NOT : Z := Z.shiftl 1 1.
Definition HY_COMPARISON_FLAG_MASK : Z := Z.lor HY_ICASE HY_NOT.
Definition HY_EQ : Z := Z.shiftl 1 8.
Definition HY_LT : Z := Z.shiftl 1 9.
Definition HY_GT : Z := Z.shiftl 1 10.
Definition HY_SUBSTR : Z := Z.shiftl 1 11.
Definition HY_GLOB : Z := Z.shiftl 1 12.
Definition HY_NEQ : Z := Z.lor HY_EQ HY_NOT.

(** [flags & BIT] used as a C condition. *)
Definition has_bit (flags bit : Z) : bool := negb (Z.land flags bit =? 0).

(** The tag of the [_Match] union. *)
Inductive MatchType := _HY_VOID | _HY_NUM | _HY_PKG | _HY_RELDEP | _HY_STR.

#[global] Instance MatchType_eq_dec : EqDecision MatchType.
Proof. solve_decision. Defined.

(** One [_Match]: the union with the member that was written. *)
Inductive Match :=
| MatchNum (num : Z)
| MatchPset (pset : gset Z)
| MatchReldep (reldep : Id)
| MatchStr (str : cstring).

Definition match_num (m : Match) : Z :=
  match m with MatchNum n => n | _ => 0 end.
Definition match_str (m : Match) : cstring :=
  match m with MatchStr s => s | _ => [] end.
Definition match_reldep (m : Match) : Id :=
  match m with MatchReldep r => r | _ => 0 end.
Definition match_pset (m : Match) : gset Z :=
  match m with MatchPset s => s | _ => ∅ end.

(** [Filter::Impl]. *)
Record Filter := {
  cmpType : Z;
  keyname : Keyname;
  matchType : MatchType;
  matches : list Match
}.

End Hy.
Export Hy.

(** ** The sack *)

Module Sack.

(** [Query::ExcludeFlags]. *)
Inductive ExcludeFlags :=
| APPLY_EXCLUDES
| IGNORE_MODULAR_EXCLUDES
| IGNORE_REGULAR_EXCLUDES
| IGNORE_EXCLUDES.

#[global] Instance ExcludeFlags_eq_dec : EqDecision ExcludeFlags.
Proof. solve_decision. Defined.

(** Modelled from the spec: the sack (dnf-sack.cpp is not under src/)
    provides the pool, the install-only reldep list and limit, the running
    kernel id, the vendor-change switch, the [pkg_solvables] bitmap cache
    (with the pool size it was taken at) and the hooks
    [recompute_considered] and [recompute_considered_map].  The pool is
    kept in the state that [dnf_sack_recompute_considered] and
    [dnf_sack_make_provides_ready] leave it in, so that both calls are the
    identity; [recompute_considered_map] is the considered bitmap that
    [dnf_sack_recompute_considered_map] stores for an exclude mode, given
    the bitmap cached so far. *)
Record DnfSack := {
  pool : Pool;
  pkg_solvables : gset Z;
  pool_nsolvables : Z;
  recompute_considered_map : option (gset Z) -> ExcludeFlags -> option (gset Z);
  installonly : Queue;
  installonly_limit : Z;
  running_kernel : Id;
  allow_vendor_change : bool
}.

(** [dnf_sack_set_pkg_solvables]. *)
Definition dnf_sack_set_pkg_solvables (sk : DnfSack) (m : gset Z) (n : Z) : DnfSack :=
  {| pool := pool sk; pkg_solvables := m; pool_nsolvables := n;
     recompute_considered_map := recompute_considered_map sk;
     installonly := installonly sk; installonly_limit := installonly_limit sk;
     running_kernel := running_kernel sk;
     allow_vendor_change := allow_vendor_change sk |}.

(** Modelled from the spec: [FOR_PKG_SOLVABLES] (hy-iutil-private.hpp is not
    under src/) walks "all real package solvables": the ids from 1 below
    [nsolvables] that [is_package] accepts. *)
Definition for_pkg_solvables (p : Pool) : list Id :=
  List.filter (is_package p) (Z.of_nat <$> seq 1 (length (solvables p) - 1)).

End Sack.
Export Sack.

(** ** NevraID *)

Module Nevra.

(** [struct NevraID]. *)
Record NevraID := {
  name : Id;
  arch : Id;
  evr : Id;
  evr_str : cstring
}.

(** [p[i]] on a C string: the terminator (and, in the model, anything
    behind it) reads as NUL. *)
Definition char_at (s : cstring) (i : Z) : ascii :=
  if i <? 0 then "000"%char else nth (Z.to_nat i) s "000"%char.

Definition is_char (c d : ascii) : bool := bool_decide (c = d).

(** The first loop of [NevraID::parse]: [end] runs over the pattern and
    records the last two ['-'] and the last ['.'].  Pointers into the
    pattern are offsets, [None] is [nullptr]. *)
Fixpoint scan_delims (s : cstring) (pos : Z)
    (evrDelim releaseDelim archDelim : option Z)
  : option Z * option Z * option Z * Z :=
  match s with
  | [] => (evrDelim, releaseDelim, archDelim, pos)
  | c :: rest =>
      if is_char c "-" then
        scan_delims rest (pos + 1) releaseDelim (Some pos) archDelim
      else if is_char c "." then
        scan_delims rest (pos + 1) evrDelim releaseDelim (Some pos)
      else
        scan_delims rest (pos + 1) evrDelim releaseDelim archDelim
  end.

(** The epoch-stripping loop
    [while (evrDelim[index] == '0') if (evrDelim[++index] == ':') evrDelim += index;]
    Every round reads one position further, so [length s] rounds are
    enough fuel. *)
Fixpoint strip_epoch (fuel : nat) (s : cstring) (evrDelim index : Z) : Z :=
  match fuel with
  | O => evrDelim
  | S fuel' =>
      if is_char (char_at s (evrDelim + index)) "0" then
        let index' := index + 1 in
        if is_char (char_at s (evrDelim + index')) ":" then
          strip_epoch fuel' s (evrDelim + index') index'
        else
          strip_epoch fuel' s evrDelim index'
      else evrDelim
  end.

(** [s[from .. to)]. *)
Definition substr (s : cstring) (from to : Z) : cstring :=
  take (Z.to_nat (to - from)) (drop (Z.to_nat from) s).

(** [pool_strn2id(pool, p, len, 0)]: the id of an interned string, 0 when
    the pool does not know it. *)
Definition pool_strn2id (pool : Pool) (s : cstring) (from len : Z) : Id :=
  pool_str2id pool (substr s from (from + len)).

(** [NevraID::parse]; [None] is the [false] answer. *)
Definition parse (pool : Pool) (nevraPattern : cstring) (createEVRId : bool)
  : option NevraID :=
  let '(evrDelim, releaseDelim, archDelim, end_) :=
    scan_delims nevraPattern 0 None None None in
  match evrDelim, releaseDelim with
  | Some evrDelim0, Some releaseDelim =>
      if evrDelim0 =? 0 then None else
      let nameLen := evrDelim0 in
      let evrDelim := strip_epoch (length nevraPattern) nevraPattern evrDelim0 1 in
      match archDelim with
      | None => None
      | Some archDelim =>
          if (releaseDelim - evrDelim <=? 1) || (archDelim <=? releaseDelim + 1)
             || (archDelim =? end_ - 1)
          then None else
          let name := pool_strn2id pool nevraPattern 0 nameLen in
          if name =? 0 then None else
          let evrDelim := evrDelim + 1 in
          let evr := if createEVRId
                     then pool_strn2id pool nevraPattern evrDelim (archDelim - evrDelim)
                     else 0 in
          if createEVRId && (evr =? 0) then None else
          let evr_str := if createEVRId then []
                         else substr nevraPattern evrDelim archDelim in
          let archDelim := archDelim + 1 in
          let arch := pool_strn2id pool nevraPattern archDelim (end_ - archDelim) in
          if arch =? 0 then None else
          Some {| name := name; arch := arch; evr := evr; evr_str := evr_str |}
      end
  | _, _ => None
  end.

(** [nevraIDSorter]. *)
Definition nevraIDSorter (first second : NevraID) : bool :=
  if negb (name first =? name second) then name first <? name second
  else if negb (arch first =? arch second) then arch first <? arch second
  else evr first <? evr second.

(** [nevraCompareLowerSolvable]. *)
Definition nevraCompareLowerSolvable (first : NevraID) (s : Solvable) : bool :=
  if negb (name first =? s_name s) then name first <? s_name s
  else if negb (arch first =? s_arch s) then arch first <? s_arch s
  else evr first <? s_evr s.

(** [nevraNameArchKey]. *)
Definition nevraNameArchKey (first second : NevraID) : bool :=
  if negb (name first =? name second) then name first <? name second
  else arch first <? arch second.

(** [nameArchCompareLowerSolvable]. *)
Definition nameArchCompareLowerSolvable (first : NevraID) (s : Solvable) : bool :=
  if negb (name first =? s_name s) then name first <? s_name s
  else arch first <? s_arch s.

(** [std::sort(first, last, comp)]: the order among elements that [comp]
    does not separate is unspecified; the model sorts stably. *)
Definition std_sort {A} (comp : A -> A -> bool) (l : list A) : list A :=
  merge_sort (fun a b => Is_true (negb (comp b a))) l.

(** [std::lower_bound(first, last, value, comp)] on a range partitioned by
    [comp]: the range from the first element that is not below [value]. *)
Fixpoint lower_bound {A B} (comp : A -> B -> bool) (l : list A) (value : B) : list A :=
  match l with
  | [] => []
  | e :: rest => if comp e value then lower_bound comp rest value else l
  end.

End Nevra.

(** ** Query *)

Module Query.

(** [Query::Impl]; the sack it points to is the other half of the state. *)
Record Impl := {
  applied : bool;
  flags : ExcludeFlags;
  result : option (gset Z);
  filters : list Filter;
  considered_cached : option (gset Z)
}.

Record State := {
  sack : DnfSack;
  impl : Impl
}.

Abbreviation QM := (SE State).

Definition set_impl (f : Impl -> Impl) : QM unit :=
  modify (fun st => {| sack := sack st; impl := f (impl st) |}).

Definition set_applied (b : bool) (q : Impl) : Impl :=
  {| applied := b; flags := flags q; result := result q; filters := filters q;
     considered_cached := considered_cached q |}.

Definition set_result (r : option (gset Z)) (q : Impl) : Impl :=
  {| applied := applied q; flags := flags q; result := r; filters := filters q;
     considered_cached := considered_cached q |}.

Definition set_filters (fs : list Filter) (q : Impl) : Impl :=
  {| applied := applied q; flags := flags q; result := result q; filters := fs;
     considered_cached := considered_cached q |}.

Definition set_considered_cached (c : option (gset Z)) (q : Impl) : Impl :=
  {| applied := applied q; flags := flags q; result := result q;
     filters := filters q; considered_cached := c |}.

(** [result->...]: the result set, or a null dereference. *)
Definition get_result : QM (gset Z) := fun st =>
  match result (impl st) with
  | Some r => (Returns r, st)
  | None => (Throws NullDereference, st)
  end.

(** [Query::Query(DnfSack *, ExcludeFlags)]. *)
Definition new (fl : ExcludeFlags) : Impl :=
  {| applied := false; flags := fl; result := None; filters := [];
     considered_cached := None |}.

(** [Query::clear]. *)
Definition clear : QM unit :=
  set_impl (fun q => set_filters [] (set_result None (set_applied false q))).

(** *** Validation of keyname against match type and comparison *)

Definition match_type_num (keyname : Keyname) : bool :=
  match keyname with
  | HY_PKG_EMPTY | HY_PKG_EPOCH | HY_PKG_LATEST | HY_PKG_LATEST_PER_ARCH
  | HY_PKG_LATEST_PER_ARCH_BY_PRIORITY | HY_PKG_UPGRADABLE | HY_PKG_UPGRADES
  | HY_PKG_UPGRADES_BY_PRIORITY | HY_PKG_DOWNGRADABLE | HY_PKG_DOWNGRADES => true
  | _ => false
  end.

Definition match_type_pkg (keyname : Keyname) : bool :=
  match keyname with
  | HY_PKG | HY_PKG_OBSOLETES | HY_PKG_OBSOLETES_BY_PRIORITY => true
  | _ => false
  end.

Definition match_type_reldep (keyname : Keyname) : bool :=
  match keyname with
  | HY_PKG_CONFLICTS | HY_PKG_ENHANCES | HY_PKG_OBSOLETES | HY_PKG_PROVIDES
  | HY_PKG_RECOMMENDS | HY_PKG_REQUIRES | HY_PKG_SUGGESTS | HY_PKG_SUPPLEMENTS => true
  | _ => false
  end.

Definition match_type_str (keyname : Keyname) : bool :=
  match keyname with
  | HY_PKG_ADVISORY | HY_PKG_ADVISORY_BUG | HY_PKG_ADVISORY_CVE
  | HY_PKG_ADVISORY_SEVERITY | HY_PKG_ADVISORY_TYPE | HY_PKG_ARCH
  | HY_PKG_DESCRIPTION | HY_PKG_ENHANCES | HY_PKG_EVR | HY_PKG_FILE
  | HY_PKG_LOCATION | HY_PKG_NAME | HY_PKG_NEVRA | HY_PKG_NEVRA_STRICT
  | HY_PKG_PROVIDES | HY_PKG_RECOMMENDS | HY_PKG_RELEASE | HY_PKG_REPONAME
  | HY_PKG_REQUIRES | HY_PKG_SOURCERPM | HY_PKG_SUGGESTS | HY_PKG_SUMMARY
  | HY_PKG_SUPPLEMENTS | HY_PKG_OBSOLETES | HY_PKG_CONFLICTS | HY_PKG_URL
  | HY_PKG_VERSION => true
  | _ => false
  end.

Definition valid_filter_str (keyname : Keyname) (cmp_type : Z) : bool :=
  if negb (match_type_str keyname) then false else
  let cmp_type := Z.land cmp_type (Z.lnot HY_NOT) in
  match keyname with
  | HY_PKG_LOCATION | HY_PKG_SOURCERPM | HY_PKG_NEVRA_STRICT => cmp_type =? HY_EQ
  | HY_PKG_ARCH => has_bit cmp_type HY_EQ || has_bit cmp_type HY_GLOB
  | HY_PKG_NAME =>
      has_bit cmp_type HY_EQ || has_bit cmp_type HY_GLOB || has_bit cmp_type HY_SUBSTR
  | _ => true
  end.

Definition valid_filter_num (keyname : Keyname) (cmp_type : Z) : bool :=
  if negb (match_type_num keyname) then false else
  let cmp_type := Z.land cmp_type (Z.lnot HY_NOT) in
  if has_bit cmp_type (Z.lor (Z.lor HY_ICASE HY_SUBSTR) HY_GLOB) then false else
  match keyname with
  | HY_PKG => cmp_type =? HY_EQ
  | _ => true
  end.

Definition valid_filter_pkg (keyname : Keyname) (cmp_type : Z) : bool :=
  if negb (match_type_pkg keyname) && negb (match_type_reldep keyname) then false
  else (cmp_type =? HY_EQ) || (cmp_type =? HY_NEQ).

Definition valid_filter_reldep (keyname : Keyname) : bool :=
  match_type_reldep keyname.

(** The [int] that [addFilter] returns: 0 or a [DnfError] code. *)
Definition retcode := option DnfError.

(** *** Filter construction *)

Definition null_match_message : string :=
  "Query can not accept NULL for STR match".

(** [copyFilterChar]; [None] is the null pointer. *)
Definition copyFilterChar (match_ : option cstring) (keyname : Keyname)
  : outcome cstring :=
  match match_ with
  | None => Throws (RuntimeError null_match_message)
  | Some m =>
      let len := Z.of_nat (length m) in
      if bool_decide (keyname = HY_PKG_FILE) && (1 <? len)
         && Nevra.is_char (Nevra.char_at m (len - 1)) "/"
      then Returns (take (Z.to_nat (len - 1)) m)
      else Returns m
  end.

(** [g_strv_length] and the strings it counts: a [const char **] is read up
    to its first null cell. *)
Fixpoint strv (matches : list (option cstring)) : list cstring :=
  match matches with
  | Some m :: rest => m :: strv rest
  | _ => []
  end.

Definition g_strv_length (matches : list (option cstring)) : nat :=
  length (strv matches).

Definition Filter_num (keyname : Keyname) (cmp_type : Z) (match_ : Z) : Filter :=
  {| cmpType := cmp_type; keyname := keyname; matchType := _HY_NUM;
     matches := [MatchNum match_] |}.

Definition Filter_nums (keyname : Keyname) (cmp_type : Z) (ms : list Z) : Filter :=
  {| cmpType := cmp_type; keyname := keyname; matchType := _HY_NUM;
     matches := MatchNum <$> ms |}.

Definition Filter_pset (keyname : Keyname) (cmp_type : Z) (pset : gset Z) : Filter :=
  {| cmpType := cmp_type; keyname := keyname; matchType := _HY_PKG;
     matches := [MatchPset pset] |}.

Definition Filter_reldep (keyname : Keyname) (cmp_type : Z) (reldep : Id) : Filter :=
  {| cmpType := cmp_type; keyname := keyname; matchType := _HY_RELDEP;
     matches := [MatchReldep reldep] |}.

Definition Filter_reldeplist (keyname : Keyname) (cmp_type : Z) (l : list Id) : Filter :=
  {| cmpType := cmp_type; keyname := keyname; matchType := _HY_RELDEP;
     matches := MatchReldep <$> l |}.

Definition Filter_str (keyname : Keyname) (cmp_type : Z) (match_ : option cstring)
  : outcome Filter :=
  m ← copyFilterChar match_ keyname;
  mret {| cmpType := cmp_type; keyname := keyname; matchType := _HY_STR;
          matches := [MatchStr m] |}.

(** The constructor from [const char **]: cells [0 .. nmatches) are copied. *)
Fixpoint copy_matches (cells : list (option cstring)) (keyname : Keyname)
  : outcome (list Match) :=
  match cells with
  | [] => mret []
  | c :: rest =>
      m ← copyFilterChar c keyname;
      ms ← copy_matches rest keyname;
      mret (MatchStr m :: ms)
  end.

Definition Filter_strs (keyname : Keyname) (cmp_type : Z)
    (matches_ : list (option cstring)) : outcome Filter :=
  ms ← copy_matches (take (g_strv_length matches_) matches_) keyname;
  mret {| cmpType := cmp_type; keyname := keyname; matchType := _HY_STR;
          matches := ms |}.

(** *** Evaluators *)

(** The evaluators that read the pool through libsolv's data iterators,
    string matching, provider walks and advisory metadata are kept
    abstract: each one is a function of the sack, the current result and
    the filter to the bitmap [m] it fills (their internal assertions are
    not modelled).  [filterPkg] and [filterLatest] are modelled below. *)
Record Evaluators := {
  filterDepSolvable : DnfSack -> gset Z -> Filter -> gset Z;
  filterRcoReldep : DnfSack -> gset Z -> Filter -> gset Z;
  filterName : DnfSack -> gset Z -> Filter -> gset Z;
  filterEpoch : DnfSack -> gset Z -> Filter -> gset Z;
  filterEvr : DnfSack -> gset Z -> Filter -> gset Z;
  filterNevra : DnfSack -> gset Z -> Filter -> gset Z;
  filterVersion : DnfSack -> gset Z -> Filter -> gset Z;
  filterRelease : DnfSack -> gset Z -> Filter -> gset Z;
  filterArch : DnfSack -> gset Z -> Filter -> gset Z;
  filterSourcerpm : DnfSack -> gset Z -> Filter -> gset Z;
  filterObsoletes : DnfSack -> gset Z -> Filter -> gset Z;
  filterObsoletesByPriority : DnfSack -> gset Z -> Filter -> gset Z;
  filterProvidesReldep : DnfSack -> gset Z -> Filter -> gset Z;
  filterReponame : DnfSack -> gset Z -> Filter -> gset Z;
  filterLocation : DnfSack -> gset Z -> Filter -> gset Z;
  filterAdvisory : DnfSack -> gset Z -> Filter -> gset Z;
  filterUpdown : DnfSack -> gset Z -> Filter -> gset Z;
  filterUpdownByPriority : DnfSack -> gset Z -> Filter -> gset Z;
  filterUpdownAble : DnfSack -> gset Z -> Filter -> gset Z;
  filterDataiterator : DnfSack -> gset Z -> Filter -> gset Z
}.

(** [Query::Impl::filterPkg]: [m] becomes a clone of the filter's set. *)
Definition filterPkg (f : Filter) : outcome (gset Z) :=
  if negb (length (matches f) =? 1)%nat then Throws AssertionFailure
  else if negb (bool_decide (matchType f = _HY_PKG)) then Throws AssertionFailure
  else Returns (match_pset (default (MatchNum 0) (head (matches f)))).

(** [samename->elements[i]]. *)
Definition elem (q : Queue) (i : Z) : Id := default 0 (q !! Z.to_nat i).

Definition filter_latest_sortcmp (pool : Pool) (a b : Id) : Z :=
  let sa := pool_id2solvable pool a in
  let sb := pool_id2solvable pool b in
  let r := s_name sa - s_name sb in
  if negb (r =? 0) then r else
  let r := pool_evrcmp pool (s_evr sb) (s_evr sa) in
  if negb (r =? 0) then r else
  a - b.

Definition filter_latest_sortcmp_byarch (pool : Pool) (a b : Id) : Z :=
  let sa := pool_id2solvable pool a in
  let sb := pool_id2solvable pool b in
  let r := s_name sa - s_name sb in
  if negb (r =? 0) then r else
  let r := s_arch sa - s_arch sb in
  if negb (r =? 0) then r else
  let r := pool_evrcmp pool (s_evr sb) (s_evr sa) in
  if negb (r =? 0) then r else
  a - b.

Definition filter_latest_sortcmp_byarch_bypriority (pool : Pool) (a b : Id) : Z :=
  let sa := pool_id2solvable pool a in
  let sb := pool_id2solvable pool b in
  let r := s_name sa - s_name sb in
  if negb (r =? 0) then r else
  let r := s_arch sa - s_arch sb in
  if negb (r =? 0) then r else
  let r := solvable_priority pool sb - solvable_priority pool sa in
  if negb (r =? 0) then r else
  let r := pool_evrcmp pool (s_evr sb) (s_evr sa) in
  if negb (r =? 0) then r else
  a - b.

(** The loop of [add_latest_to_map] from position [pos], [n] positions
    before [stop_block]. *)
Fixpoint add_latest_loop (pool : Pool) (samename : Queue) (latest : Z)
    (n : nat) (pos : Z) (version_counter : Z) (id_previous_evr : Id)
    (m : gset Z) : gset Z :=
  match n with
  | O => m
  | S n' =>
      let id_element := elem samename pos in
      let id_current_evr := s_evr (pool_id2solvable pool id_element) in
      let changed := negb (id_previous_evr =? id_current_evr) in
      let version_counter := if changed then version_counter + 1 else version_counter in
      let id_previous_evr := if changed then id_current_evr else id_previous_evr in
      if 0 <? latest then
        if negb (version_counter <? latest) then m
        else add_latest_loop pool samename latest n' (pos + 1) version_counter
               id_previous_evr ({[id_element]} ∪ m)
      else
        if version_counter <? - latest then
          add_latest_loop pool samename latest n' (pos + 1) version_counter
            id_previous_evr m
        else add_latest_loop pool samename latest n' (pos + 1) version_counter
               id_previous_evr ({[id_element]} ∪ m)
  end.

Definition add_latest_to_map (pool : Pool) (m : gset Z) (samename : Queue)
    (start_block stop_block : Z) (latest : Z) : gset Z :=
  let id_previous_evr := s_evr (pool_id2solvable pool (elem samename start_block)) in
  add_latest_loop pool samename latest (Z.to_nat (stop_block - start_block))
    start_block 0 id_previous_evr m.

Definition per_arch (keyname : Keyname) : bool :=
  bool_decide (keyname = HY_PKG_LATEST_PER_ARCH)
  || bool_decide (keyname = HY_PKG_LATEST_PER_ARCH_BY_PRIORITY).

(** The state of the block loop of [filterLatest]: [highest] (a pointer to
    the first solvable of the block, kept as its id), [make_block],
    [start_block] and the bitmap. *)
Record BlockState := {
  highest : option Id;
  make_block : bool;
  start_block : Z;
  bmap : gset Z
}.

(** One round of [for (i = 0; i < samename.count; ++i)]. *)
Definition block_step (keyname : Keyname) (pool : Pool) (samename : Queue)
    (latest : Z) (i : Z) (st : BlockState) : BlockState :=
  let p := elem samename i in
  let considered := pool_id2solvable pool p in
  let new_block :=
    match highest st with
    | None => true
    | Some h =>
        let hs := pool_id2solvable pool h in
        negb (s_name hs =? s_name considered)
        || (per_arch keyname && negb (s_arch hs =? s_arch considered))
    end in
  if new_block then
    if start_block st =? -1 then
      {| highest := Some p; make_block := make_block st; start_block := i;
         bmap := bmap st |}
    else if make_block st then
      {| highest := Some p; make_block := true; start_block := i;
         bmap := add_latest_to_map pool (bmap st) samename (start_block st) i latest |}
    else
      {| highest := Some p; make_block := true; start_block := i; bmap := bmap st |}
  else if bool_decide (keyname = HY_PKG_LATEST_PER_ARCH_BY_PRIORITY)
          && negb (solvable_priority pool
                     (pool_id2solvable pool (default 0 (highest st)))
                   =? solvable_priority pool considered)
          && make_block st then
    {| highest := highest st; make_block := false; start_block := start_block st;
       bmap := add_latest_to_map pool (bmap st) samename (start_block st) i latest |}
  else st.

Fixpoint block_loop (keyname : Keyname) (pool : Pool) (samename : Queue)
    (latest : Z) (n : nat) (i : Z) (st : BlockState) : BlockState :=
  match n with
  | O => st
  | S n' =>
      block_loop keyname pool samename latest n' (i + 1)
        (block_step keyname pool samename latest i st)
  end.

(** The body of [filterLatest] for one match. *)
Definition filterLatest_one (keyname : Keyname) (pool : Pool) (res : gset Z)
    (latest : Z) (m : gset Z) : gset Z :=
  if latest =? 0 then m else
  let samename := pset_ids res in
  let samename :=
    if bool_decide (keyname = HY_PKG_LATEST_PER_ARCH) then
      solv_sort pool (filter_latest_sortcmp_byarch pool) samename
    else if bool_decide (keyname = HY_PKG_LATEST_PER_ARCH_BY_PRIORITY) then
      solv_sort pool (filter_latest_sortcmp_byarch_bypriority pool) samename
    else
      solv_sort pool (filter_latest_sortcmp pool) samename in
  let count := Z.of_nat (length samename) in
  let st := block_loop keyname pool samename latest (length samename) 0
              {| highest := None; make_block := true; start_block := -1; bmap := m |} in
  if negb (start_block st =? -1) && make_block st then
    add_latest_to_map pool (bmap st) samename (start_block st) count latest
  else bmap st.

(** [Query::Impl::filterLatest]. *)
Definition filterLatest (pool : Pool) (res : gset Z) (f : Filter) : gset Z :=
  foldl (fun m match_in => filterLatest_one (keyname f) pool res (match_num match_in) m)
    ∅ (matches f).

(** *** apply *)

(** [Query::Impl::initResult]. *)
Definition initResult : QM unit := fun st =>
  let sk := sack st in
  let q := impl st in
  let p := pool sk in
  let sack_pool_nsolvables := pool_nsolvables sk in
  let '(res, sk) :=
    if negb (sack_pool_nsolvables =? 0) && (sack_pool_nsolvables =? nsolvables p)
    then (pkg_solvables sk, sk)
    else
      let res := list_to_set (for_pkg_solvables p) in
      (res, dnf_sack_set_pkg_solvables sk res (nsolvables p)) in
  if bool_decide (flags q = APPLY_EXCLUDES) then
    let res := match considered p with
               | Some c => res ∩ c
               | None => res
               end in
    (Returns tt, {| sack := sk; impl := set_result (Some res) q |})
  else
    let cc := recompute_considered_map sk (considered_cached q) (flags q) in
    let res := match cc with
               | Some c => res ∩ c
               | None => res
               end in
    (Returns tt,
     {| sack := sk; impl := set_considered_cached cc (set_result (Some res) q) |}).

(** The [switch] of [Query::Impl::apply]: the bitmap [m] of one filter. *)
Definition eval_filter (ev : Evaluators) (sk : DnfSack) (res : gset Z) (f : Filter)
  : outcome (gset Z) :=
  match keyname f with
  | HY_PKG => filterPkg f
  | HY_PKG_ALL | HY_PKG_EMPTY => Returns ∅
  | HY_PKG_NAME => Returns (filterName ev sk res f)
  | HY_PKG_EPOCH => Returns (filterEpoch ev sk res f)
  | HY_PKG_EVR => Returns (filterEvr ev sk res f)
  | HY_PKG_NEVRA => Returns (filterNevra ev sk res f)
  | HY_PKG_VERSION => Returns (filterVersion ev sk res f)
  | HY_PKG_RELEASE => Returns (filterRelease ev sk res f)
  | HY_PKG_ARCH => Returns (filterArch ev sk res f)
  | HY_PKG_SOURCERPM => Returns (filterSourcerpm ev sk res f)
  | HY_PKG_OBSOLETES =>
      if bool_decide (matchType f = _HY_RELDEP) then
        Returns (filterRcoReldep ev sk res f)
      else if bool_decide (matchType f = _HY_PKG) then
        Returns (filterObsoletes ev sk res f)
      else Throws AssertionFailure
  | HY_PKG_OBSOLETES_BY_PRIORITY => Returns (filterObsoletesByPriority ev sk res f)
  | HY_PKG_PROVIDES =>
      if bool_decide (matchType f = _HY_RELDEP) then
        Returns (filterProvidesReldep ev sk res f)
      else Throws AssertionFailure
  | HY_PKG_CONFLICTS | HY_PKG_ENHANCES | HY_PKG_RECOMMENDS | HY_PKG_REQUIRES
  | HY_PKG_SUGGESTS | HY_PKG_SUPPLEMENTS =>
      if bool_decide (matchType f = _HY_RELDEP) then
        Returns (filterRcoReldep ev sk res f)
      else Returns (filterDepSolvable ev sk res f)
  | HY_PKG_REPONAME => Returns (filterReponame ev sk res f)
  | HY_PKG_LOCATION => Returns (filterLocation ev sk res f)
  | HY_PKG_ADVISORY | HY_PKG_ADVISORY_BUG | HY_PKG_ADVISORY_CVE
  | HY_PKG_ADVISORY_SEVERITY | HY_PKG_ADVISORY_TYPE =>
      Returns (filterAdvisory ev sk res f)
  | HY_PKG_LATEST | HY_PKG_LATEST_PER_ARCH | HY_PKG_LATEST_PER_ARCH_BY_PRIORITY =>
      Returns (filterLatest (pool sk) res f)
  | HY_PKG_DOWNGRADABLE | HY_PKG_UPGRADABLE => Returns (filterUpdownAble ev sk res f)
  | HY_PKG_DOWNGRADES | HY_PKG_UPGRADES => Returns (filterUpdown ev sk res f)
  | HY_PKG_UPGRADES_BY_PRIORITY => Returns (filterUpdownByPriority ev sk res f)
  | _ => Returns (filterDataiterator ev sk res f)
  end.

(** The loop [for (auto f : filters)] of [apply]. *)
Fixpoint apply_filters (ev : Evaluators) (fs : list Filter) : QM unit :=
  match fs with
  | [] => mret tt
  | f :: rest =>
      st ← get;
      r ← get_result;
      m ← lift (eval_filter ev (sack st) r f);
      _ ← set_impl (set_result
             (Some (if has_bit (cmpType f) HY_NOT then r ∖ m else r ∩ m)));
      apply_filters ev rest
  end.

(** [Query::Impl::apply]. *)
Definition apply (ev : Evaluators) : QM unit :=
  st ← get;
  if applied (impl st) then mret tt else
  _ ← (if result (impl st) is None then initResult else mret tt);
  _ ← apply_filters ev (filters (impl st));
  set_impl (fun q => set_filters [] (set_applied true q)).

(** *** filterNevraStrict *)

(** The loop that parses the patterns into [compareSet]. *)
Fixpoint parse_matches (p : Pool) (createEVRId : bool)
    (cells : list (option cstring)) (compareSet : list Nevra.NevraID)
  : outcome (list Nevra.NevraID) :=
  match cells with
  | [] => Returns compareSet
  | nevraPattern :: rest =>
      match nevraPattern with
      | None => Throws (RuntimeError null_match_message)
      | Some pat =>
          match Nevra.parse p pat createEVRId with
          | Some nevraId => parse_matches p createEVRId rest (compareSet ++ [nevraId])
          | None => parse_matches p createEVRId rest compareSet
          end
      end
  end.

Definition same_nevra (n : Nevra.NevraID) (s : Solvable) : bool :=
  (Nevra.name n =? s_name s) && (Nevra.arch n =? s_arch s) && (Nevra.evr n =? s_evr s).

(** [(cmp > 0 && cmpType & HY_GT) || (cmp < 0 && cmpType & HY_LT) || (cmp == 0 && cmpType & HY_EQ)]. *)
Definition cmp_matches (cmp cmpType : Z) : bool :=
  ((0 <? cmp) && has_bit cmpType HY_GT) || ((cmp <? 0) && has_bit cmpType HY_LT)
  || ((cmp =? 0) && has_bit cmpType HY_EQ).

(** The inner [while (low != end && same name and arch)] of the relational
    branch: does some entry compare as the filter asks. *)
Fixpoint evr_scan (p : Pool) (cmpType : Z) (s : Solvable) (low : list Nevra.NevraID)
  : bool :=
  match low with
  | [] => false
  | n :: rest =>
      if (Nevra.name n =? s_name s) && (Nevra.arch n =? s_arch s) then
        let cmp := pool_evrcmp_str p (pool_id2str p (s_evr s)) (Nevra.evr_str n) in
        if cmp_matches cmp cmpType then true else evr_scan p cmpType s rest
      else false
  end.

(** The bitmap [nevraResult] over the members of [result]. *)
Definition nevra_result (p : Pool) (cmpType : Z) (createEVRId : bool)
    (compareSet : list Nevra.NevraID) (res : gset Z) : gset Z :=
  let test : Id -> bool :=
    if createEVRId then
      if (1 <? length compareSet)%nat then
        let sorted := Nevra.std_sort Nevra.nevraIDSorter compareSet in
        fun id =>
          let s := pool_id2solvable p id in
          match Nevra.lower_bound Nevra.nevraCompareLowerSolvable sorted s with
          | low :: _ => same_nevra low s
          | [] => false
          end
      else
        fun id =>
          match compareSet with
          | nevraId :: _ => same_nevra nevraId (pool_id2solvable p id)
          | [] => false
          end
    else
      if (1 <? length compareSet)%nat then
        let sorted := Nevra.std_sort Nevra.nevraNameArchKey compareSet in
        fun id =>
          let s := pool_id2solvable p id in
          evr_scan p cmpType s
            (Nevra.lower_bound Nevra.nameArchCompareLowerSolvable sorted s)
      else
        fun id =>
          match compareSet with
          | nevraId :: _ =>
              let s := pool_id2solvable p id in
              (Nevra.name nevraId =? s_name s) && (Nevra.arch nevraId =? s_arch s)
              && cmp_matches
                   (pool_evrcmp_str p (pool_id2str p (s_evr s)) (Nevra.evr_str nevraId))
                   cmpType
          | [] => false
          end in
  list_to_set (List.filter test (pset_ids res)).

(** [Query::Impl::filterNevraStrict]. *)
Definition filterNevraStrict (cmpType : Z) (matches_ : list (option cstring))
  : QM unit :=
  st ← get;
  let p := pool (sack st) in
  let nmatches := g_strv_length matches_ in
  let createEVRId := negb (has_bit cmpType HY_LT || has_bit cmpType HY_GT) in
  compareSet ← lift (parse_matches p createEVRId (take nmatches matches_) []);
  if bool_decide (compareSet = []) then
    if negb (has_bit cmpType HY_NOT) then
      _ ← get_result; set_impl (set_result (Some ∅))
    else mret tt
  else
    r ← get_result;
    let nevraResult := nevra_result p cmpType createEVRId compareSet r in
    set_impl (set_result
      (Some (if has_bit cmpType HY_NOT then r ∖ nevraResult else r ∩ nevraResult))).

(** *** addFilter *)

(** The helpers of other files that [addFilter] calls on strings:
    [hy_is_glob_pattern] (on the pointer it is handed), the constructor
    [Dependency(sack, str)] ([None] when it throws), and
    [DependencyContainer::addReldepWithGlob] / [addReldep] (the answer and
    the reldep ids that end up in the container). *)
Record Helpers := {
  hy_is_glob_pattern : option cstring -> bool;
  Dependency_new : DnfSack -> option cstring -> option Id;
  addReldepWithGlob : DnfSack -> option cstring -> bool * list Id;
  addReldep : DnfSack -> cstring -> list Id
}.

Definition push_filter (f : Filter) : QM unit :=
  set_impl (fun q => set_filters (filters q ++ [f]) q).

(** [Query::addFilter(int keyname, int cmp_type, int match)]. *)
Definition addFilter_num (keyname : Keyname) (cmp_type : Z) (match_ : Z) : QM retcode :=
  if negb (valid_filter_num keyname cmp_type) then mret (Some DNF_ERROR_BAD_QUERY) else
  _ ← set_impl (set_applied false);
  _ ← push_filter (Filter_num keyname cmp_type match_);
  mret None.

(** [Query::addFilter(int keyname, int cmp_type, int nmatches, const int *matches)]. *)
Definition addFilter_nums (keyname : Keyname) (cmp_type : Z) (ms : list Z) : QM retcode :=
  if negb (valid_filter_num keyname cmp_type) then mret (Some DNF_ERROR_BAD_QUERY) else
  _ ← set_impl (set_applied false);
  _ ← push_filter (Filter_nums keyname cmp_type ms);
  mret None.

(** [Query::addFilter(int keyname, int cmp_type, const DnfPackageSet *pset)]. *)
Definition addFilter_pset (keyname : Keyname) (cmp_type : Z) (pset : gset Z) : QM retcode :=
  if negb (valid_filter_pkg keyname cmp_type) then mret (Some DNF_ERROR_BAD_QUERY) else
  _ ← set_impl (set_applied false);
  _ ← push_filter (Filter_pset keyname cmp_type pset);
  mret None.

(** [Query::addFilter(int keyname, const Dependency *reldep)]. *)
Definition addFilter_reldep (keyname : Keyname) (reldep : Id) : QM retcode :=
  if negb (valid_filter_reldep keyname) then mret (Some DNF_ERROR_BAD_QUERY) else
  _ ← set_impl (set_applied false);
  _ ← push_filter (Filter_reldep keyname HY_EQ reldep);
  mret None.

(** [Query::addFilter(int keyname, const DependencyContainer *reldeplist)]. *)
Definition addFilter_reldeplist (keyname : Keyname) (reldeplist : list Id) : QM retcode :=
  if negb (valid_filter_reldep keyname) then mret (Some DNF_ERROR_BAD_QUERY) else
  _ ← set_impl (set_applied false);
  _ ← (if negb (length reldeplist =? 0)%nat
       then push_filter (Filter_reldeplist keyname HY_EQ reldeplist)
       else push_filter (Filter_num HY_PKG_EMPTY HY_EQ 1));
  mret None.

(** [Query::addFilter(int keyname, int cmp_type, const char *match)]. *)
Definition addFilter_str (h : Helpers) (ev : Evaluators)
    (keyname : Keyname) (cmp_type : Z) (match_ : option cstring) : QM retcode :=
  if bool_decide (keyname = HY_PKG_NEVRA_STRICT) then
    if negb (has_bit cmp_type HY_EQ || has_bit cmp_type HY_GT || has_bit cmp_type HY_LT)
    then mret (Some DNF_ERROR_BAD_QUERY) else
    _ ← apply ev;
    _ ← filterNevraStrict cmp_type [match_; None];
    mret None
  else
  let cmp_type :=
    if has_bit cmp_type HY_GLOB && negb (hy_is_glob_pattern h match_)
    then Z.lor (Z.land cmp_type (Z.lnot HY_GLOB)) HY_EQ else cmp_type in
  if negb (valid_filter_str keyname cmp_type) then mret (Some DNF_ERROR_BAD_QUERY) else
  _ ← set_impl (set_applied false);
  if match_type_reldep keyname then
    st ← get;
    if cmp_type =? HY_GLOB then
      let '(ok, reldeplist) := addReldepWithGlob h (sack st) match_ in
      if negb ok then addFilter_num HY_PKG_EMPTY HY_EQ 1
      else addFilter_reldeplist keyname reldeplist
    else
      match Dependency_new h (sack st) match_ with
      | Some reldep => addFilter_reldep keyname reldep
      | None => addFilter_num HY_PKG_EMPTY HY_EQ 1
      end
  else
    f ← lift (Filter_str keyname cmp_type match_);
    _ ← push_filter f;
    mret None.

(** [Query::addFilter(int keyname, int cmp_type, const char **matches)]. *)
Definition addFilter_strs (h : Helpers) (ev : Evaluators)
    (keyname : Keyname) (cmp_type : Z) (matches_ : list (option cstring)) : QM retcode :=
  if bool_decide (keyname = HY_PKG_NEVRA_STRICT) then
    if negb (has_bit cmp_type HY_EQ || has_bit cmp_type HY_GT || has_bit cmp_type HY_LT)
    then mret (Some DNF_ERROR_BAD_QUERY) else
    _ ← apply ev;
    _ ← filterNevraStrict cmp_type matches_;
    mret None
  else
  let cmp_type :=
    if has_bit cmp_type HY_GLOB then
      let is_glob := existsb (fun m => hy_is_glob_pattern h (Some m)) (strv matches_) in
      if negb is_glob then Z.lor (Z.land cmp_type (Z.lnot HY_GLOB)) HY_EQ else cmp_type
    else cmp_type in
  if negb (valid_filter_str keyname cmp_type) then mret (Some DNF_ERROR_BAD_QUERY) else
  _ ← set_impl (set_applied false);
  if match_type_reldep keyname then
    st ← get;
    let reldeplist :=
      if cmp_type =? HY_GLOB
      then concat ((fun m => snd (addReldepWithGlob h (sack st) (Some m))) <$> strv matches_)
      else concat (addReldep h (sack st) <$> strv matches_) in
    addFilter_reldeplist keyname reldeplist
  else
    f ← lift (Filter_strs keyname cmp_type matches_);
    _ ← push_filter f;
    mret None.

(** *** Reducers *)

(** The members of a result from [start] on, in increasing order: what
    [pkgId = start; if (!has(pkgId)) pkgId = next(pkgId);
     for (; pkgId != -1; pkgId = next(pkgId))] visits; removing the
    current member inside the loop does not change what follows. *)
Definition pset_ids_from (s : gset Z) (start : Id) : list Id :=
  List.filter (fun x => start <=? x) (pset_ids s).

(** The loop of [Query::installed]: the members it puts into
    [filterResult], up to its [break]. *)
Fixpoint installed_walk (p : Pool) (installed_repo : Repo) (ids : list Id)
    (filterResult : gset Z) : gset Z :=
  match ids with
  | [] => filterResult
  | pkgId :: rest =>
      let solvable := pool_id2solvable p pkgId in
      if s_repo solvable =? repoid installed_repo then
        installed_walk p installed_repo rest ({[pkgId]} ∪ filterResult)
      else if pkgId <? repo_end installed_repo then
        installed_walk p installed_repo rest filterResult
      else filterResult
  end.

(** [Query::installed]. *)
Definition installed (ev : Evaluators) : QM unit :=
  _ ← apply ev;
  st ← get;
  let p := pool (sack st) in
  queryResult ← get_result;
  match Solv.installed p with
  | None => set_impl (set_result (Some ∅))
  | Some rid =>
      let installed_repo := repo_of p rid in
      let filterResult :=
        installed_walk p installed_repo
          (pset_ids_from queryResult (repo_start installed_repo)) ∅ in
      set_impl (set_result (Some (queryResult ∩ filterResult)))
  end.

(** The loop of [Query::available]: members are removed in place. *)
Fixpoint available_walk (p : Pool) (installed_repo : Repo) (ids : list Id)
    (queryResult : gset Z) : gset Z :=
  match ids with
  | [] => queryResult
  | pkgId :: rest =>
      let solvable := pool_id2solvable p pkgId in
      if s_repo solvable =? repoid installed_repo then
        available_walk p installed_repo rest (queryResult ∖ {[pkgId]})
      else if pkgId <? repo_end installed_repo then
        available_walk p installed_repo rest queryResult
      else queryResult
  end.

(** [Query::available]. *)
Definition available (ev : Evaluators) : QM unit :=
  _ ← apply ev;
  st ← get;
  let p := pool (sack st) in
  match Solv.installed p with
  | None => mret tt
  | Some rid =>
      let installed_repo := repo_of p rid in
      queryResult ← get_result;
      set_impl (set_result (Some
        (available_walk p installed_repo
           (pset_ids_from queryResult (repo_start installed_repo)) queryResult)))
  end.

(** [Query::runSet]. *)
Definition runSet (ev : Evaluators) : QM (gset Z) :=
  _ ← apply ev;
  get_result.

End Query.

(** ** Selector lowering and Goal *)

Module Goal.

(** Modelled from the spec: a [Selector] (libdnf/sack/selector.cpp is not
    under src/) holds an optional package set, already turned into the
    pool's whatprovides id [pkgs] (0 when absent), and the optional filters
    name, provides, file, arch, evr and reponame. *)
Record Selector := {
  getFilterArch : option Filter;
  getFilterEvr : option Filter;
  getFilterFile : option Filter;
  getFilterName : option Filter;
  getPkgs : Id;
  getFilterProvides : option Filter;
  getFilterReponame : option Filter
}.

Definition NO_MATCH : Z := 1.
Definition MULTIPLE_MATCH_OBJECTS : Z := 2.
Definition INCORECT_COMPARISON_TYPE : Z := 3.

(** [ERROR_DICT]; [operator[]] answers a null pointer for a missing key. *)
Definition ERROR_DICT (ret : Z) : string :=
  if ret =? MULTIPLE_MATCH_OBJECTS then
    "Ill-formed Selector, presence of multiple match objects in the filter"
  else if ret =? INCORECT_COMPARISON_TYPE then
    "Ill-formed Selector used for the operation, incorrect comparison type"
  else "".

(** [packageToJob]; a [DnfPackage] is its solvable id. *)
Definition packageToJob (p : Pool) (package : Id) (job : Queue) (solver_action : Z)
  : Queue :=
  let what := pool_queuetowhatprovides p [package] in
  queue_push2 job
    (Z.lor (Z.lor (Z.lor SOLVER_SOLVABLE_ONE_OF SOLVER_SETARCH) SOLVER_SETEVR)
       solver_action) what.

(** [jobHas]. *)
Fixpoint jobHas (job : Queue) (what id : Id) : bool :=
  match job with
  | a :: b :: rest => ((a =? what) && (b =? id)) || jobHas rest what id
  | _ => false
  end.

(** The loop of [filterArchToJob] and [filterEvrToJob] that rewrites the
    [SOLVER_SOLVABLE_NAME] pairs of the job into relations. *)
Fixpoint rewrite_names (p : Pool) (job : Queue) (other : Id) (rel : Z) (setflag : Z)
  : outcome Queue :=
  match job with
  | a :: b :: rest =>
      if negb (Z.land a SOLVER_SELECTMASK =? SOLVER_SOLVABLE_NAME)
      then Throws AssertionFailure else
      rest' ← rewrite_names p rest other rel setflag;
      mret (Z.lor a setflag :: pool_rel2id p b other rel :: rest')
  | _ => mret job
  end.

(** The [filter...ToJob] functions answer their return code and the job. *)
Definition filterArchToJob (p : Pool) (f : option Filter) (job : Queue)
  : outcome (Z * Queue) :=
  match f with
  | None => mret (0, job)
  | Some f =>
      if negb (cmpType f =? HY_EQ) then mret (INCORECT_COMPARISON_TYPE, job) else
      if negb (length (matches f) =? 1)%nat then mret (MULTIPLE_MATCH_OBJECTS, job) else
      let arch := match_str (default (MatchNum 0) (head (matches f))) in
      let archid := str2archid p arch in
      if archid =? 0 then mret (NO_MATCH, job) else
      job' ← rewrite_names p job archid REL_ARCH SOLVER_SETARCH;
      mret (0, job')
  end.

Definition filterEvrToJob (p : Pool) (f : option Filter) (job : Queue)
  : outcome (Z * Queue) :=
  match f with
  | None => mret (0, job)
  | Some f =>
      if negb (cmpType f =? HY_EQ) then mret (INCORECT_COMPARISON_TYPE, job) else
      if negb (length (matches f) =? 1)%nat then mret (MULTIPLE_MATCH_OBJECTS, job) else
      let evr := pool_str2id p (match_str (default (MatchNum 0) (head (matches f)))) in
      let constr := if bool_decide (keyname f = HY_PKG_VERSION)
                    then SOLVER_SETEV else SOLVER_SETEVR in
      job' ← rewrite_names p job evr REL_EQ constr;
      mret (0, job')
  end.

Definition filterFileToJob (p : Pool) (f : option Filter) (job : Queue)
  : outcome (Z * Queue) :=
  match f with
  | None => mret (0, job)
  | Some f =>
      if negb (length (matches f) =? 1)%nat then mret (MULTIPLE_MATCH_OBJECTS, job) else
      let file := match_str (default (MatchNum 0) (head (matches f))) in
      let flags := if has_bit (cmpType f) HY_GLOB then SELECTION_GLOB else 0 in
      let flags := if has_bit (cmpType f) HY_GLOB
                   then Z.lor flags SELECTION_NOCASE else flags in
      let '(n, job') := selection_make p job file (Z.lor flags SELECTION_FILELIST) in
      if n =? 0 then mret (NO_MATCH, job') else mret (0, job')
  end.

Definition filterPkgToJob (what : Id) (job : Queue) : outcome (Z * Queue) :=
  if what =? 0 then mret (0, job) else
  mret (0, queue_push2 job
             (Z.lor (Z.lor SOLVER_SOLVABLE_ONE_OF SOLVER_SETARCH) SOLVER_SETEVR) what).

(** The [HY_GLOB] loop of [filterNameToJob] over the data iterator. *)
Fixpoint name_glob_steps (p : Pool) (steps_ : list (Id * option Id)) (job : Queue)
  : outcome Queue :=
  match steps_ with
  | [] => mret job
  | (solvid, idp) :: rest =>
      if negb (is_package p solvid) then name_glob_steps p rest job else
      match idp with
      | None => Throws AssertionFailure
      | Some id =>
          if jobHas job SOLVABLE_NAME id then name_glob_steps p rest job
          else name_glob_steps p rest (queue_push2 job SOLVER_SOLVABLE_NAME id)
      end
  end.

Definition filterNameToJob (p : Pool) (f : option Filter) (job : Queue)
  : outcome (Z * Queue) :=
  match f with
  | None => mret (0, job)
  | Some f =>
      if negb (length (matches f) =? 1)%nat then mret (MULTIPLE_MATCH_OBJECTS, job) else
      let name := match_str (default (MatchNum 0) (head (matches f))) in
      if cmpType f =? HY_EQ then
        let id := pool_str2id p name in
        mret (0, if negb (id =? 0) then queue_push2 job SOLVER_SOLVABLE_NAME id else job)
      else if cmpType f =? HY_GLOB then
        job' ← name_glob_steps p (dataiterator_glob p SOLVABLE_NAME name) job;
        mret (0, job')
      else mret (INCORECT_COMPARISON_TYPE, job)
  end.

(** The [HY_GLOB] loop of [filterProvidesToJob]: it stops at the first
    package and leaves [di.idp] where the iterator stands. *)
Fixpoint provides_glob_steps (p : Pool) (steps_ : list (Id * option Id))
    (last : option Id) : option Id :=
  match steps_ with
  | [] => last
  | (solvid, idp) :: rest =>
      if is_package p solvid then idp else provides_glob_steps p rest idp
  end.

Definition filterProvidesToJob (p : Pool) (f : option Filter) (job : Queue)
  : outcome (Z * Queue) :=
  match f with
  | None => mret (0, job)
  | Some f =>
      if negb (length (matches f) =? 1)%nat then mret (MULTIPLE_MATCH_OBJECTS, job) else
      let m := default (MatchNum 0) (head (matches f)) in
      if cmpType f =? HY_EQ then
        mret (0, queue_push2 job SOLVER_SOLVABLE_PROVIDES (match_reldep m))
      else if cmpType f =? HY_GLOB then
        match provides_glob_steps p
                (dataiterator_glob p SOLVABLE_PROVIDES (match_str m)) None with
        | None => Throws AssertionFailure
        | Some id =>
            mret (0, if negb (jobHas job SOLVABLE_PROVIDES id)
                     then queue_push2 job SOLVER_SOLVABLE_PROVIDES id else job)
        end
      else mret (INCORECT_COMPARISON_TYPE, job)
  end.

Definition filterReponameToJob (p : Pool) (f : option Filter) (job : Queue)
  : outcome (Z * Queue) :=
  match f with
  | None => mret (0, job)
  | Some f =>
      if negb (cmpType f =? HY_EQ) then mret (INCORECT_COMPARISON_TYPE, job) else
      if negb (length (matches f) =? 1)%nat then mret (MULTIPLE_MATCH_OBJECTS, job) else
      let name := match_str (default (MatchNum 0) (head (matches f))) in
      let repo_sel :=
        concat ((fun r => if bool_decide (name = repo_name r)
                          then [Z.lor SOLVER_SOLVABLE_REPO SOLVER_SETREPO; repoid r]
                          else []) <$> repos p) in
      mret (0, selection_filter p job repo_sel)
  end.

(** [job_sltr[i] | solver_action] pushed pair by pair onto [job]. *)
Fixpoint push_with_action (job_sltr : Queue) (solver_action : Z) (job : Queue) : Queue :=
  match job_sltr with
  | a :: b :: rest =>
      push_with_action rest solver_action (queue_push2 job (Z.lor a solver_action) b)
  | _ => job
  end.

Definition bad_selector_message : string :=
  "Ill-formed Selector. No name orprovides or file in the selector.".

(** The label [finish:] of [sltrToJob]. *)
Definition finish (ret : Z) (job : Queue) : outcome Queue :=
  if 1 <? ret then Throws (GoalError (ERROR_DICT ret) DNF_ERROR_BAD_SELECTOR)
  else Returns job.

(** One step of the chain [ret = filter...ToJob(...); if (ret) goto finish;]. *)
Definition step (job : Queue) (x : outcome (Z * Queue))
    (k : Queue -> outcome Queue) : outcome Queue :=
  match x with
  | Throws e => Throws e
  | Returns (ret, job_sltr) => if negb (ret =? 0) then finish ret job else k job_sltr
  end.

(** [sltrToJob]: the job queue after the call, or what it throws (the job
    is written only by the last loop, after which nothing throws). *)
Definition sltrToJob (p : Pool) (sltr : Selector) (job : Queue) (solver_action : Z)
  : outcome Queue :=
  let any_opt_filter :=
    bool_decide (is_Some (getFilterArch sltr)) || bool_decide (is_Some (getFilterEvr sltr))
    || bool_decide (is_Some (getFilterReponame sltr)) in
  let any_req_filter :=
    bool_decide (is_Some (getFilterName sltr))
    || bool_decide (is_Some (getFilterProvides sltr))
    || bool_decide (is_Some (getFilterFile sltr)) || negb (getPkgs sltr =? 0) in
  if negb any_req_filter then
    if any_opt_filter then
      Throws (GoalError bad_selector_message DNF_ERROR_BAD_SELECTOR)
    else finish 0 job
  else
    step job (filterPkgToJob (getPkgs sltr) []) (fun job_sltr =>
    step job (filterNameToJob p (getFilterName sltr) job_sltr) (fun job_sltr =>
    step job (filterFileToJob p (getFilterFile sltr) job_sltr) (fun job_sltr =>
    step job (filterProvidesToJob p (getFilterProvides sltr) job_sltr) (fun job_sltr =>
    step job (filterArchToJob p (getFilterArch sltr) job_sltr) (fun job_sltr =>
    step job (filterEvrToJob p (getFilterEvr sltr) job_sltr) (fun job_sltr =>
    step job (filterReponameToJob p (getFilterReponame sltr) job_sltr) (fun job_sltr =>
    finish 0 (push_with_action job_sltr solver_action job)))))))).

(** *** Goal state *)

(** Modelled from the spec: [DnfGoalActions] (hy-goal.h is not under src/)
    is the bitset of the intents ([ERASE], [DISTUPGRADE], [INSTALL],
    [UPGRADE], [UPGRADE_ALL]) and of the [run] flags ([ALLOW_UNINSTALL],
    [FORCE_BEST], [VERIFY], [IGNORE_WEAK_DEPS], [ALLOW_DOWNGRADE],
    [IGNORE_WEAK]); the bit positions are the header's. *)
Definition DNF_NONE : Z := 0.
Definition DNF_ERASE : Z := Z.shiftl 1 0.
Definition DNF_DISTUPGRADE : Z := Z.shiftl 1 1.
Definition DNF_DISTUPGRADE_ALL : Z := Z.shiftl 1 2.
Definition DNF_DOWNGRADE : Z := Z.shiftl 1 3.
Definition DNF_INSTALL : Z := Z.shiftl 1 4.
Definition DNF_UPGRADE : Z := Z.shiftl 1 5.
Definition DNF_UPGRADE_ALL : Z := Z.shiftl 1 6.
Definition DNF_ALLOW_UNINSTALL : Z := Z.shiftl 1 10.
Definition DNF_FORCE_BEST : Z := Z.shiftl 1 11.
Definition DNF_VERIFY : Z := Z.shiftl 1 12.
Definition DNF_IGNORE_WEAK_DEPS : Z := Z.shiftl 1 13.
Definition DNF_ALLOW_DOWNGRADE : Z := Z.shiftl 1 14.
Definition DNF_IGNORE_WEAK : Z := Z.shiftl 1 15.

(** The erase flag of hy-goal.h. *)
Definition HY_CLEAN_DEPS : Z := Z.shiftl 1 1.

(** [Goal::Impl]. *)
Record Impl := {
  sack : DnfSack;
  actions : Z;
  staging : Queue;
  solv : option Solver;
  trans : option Transaction;
  protectedPkgs : option (gset Z);
  removalOfProtected : option (gset Z);
  protect_running_kernel : bool;
  exclude_from_weak : gset Z
}.

Abbreviation GM := (SE Impl).

Definition set_sack (x : DnfSack) (g : Impl) : Impl :=
  {| sack := x; actions := actions g; staging := staging g; solv := solv g;
     trans := trans g; protectedPkgs := protectedPkgs g;
     removalOfProtected := removalOfProtected g;
     protect_running_kernel := protect_running_kernel g;
     exclude_from_weak := exclude_from_weak g |}.

Definition set_actions (x : Z) (g : Impl) : Impl :=
  {| sack := sack g; actions := x; staging := staging g; solv := solv g;
     trans := trans g; protectedPkgs := protectedPkgs g;
     removalOfProtected := removalOfProtected g;
     protect_running_kernel := protect_running_kernel g;
     exclude_from_weak := exclude_from_weak g |}.

Definition set_staging (x : Queue) (g : Impl) : Impl :=
  {| sack := sack g; actions := actions g; staging := x; solv := solv g;
     trans := trans g; protectedPkgs := protectedPkgs g;
     removalOfProtected := removalOfProtected g;
     protect_running_kernel := protect_running_kernel g;
     exclude_from_weak := exclude_from_weak g |}.

Definition set_solv (x : option Solver) (g : Impl) : Impl :=
  {| sack := sack g; actions := actions g; staging := staging g; solv := x;
     trans := trans g; protectedPkgs := protectedPkgs g;
     removalOfProtected := removalOfProtected g;
     protect_running_kernel := protect_running_kernel g;
     exclude_from_weak := exclude_from_weak g |}.

Definition set_trans (x : option Transaction) (g : Impl) : Impl :=
  {| sack := sack g; actions := actions g; staging := staging g; solv := solv g;
     trans := x; protectedPkgs := protectedPkgs g;
     removalOfProtected := removalOfProtected g;
     protect_running_kernel := protect_running_kernel g;
     exclude_from_weak := exclude_from_weak g |}.

Definition set_protectedPkgs (x : option (gset Z)) (g : Impl) : Impl :=
  {| sack := sack g; actions := actions g; staging := staging g; solv := solv g;
     trans := trans g; protectedPkgs := x;
     removalOfProtected := removalOfProtected g;
     protect_running_kernel := protect_running_kernel g;
     exclude_from_weak := exclude_from_weak g |}.

Definition set_removalOfProtected (x : option (gset Z)) (g : Impl) : Impl :=
  {| sack := sack g; actions := actions g; staging := staging g; solv := solv g;
     trans := trans g; protectedPkgs := protectedPkgs g;
     removalOfProtected := x;
     protect_running_kernel := protect_running_kernel g;
     exclude_from_weak := exclude_from_weak g |}.

Definition set_protect_running_kernel_field (x : bool) (g : Impl) : Impl :=
  {| sack := sack g; actions := actions g; staging := staging g; solv := solv g;
     trans := trans g; protectedPkgs := protectedPkgs g;
     removalOfProtected := removalOfProtected g;
     protect_running_kernel := x;
     exclude_from_weak := exclude_from_weak g |}.

Definition set_exclude_from_weak (x : gset Z) (g : Impl) : Impl :=
  {| sack := sack g; actions := actions g; staging := staging g; solv := solv g;
     trans := trans g; protectedPkgs := protectedPkgs g;
     removalOfProtected := removalOfProtected g;
     protect_running_kernel := protect_running_kernel g;
     exclude_from_weak := x |}.

(** [Goal::Impl::Impl(DnfSack * sack)]: an empty staging queue, no solver, no
    transaction, no protected set; [actions] starts as [DNF_NONE] and
    [protect_running_kernel] as the header initialises it (the member
    initialisers are in Goal-private.hpp, not under src/). *)
Definition new (sk : DnfSack) (prk : bool) : Impl :=
  {| sack := sk; actions := DNF_NONE; staging := []; solv := None; trans := None;
     protectedPkgs := None; removalOfProtected := None;
     protect_running_kernel := prk; exclude_from_weak := ∅ |}.

(** [pImpl->actions = static_cast<DnfGoalActions>(pImpl->actions | bits)]. *)
Definition or_actions (bits : Z) : GM unit :=
  modify (fun g => set_actions (Z.lor (actions g) bits) g).

(** [sltrToJob(sltr, &pImpl->staging, action)]. *)
Definition stage_selector (sltr : Selector) (solver_action : Z) : GM unit := fun g =>
  match sltrToJob (pool (sack g)) sltr (staging g) solver_action with
  | Returns job => (Returns tt, set_staging job g)
  | Throws e => (Throws e, g)
  end.

(** [packageToJob(pkg, &pImpl->staging, action)]. *)
Definition stage_package (pkg : Id) (solver_action : Z) : GM unit :=
  modify (fun g => set_staging (packageToJob (pool (sack g)) pkg (staging g) solver_action) g).

(** [queue_push2(&pImpl->staging, a, b)]. *)
Definition stage_push2 (a b : Id) : GM unit :=
  modify (fun g => set_staging (queue_push2 (staging g) a b) g).

Definition erase_flags2libsolv (flags : Z) : Z :=
  if has_bit flags HY_CLEAN_DEPS then SOLVER_CLEANDEPS else 0.

(** *** Intents *)

Definition empty_selector : Selector :=
  {| getFilterArch := None; getFilterEvr := None; getFilterFile := None;
     getFilterName := None; getPkgs := 0; getFilterProvides := None;
     getFilterReponame := None |}.

(** Modelled from the spec: [Selector::set(const DnfPackageSet * pset)] stores
    the package set of the selector, as the whatprovides id of its
    members. *)
Definition Selector_set (p : Pool) (sltr : Selector) (pset : gset Z) : Selector :=
  {| getFilterArch := getFilterArch sltr; getFilterEvr := getFilterEvr sltr;
     getFilterFile := None; getFilterName := None;
     getPkgs := pool_queuetowhatprovides p (pset_ids pset);
     getFilterProvides := None; getFilterReponame := getFilterReponame sltr |}.

(** A fresh [Query query(sack)] of the goal's sack, run to its end; the
    sack keeps what the query did to it. *)
Definition with_query {A} (c : Query.QM A) : GM A := fun g =>
  let '(r, qst) := c {| Query.sack := sack g; Query.impl := Query.new APPLY_EXCLUDES |} in
  (r, set_sack (Query.sack qst) g).

(** [Goal::distupgrade()]. *)
Definition distupgrade_all (ev : Query.Evaluators) : GM unit :=
  _ ← or_actions (Z.lor DNF_DISTUPGRADE DNF_ALLOW_DOWNGRADE);
  pset ← with_query (_ ← Query.available ev; Query.runSet ev);
  g ← get;
  stage_selector (Selector_set (pool (sack g)) empty_selector pset) SOLVER_DISTUPGRADE.

(** [Goal::distupgrade(DnfPackage * new_pkg)]. *)
Definition distupgrade_pkg (new_pkg : Id) : GM unit :=
  _ ← or_actions (Z.lor DNF_DISTUPGRADE DNF_ALLOW_DOWNGRADE);
  stage_package new_pkg SOLVER_DISTUPGRADE.

(** [Goal::distupgrade(HySelector)]. *)
Definition distupgrade_sltr (sltr : Selector) : GM unit :=
  _ ← or_actions (Z.lor DNF_DISTUPGRADE DNF_ALLOW_DOWNGRADE);
  stage_selector sltr SOLVER_DISTUPGRADE.

(** [Goal::erase(DnfPackage * pkg, int flags)]. *)
Definition erase_pkg (pkg : Id) (flags : Z) : GM unit :=
  let additional := erase_flags2libsolv flags in
  _ ← or_actions DNF_ERASE;
  stage_push2 (Z.lor (Z.lor SOLVER_SOLVABLE SOLVER_ERASE) additional) pkg.

(** [Goal::erase(HySelector, int)]. *)
Definition erase_sltr (sltr : Selector) (flags : Z) : GM unit :=
  let additional := erase_flags2libsolv flags in
  _ ← or_actions DNF_ERASE;
  stage_selector sltr (Z.lor SOLVER_ERASE additional).

(** [Goal::install(DnfPackage * new_pkg, bool optional)]. *)
Definition install_pkg (new_pkg : Id) (optional : bool) : GM unit :=
  let solverActions := if optional then Z.lor SOLVER_INSTALL SOLVER_WEAK
                       else SOLVER_INSTALL in
  _ ← or_actions (Z.lor DNF_INSTALL DNF_ALLOW_DOWNGRADE);
  stage_package new_pkg solverActions.

(** [Goal::install(HySelector, bool)]. *)
Definition install_sltr (sltr : Selector) (optional : bool) : GM unit :=
  let solverActions := if optional then Z.lor SOLVER_INSTALL SOLVER_WEAK
                       else SOLVER_INSTALL in
  _ ← or_actions (Z.lor DNF_INSTALL DNF_ALLOW_DOWNGRADE);
  stage_selector sltr solverActions.

(** [Goal::lock], [Goal::favor], [Goal::disfavor]. *)
Definition lock (pkg : Id) : GM unit :=
  stage_push2 (Z.lor SOLVER_SOLVABLE SOLVER_LOCK) pkg.
Definition favor (pkg : Id) : GM unit :=
  stage_push2 (Z.lor SOLVER_SOLVABLE SOLVER_FAVOR) pkg.
Definition disfavor (pkg : Id) : GM unit :=
  stage_push2 (Z.lor SOLVER_SOLVABLE SOLVER_DISFAVOR) pkg.

(** [Goal::upgrade()]. *)
Definition upgrade_all : GM unit :=
  _ ← or_actions DNF_UPGRADE_ALL;
  stage_push2 (Z.lor SOLVER_UPDATE SOLVER_SOLVABLE_ALL) 0.

(** [Goal::upgrade(DnfPackage * new_pkg)]. *)
Definition upgrade_pkg (new_pkg : Id) : GM unit :=
  _ ← or_actions DNF_UPGRADE;
  stage_package new_pkg SOLVER_UPDATE.

(** [Goal::upgrade(HySelector)]. *)
Definition upgrade_sltr (sltr : Selector) : GM unit :=
  _ ← or_actions DNF_UPGRADE;
  let flags := if negb (getPkgs sltr =? 0) then Z.lor SOLVER_UPDATE SOLVER_TARGETED
               else SOLVER_UPDATE in
  stage_selector sltr flags.

(** [Goal::userInstalled(DnfPackage * pkg)] and [Goal::userInstalled(PackageSet &)]. *)
Definition userInstalled_pkg (pkg : Id) : GM unit :=
  stage_push2 (Z.lor SOLVER_SOLVABLE SOLVER_USERINSTALLED) pkg.

Definition userInstalled_pset (pset : gset Z) : GM unit :=
  modify (fun g =>
    set_staging
      (foldl (fun q id => queue_push2 q (Z.lor SOLVER_SOLVABLE SOLVER_USERINSTALLED) id)
         (staging g) (pset_ids pset)) g).

(** [Goal::add_exclude_from_weak], [Goal::reset_exclude_from_weak]. *)
Definition add_exclude_from_weak_pset (pset : gset Z) : GM unit :=
  modify (fun g => set_exclude_from_weak (exclude_from_weak g ∪ pset) g).
Definition add_exclude_from_weak_pkg (pkg : Id) : GM unit :=
  modify (fun g => set_exclude_from_weak ({[pkg]} ∪ exclude_from_weak g) g).
Definition reset_exclude_from_weak : GM unit :=
  modify (set_exclude_from_weak ∅).

(** [Goal::addProtected], [Goal::setProtected],
    [Goal::set_protect_running_kernel]. *)
Definition addProtected (pset : gset Z) : GM unit :=
  modify (fun g =>
    match protectedPkgs g with
    | None => set_protectedPkgs (Some pset) g
    | Some s => set_protectedPkgs (Some (s ∪ pset)) g
    end).
Definition setProtected (pset : gset Z) : GM unit :=
  modify (set_protectedPkgs (Some pset)).
Definition set_protect_running_kernel (value : bool) : GM unit :=
  modify (set_protect_running_kernel_field value).

(** [Goal::hasActions]: the [int] [actions & action] returned as [bool]. *)
Definition hasActions (g : Impl) (action : Z) : bool :=
  negb (Z.land (actions g) action =? 0).

(** [Goal::jobLength]. *)
Definition jobLength (g : Impl) : Z := Z.of_nat (length (staging g)) / 2.

(** *** Running the solver *)

(** [Goal::Impl::protectedRunningKernel]. *)
Definition protectedRunningKernel (g : Impl) : Id :=
  if protect_running_kernel g then running_kernel (sack g) else 0.

(** [Goal::Impl::allowUninstallAllButProtected]: the job after the call;
    a missing protected set becomes an empty one. *)
Definition allowUninstallAllButProtected (job : Queue) (flags : Z) : GM Queue :=
  _ ← modify (fun g =>
        match protectedPkgs g with
        | None => set_protectedPkgs (Some ∅) g
        | Some _ => g
        end);
  g ← get;
  let p := pool (sack g) in
  let prot := default ∅ (protectedPkgs g) in
  let protected_kernel := protectedRunningKernel g in
  if has_bit DNF_ALLOW_UNINSTALL flags then
    mret (foldl
            (fun job id =>
               let s := pool_id2solvable p id in
               if in_installed p s && negb (pset_has prot id)
                  && negb (id =? protected_kernel)
                  && match considered p with
                     | None => true
                     | Some c => pset_has c id
                     end
               then queue_push2 job (Z.lor SOLVER_ALLOWUNINSTALL SOLVER_SOLVABLE) id
               else job)
            job (Z.of_nat <$> seq 1 (length (solvables p) - 1)))
  else mret job.

(** [elements[i] |= bit] (or [&= ~bit]) on every first half of a pair. *)
Fixpoint map_job_flags (f : Z -> Z) (job : Queue) : Queue :=
  match job with
  | a :: b :: rest => f a :: b :: map_job_flags f rest
  | _ => job
  end.

(** [Goal::Impl::constructJob]. *)
Definition constructJob (flags : Z) : GM Queue :=
  g ← get;
  let job := staging g in
  let job := if has_bit flags DNF_FORCE_BEST
             then map_job_flags (fun a => Z.lor a SOLVER_FORCEBEST) job else job in
  let job := foldl (fun job id =>
                      queue_push2 job (Z.lor SOLVER_SOLVABLE SOLVER_EXCLUDEFROMWEAK) id)
               job (pset_ids (exclude_from_weak g)) in
  let job := foldl (fun job dep =>
                      queue_push2 job (Z.lor SOLVER_MULTIVERSION SOLVER_SOLVABLE_PROVIDES) dep)
               job (installonly (sack g)) in
  job ← allowUninstallAllButProtected job flags;
  mret (if has_bit flags DNF_VERIFY
        then queue_push2 job (Z.lor SOLVER_VERIFY SOLVER_SOLVABLE_ALL) 0 else job).

(** The flags that [initSolver] and [solve] set on the new solver. *)
Definition solver_flags (g : Impl) (flags : Z) : list (SolverFlag * Z) :=
  let vendor := if allow_vendor_change (sack g) then 1 else 0 in
  [ (SOLVER_FLAG_ALLOW_VENDORCHANGE, vendor);
    (SOLVER_FLAG_DUP_ALLOW_VENDORCHANGE, vendor);
    (SOLVER_FLAG_KEEP_ORPHANS, 1);
    (SOLVER_FLAG_BEST_OBEY_POLICY, 1);
    (SOLVER_FLAG_YUM_OBSOLETES, 1);
    (SOLVER_FLAG_URPM_REORDER, 1) ]
  ++ (if has_bit DNF_IGNORE_WEAK_DEPS flags then [(SOLVER_FLAG_IGNORE_RECOMMENDED, 1)] else [])
  ++ (if has_bit DNF_ALLOW_DOWNGRADE (actions g) then [(SOLVER_FLAG_ALLOW_DOWNGRADE, 1)] else []).

(** [can_depend_on]. *)
Definition can_depend_on (p : Pool) (a : Id) (b : Id) : bool :=
  existsb (fun req_dep => existsb (fun x => x =? b) (whatprovides p req_dep))
    (solvable_requires p a).

(** [sort_packages]. *)
Definition sort_packages (p : Pool) (kernel : Id) (a b : Id) : Z :=
  let sa := pool_id2solvable p a in
  let sb := pool_id2solvable p b in
  let name_diff := s_name sa - s_name sb in
  if negb (name_diff =? 0) then name_diff else
  if negb (in_installed p sa) then 1 else
  if negb (in_installed p sb) then -1 else
  let by_evr := pool_evrcmp p (s_evr sa) (s_evr sb) in
  if 0 <=? kernel then
    if (a =? kernel) || can_depend_on p a kernel then 1 else
    if (b =? kernel) || can_depend_on p b kernel then -1 else
    let kernelSolvable := pool_id2solvable p kernel in
    if s_evr sa =? s_evr kernelSolvable then 1 else
    if s_evr sb =? s_evr kernelSolvable then -1 else
    by_evr
  else by_evr.

(** [same_name_subqueue] on the queue read from its end: [rin] is [in]
    reversed; the answer is [out] and what is left of [in] (reversed). *)
Fixpoint pop_same_name (p : Pool) (name : Id) (rin : list Id) (out : list Id)
  : list Id * list Id :=
  match rin with
  | x :: rest =>
      if s_name (pool_id2solvable p x) =? name
      then pop_same_name p name rest (out ++ [x])
      else (out, rin)
  | [] => (out, rin)
  end.

Definition same_name_subqueue (p : Pool) (rin : list Id) : list Id * list Id :=
  match rin with
  | el :: rest => pop_same_name p (s_name (pool_id2solvable p el)) rest [el]
  | [] => ([], [])
  end.

(** The loop [while (q.size() > 0)] of [limitInstallonlyPackages]; every
    round pops at least one id, so [length rq] rounds are enough. *)
Fixpoint limit_runs (p : Pool) (limit : Z) (fuel : nat) (rq : list Id)
    (reresolve : bool) (job : Queue) : bool * Queue :=
  match fuel with
  | O => (reresolve, job)
  | S fuel' =>
      match rq with
      | [] => (reresolve, job)
      | _ =>
          let '(same_names, rq') := same_name_subqueue p rq in
          if Z.of_nat (length same_names) <=? limit then
            limit_runs p limit fuel' rq' reresolve job
          else
            let job' :=
              foldl (fun job '(j, id) =>
                       let action := if Z.of_nat j <? limit
                                     then SOLVER_INSTALL else SOLVER_ERASE in
                       queue_push2 job (Z.lor action SOLVER_SOLVABLE) id)
                job (imap (fun j id => (j, id)) same_names) in
            limit_runs p limit fuel' rq' true job'
      end
  end.

(** [Goal::Impl::limitInstallonlyPackages]: [reresolve] and the job. *)
Definition limitInstallonlyPackages (sk : DnfSack) (solv_ : Solver) (job : Queue)
  : bool * Queue :=
  if installonly_limit sk =? 0 then (false, job) else
  let p := pool sk in
  foldl
    (fun '(reresolve, job) only =>
       let q := List.filter
                  (fun x => is_package p x && (0 <? solver_get_decisionlevel solv_ x))
                  (whatprovides p only) in
       if Z.of_nat (length q) <=? installonly_limit sk then (reresolve, job) else
       if negb (existsb (fun id => negb (in_installed p (pool_id2solvable p id))) q)
       then (reresolve, job) else
       let q := solv_sort p (sort_packages p (running_kernel sk)) q in
       limit_runs p (installonly_limit sk) (length q) (rev q) reresolve job)
    (false, job) (installonly sk).

(** [Goal::Impl::listResults]. *)
Definition listResults (g : Impl) (type_filter1 type_filter2 : Id) : outcome (gset Z) :=
  match trans g with
  | None =>
      match solv g with
      | None => Throws (GoalError "no solv in the goal" DNF_ERROR_INTERNAL_ERROR)
      | Some _ =>
          if match removalOfProtected g with
             | Some r => negb (pset_size r =? 0)
             | None => false
             end
          then Throws (GoalError "no solution, cannot remove protected package"
                         DNF_ERROR_REMOVAL_OF_PROTECTED_PKG)
          else Throws (GoalError "no solution possible" DNF_ERROR_NO_SOLUTION)
      end
  | Some t =>
      let common_mode :=
        Z.lor SOLVER_TRANSACTION_SHOW_OBSOLETES SOLVER_TRANSACTION_CHANGE_IS_REINSTALL in
      Returns (foldl
        (fun plist p =>
           let type :=
             if type_filter1 =? SOLVER_TRANSACTION_OBSOLETED
             then transaction_type t p common_mode
             else transaction_type t p
                    (Z.lor (Z.lor common_mode SOLVER_TRANSACTION_SHOW_ACTIVE)
                       SOLVER_TRANSACTION_SHOW_ALL) in
           if (type =? type_filter1) || (negb (type_filter2 =? 0) && (type =? type_filter2))
           then {[p]} ∪ plist else plist)
        ∅ (steps t))
  end.

Definition listErasures (g : Impl) := listResults g SOLVER_TRANSACTION_ERASE 0.
Definition listInstalls (g : Impl) :=
  listResults g SOLVER_TRANSACTION_INSTALL SOLVER_TRANSACTION_OBSOLETES.
Definition listObsoleted (g : Impl) := listResults g SOLVER_TRANSACTION_OBSOLETED 0.
Definition listReinstalls (g : Impl) := listResults g SOLVER_TRANSACTION_REINSTALL 0.
Definition listUpgrades (g : Impl) := listResults g SOLVER_TRANSACTION_UPGRADE 0.
Definition listDowngrades (g : Impl) := listResults g SOLVER_TRANSACTION_DOWNGRADE 0.

(** [Goal::Impl::protectedInRemovals]. *)
Definition protectedInRemovals : GM bool :=
  g ← get;
  if match protectedPkgs g with
     | None => true
     | Some s => pset_size s =? 0
     end && negb (protect_running_kernel g)
  then mret false else
  pkgRemoveList ← lift (listResults g SOLVER_TRANSACTION_ERASE 0);
  pkgObsoleteList ← lift (listResults g SOLVER_TRANSACTION_OBSOLETED 0);
  let pkgRemoveList := pkgRemoveList ∪ pkgObsoleteList in
  _ ← modify (set_removalOfProtected (Some pkgRemoveList));
  let protected_kernel := protectedRunningKernel g in
  match protectedPkgs g with
  | None =>
      if bool_decide (pkgRemoveList = ∅) then mret false else throw NullDereference
  | Some prot =>
      let kept := filter (fun id => id ∈ prot ∨ id = protected_kernel) pkgRemoveList in
      _ ← modify (set_removalOfProtected (Some kept));
      mret (negb (bool_decide (kept = ∅)))
  end.

(** [Goal::Impl::solve]; [true] is the failure answer. *)
Definition solve (job : Queue) (flags : Z) : GM bool :=
  _ ← modify (set_trans None);
  g ← get;
  let p := pool (sack g) in
  let job := if has_bit DNF_IGNORE_WEAK flags
             then map_job_flags (fun a => Z.land a (Z.lnot SOLVER_WEAK)) job else job in
  let sflags := solver_flags g flags in
  let solv_ := solver_solve p sflags job in
  _ ← modify (set_solv (Some solv_));
  if negb (solver_problem_count solv_ =? 0) then mret true else
  let '(reresolve, job) := limitInstallonlyPackages (sack g) solv_ job in
  solved ←
    (if reresolve then
       job ← allowUninstallAllButProtected job DNF_ALLOW_UNINSTALL;
       let solv2 := solver_solve p sflags job in
       _ ← modify (set_solv (Some solv2));
       mret solv2
     else mret solv_);
  if reresolve && negb (solver_problem_count solved =? 0) then mret true else
  _ ← modify (set_trans (Some (solver_create_transaction solved)));
  r ← protectedInRemovals;
  mret r.

(** [Goal::run]. *)
Definition run (flags : Z) : GM bool :=
  job ← constructJob flags;
  _ ← or_actions flags;
  solve job flags.

(** [Goal::Impl::countProblems]. *)
Definition countProblems (g : Impl) : outcome Z :=
  match solv g with
  | None => Throws AssertionFailure
  | Some s =>
      let protectedSize := match removalOfProtected g with
                           | Some r => pset_size r
                           | None => 0
                           end in
      Returns (solver_problem_count s + Z.min 1 protectedSize)
  end.

End Goal.

(** ** Calls on a goal and on a query *)

Module Calls.
Import Goal.

(** The public calls on a [Goal] that touch its staging queue, its policy
    or its solver. *)
Inductive Call :=
| CDistupgradeAll
| CDistupgradePkg (new_pkg : Id)
| CDistupgradeSltr (sltr : Selector)
| CErasePkg (pkg : Id) (flags : Z)
| CEraseSltr (sltr : Selector) (flags : Z)
| CInstallPkg (new_pkg : Id) (optional : bool)
| CInstallSltr (sltr : Selector) (optional : bool)
| CLock (pkg : Id)
| CFavor (pkg : Id)
| CDisfavor (pkg : Id)
| CUpgradeAll
| CUpgradePkg (new_pkg : Id)
| CUpgradeSltr (sltr : Selector)
| CUserInstalledPkg (pkg : Id)
| CUserInstalledPset (pset : gset Z)
| CAddExcludeFromWeakPset (pset : gset Z)
| CAddExcludeFromWeakPkg (pkg : Id)
| CResetExcludeFromWeak
| CAddProtected (pset : gset Z)
| CSetProtected (pset : gset Z)
| CSetProtectRunningKernel (value : bool)
| CRun (flags : Z).

Definition exec (ev : Query.Evaluators) (c : Call) : GM unit :=
  match c with
  | CDistupgradeAll => distupgrade_all ev
  | CDistupgradePkg p => distupgrade_pkg p
  | CDistupgradeSltr s => distupgrade_sltr s
  | CErasePkg p f => erase_pkg p f
  | CEraseSltr s f => erase_sltr s f
  | CInstallPkg p o => install_pkg p o
  | CInstallSltr s o => install_sltr s o
  | CLock p => lock p
  | CFavor p => favor p
  | CDisfavor p => disfavor p
  | CUpgradeAll => upgrade_all
  | CUpgradePkg p => upgrade_pkg p
  | CUpgradeSltr s => upgrade_sltr s
  | CUserInstalledPkg p => userInstalled_pkg p
  | CUserInstalledPset s => userInstalled_pset s
  | CAddExcludeFromWeakPset s => add_exclude_from_weak_pset s
  | CAddExcludeFromWeakPkg p => add_exclude_from_weak_pkg p
  | CResetExcludeFromWeak => reset_exclude_from_weak
  | CAddProtected s => addProtected s
  | CSetProtected s => setProtected s
  | CSetProtectRunningKernel v => set_protect_running_kernel v
  | CRun flags => _ ← run flags; mret tt
  end.

(** The state after a sequence of calls; a caller that catches an
    exception goes on with the state the call left. *)
Definition exec_all (ev : Query.Evaluators) (calls : list Call) (g : Impl) : Impl :=
  foldl (fun g c => snd (exec ev c g)) g calls.


(** The intents: every call but [run]. *)
Definition is_intent (c : Call) : bool :=
  match c with
  | CRun _ => false
  | _ => true
  end.

End Calls.

Module QueryOps.
Import Query.

(** The overloads of [Query::addFilter] as one call type. *)
Inductive AddFilter :=
| AddNum (keyname : Keyname) (cmp_type : Z) (match_ : Z)
| AddNums (keyname : Keyname) (cmp_type : Z) (matches_ : list Z)
| AddPset (keyname : Keyname) (cmp_type : Z) (pset : gset Z)
| AddReldep (keyname : Keyname) (reldep : Id)
| AddReldeplist (keyname : Keyname) (reldeplist : list Id)
| AddStr (keyname : Keyname) (cmp_type : Z) (match_ : option cstring)
| AddStrs (keyname : Keyname) (cmp_type : Z) (matches_ : list (option cstring)).

Definition addFilter (h : Helpers) (ev : Evaluators) (a : AddFilter) : QM retcode :=
  match a with
  | AddNum k c m => addFilter_num k c m
  | AddNums k c ms => addFilter_nums k c ms
  | AddPset k c s => addFilter_pset k c s
  | AddReldep k r => addFilter_reldep k r
  | AddReldeplist k l => addFilter_reldeplist k l
  | AddStr k c m => addFilter_str h ev k c m
  | AddStrs k c ms => addFilter_strs h ev k c ms
  end.

(** The state after a sequence of [addFilter] calls (whatever each one
    answered or threw). *)
Definition addFilters (h : Helpers) (ev : Evaluators) (adds : list AddFilter)
    (st : State) : State :=
  foldl (fun st a => snd (addFilter h ev a st)) st adds.

(** A query as its constructor leaves it, on a sack. *)
Definition fresh (sk : DnfSack) (fl : ExcludeFlags) : State :=
  {| sack := sk; impl := new fl |}.

End QueryOps.

(** ** More of Goal.cpp: copies and problem reports *)

Module GoalReport.
Import Goal.

(** [Goal::Impl::Impl(const Goal::Impl & goal_src)]: the sack, the packages
    excluded from weak dependencies, a clone of the staging queue, the
    actions and copies of the protected and removal sets; the solver, the
    transaction and [protect_running_kernel] are not copied and start as
    their member initialisers leave them (no solver, no transaction, [prk],
    as for [new]). *)
Definition Impl_copy (prk : bool) (goal_src : Impl) : Impl :=
  {| sack := sack goal_src; actions := actions goal_src;
     staging := staging goal_src; solv := None; trans := None;
     protectedPkgs := protectedPkgs goal_src;
     removalOfProtected := removalOfProtected goal_src;
     protect_running_kernel := prk;
     exclude_from_weak := exclude_from_weak goal_src |}.

(** The loop of [string_join] over the elements behind the first. *)
Fixpoint string_join_loop (rest : list string) (delim output : string) : string :=
  match rest with
  | [] => output
  | x :: rest' => string_join_loop rest' delim ((output +:+ delim) +:+ x)
  end.

(** [string_join]. *)
Definition string_join (src : list string) (delim : string) : string :=
  match src with
  | [] => ""
  | x :: rest => string_join_loop rest delim x
  end.

(** The loop of [Goal::formatAllProblemRules] from the second problem on. *)
Fixpoint format_loop (format_d : string -> Z -> string) (problem_prefix : string)
    (rest : list (list string)) (index : Z) (output : string) : string :=
  match rest with
  | [] => output
  | p :: rest' =>
      let output := output +:+ String "010" " " in
      let output := output +:+ format_d problem_prefix index in
      let output := output +:+ string_join p (String "010" "  - ") in
      format_loop format_d problem_prefix rest' (index + 1) output
  end.

(** [Goal::formatAllProblemRules]; [gettext] is the translation [_()] and
    [format_d fmt n] is [tfm::format(fmt, n)]. *)
Definition formatAllProblemRules (gettext : string -> string)
    (format_d : string -> Z -> string) (problems : list (list string)) : string :=
  match problems with
  | [] => ""
  | first :: rest =>
      let single_problems := (length problems =? 1)%nat in
      if single_problems then
        ("" +:+ gettext "Problem: ") +:+ string_join first (String "010" "  - ")
      else
        let problem_prefix := gettext "Problem %d: " in
        let output := "" +:+ format_d problem_prefix 1 in
        let output := output +:+ string_join first (String "010" "  - ") in
        format_loop format_d problem_prefix rest 2 output
  end.

(** The two inner loops of [Goal::describeAllProblemRules]: is every line
    of [problemList] among the lines of [problemsSaved]; the answer is what
    [presentElement] holds when the loop over [problemList] ends. *)
Fixpoint all_present (problemList problemsSaved : list string)
    (presentElement : bool) : bool :=
  match problemList with
  | [] => presentElement
  | problem :: rest =>
      let presentElement :=
        existsb (fun problemSaved => String.eqb problemSaved problem) problemsSaved in
      if negb presentElement then presentElement
      else all_present rest problemsSaved presentElement
  end.

(** The loop over [output] that computes [unique]. *)
Definition is_unique (problemList : list string) (output : list (list string)) : bool :=
  foldl
    (fun unique problemsSaved =>
       if negb (length problemList =? length problemsSaved)%nat then unique
       else if all_present problemList problemsSaved false then false else unique)
    true output.

(** [Goal::describeAllProblemRules(pkgs)]; [describe i] is what
    [describeProblemRules(i, pkgs)] answers on this goal. *)
Definition describeAllProblemRules (describe : Z -> list string) (g : Impl)
  : outcome (list (list string)) :=
  count_problems ← countProblems g;
  mret (foldl
          (fun output i =>
             let problemList := describe i in
             if bool_decide (problemList = []) then output
             else if is_unique problemList output then output ++ [problemList]
             else output)
          [] (Z.of_nat <$> seq 0 (Z.to_nat count_problems))).

End GoalReport.

(** ** More of query.cpp: copies, size, extras *)

Module QueryExtra.
Import Query.

(** [Query::Impl::Impl(const Query::Impl & src)]: [applied], the sack, the
    flags and the filters are copied and the result is cloned;
    [considered_cached] is not copied and starts as for a new query. *)
Definition Impl_copy (src : Impl) : Impl :=
  {| applied := applied src; flags := flags src; result := result src;
     filters := filters src; considered_cached := None |}.

(** A member call on another [Query] object of the same sack: the sack is
    shared, the object of the caller is left alone, and the other object
    comes back with the answer. *)
Definition sub_query {A} (q : Impl) (m : QM A) : QM (A * Impl) := fun st =>
  let '(o, st') := m {| sack := sack st; impl := q |} in
  (match o with
   | Returns a => Returns (a, impl st')
   | Throws e => Throws e
   end,
   {| sack := sack st'; impl := impl st |}).

(** [Query::size]. *)
Definition size (ev : Evaluators) : QM Z :=
  _ ← apply ev;
  r ← get_result;
  mret (pset_size r).

(** [Query::empty]. *)
Definition empty (ev : Evaluators) : QM bool :=
  _ ← apply ev;
  r ← get_result;
  mret (bool_decide (r = ∅)).

(** [NameArchSolvableComparator]. *)
Definition NameArchSolvableComparator (first second : Solvable) : bool :=
  if negb (s_name first =? s_name second) then s_name first <? s_name second
  else s_arch first <? s_arch second.

(** The test in the last loop of [filterExtras]: [low] is the end of
    [namesArch], or the solvable it points to differs from [s_installed] in
    name or in arch. *)
Definition no_name_arch (namesArch : list Solvable) (s_installed : Solvable) : bool :=
  match Nevra.lower_bound NameArchSolvableComparator namesArch s_installed with
  | [] => true
  | low :: _ =>
      negb (s_name low =? s_name s_installed) || negb (s_arch low =? s_arch s_installed)
  end.

(** [Query::filterExtras]. *)
Definition filterExtras (ev : Evaluators) : QM unit :=
  _ ← apply ev;
  st ← get;
  let p := pool (sack st) in
  _ ← get_result;
  '(_, query_installed) ← sub_query (Impl_copy (impl st)) (installed ev);
  _ ← set_impl (set_result (Some ∅));
  '(n, query_installed) ← sub_query query_installed (size ev);
  if n =? 0 then mret tt else
  '(_, query_available) ← sub_query (new IGNORE_REGULAR_EXCLUDES) (available ev);
  match result query_available, result query_installed with
  | Some resultAvailable, Some resultInstalled =>
      let namesArch :=
        Nevra.std_sort NameArchSolvableComparator
          (pool_id2solvable p <$> pset_ids resultAvailable) in
      set_impl (set_result (Some (list_to_set
        (List.filter (fun id_installed =>
                        no_name_arch namesArch (pool_id2solvable p id_installed))
           (pset_ids resultInstalled)))))
  | _, _ => throw NullDereference
  end.

(** [add_duplicates_to_map]: every pair of positions of the block, the
    first before the second; a pair with the same evr and different archs
    is passed over, of any other pair both members are set. *)
Definition add_duplicates_to_map (pool : Pool) (res : gset Z) (samename : Queue)
    (start_block stop_block : Z) : gset Z :=
  foldl (fun res pos =>
           let id_first := elem samename pos in
           let s_first := pool_id2solvable pool id_first in
           foldl (fun res pos2 =>
                    let id_second := elem samename pos2 in
                    let s_second := pool_id2solvable pool id_second in
                    if (s_evr s_first =? s_evr s_second)
                       && negb (s_arch s_first =? s_arch s_second)
                    then res
                    else {[id_second]} ∪ ({[id_first]} ∪ res))
             res (seqZ (pos + 1) (stop_block - (pos + 1))))
    res (seqZ start_block (stop_block - start_block)).

(** [hy_query_to_name_ordered_queue]: the ids from 1 below [nsolvables]
    that are in the result, sorted; the result is only read inside the
    loop. *)
Definition hy_query_to_name_ordered_queue (ev : Evaluators) : QM Queue :=
  _ ← apply ev;
  st ← get;
  let pool := Sack.pool (sack st) in
  let ids := Z.of_nat <$> seq 1 (Z.to_nat (nsolvables pool) - 1) in
  match result (impl st) with
  | Some r =>
      mret (solv_sort pool (filter_latest_sortcmp pool) (List.filter (pset_has r) ids))
  | None =>
      if bool_decide (ids = []) then mret (solv_sort pool (filter_latest_sortcmp pool) [])
      else throw NullDereference
  end.

(** The state of the loop of [filterDuplicated]: [highest] (a pointer,
    kept as the id of the solvable), [start_block] and the bitmap. *)
Record DupState := {
  d_highest : option Id;
  d_start_block : Z;
  d_map : gset Z
}.

(** One round of [for (i = 0; i < samename.size(); ++i)]. *)
Definition dup_step (pool : Pool) (samename : Queue) (i : Z) (st : DupState) : DupState :=
  let p := elem samename i in
  let considered := pool_id2solvable pool p in
  let new_block :=
    match d_highest st with
    | None => true
    | Some h => negb (s_name (pool_id2solvable pool h) =? s_name considered)
    end in
  if new_block then
    if d_start_block st =? -1 then
      {| d_highest := Some p; d_start_block := i; d_map := d_map st |}
    else
      {| d_highest := Some p; d_start_block := i;
         d_map := if negb (d_start_block st =? i - 1)
                  then add_duplicates_to_map pool (d_map st) samename (d_start_block st) i
                  else d_map st |}
  else st.

Fixpoint dup_loop (pool : Pool) (samename : Queue) (n : nat) (i : Z) (st : DupState)
  : DupState :=
  match n with
  | O => st
  | S n' => dup_loop pool samename n' (i + 1) (dup_step pool samename i st)
  end.

(** [Query::filterDuplicated]. *)
Definition filterDuplicated (ev : Evaluators) : QM unit :=
  st0 ← get;
  let pool := Sack.pool (sack st0) in
  _ ← installed ev;
  _ ← get_result;
  samename ← hy_query_to_name_ordered_queue ev;
  let st := dup_loop pool samename (length samename) 0
              {| d_highest := None; d_start_block := -1; d_map := ∅ |} in
  let m := if negb (d_start_block st =? -1)
           then add_duplicates_to_map pool (d_map st) samename (d_start_block st)
                  (Z.of_nat (length samename))
           else d_map st in
  set_impl (set_result (Some m)).

End QueryExtra.

(** ** Concrete pools *)

Module Ex.

(** Insertion sort by a C comparator, standing for [solv_sort]. *)
Fixpoint insert_by (cmp : Id -> Id -> Z) (x : Id) (l : list Id) : list Id :=
  match l with
  | [] => [x]
  | y :: rest => if cmp x y <=? 0 then x :: l else y :: insert_by cmp x rest
  end.

Definition isort (cmp : Id -> Id -> Z) (l : list Id) : list Id :=
  foldr (insert_by cmp) [] l.

(** The id of a string in a string table (0 when it is not there). *)
Definition str_index (tbl : list cstring) (s : cstring) : Id :=
  match list_find (fun t => t = s) tbl with
  | Some (i, _) => Z.of_nat i
  | None => 0
  end.

Definition SOLVER_JOBMASK : Z := 0xff00.

(** The pairs of a job queue. *)
Fixpoint job_pairs (job : Queue) : list (Z * Id) :=
  match job with
  | a :: b :: rest => (a, b) :: job_pairs rest
  | _ => []
  end.

(** A solver for pools without dependencies: every job on a single
    solvable is granted; the transaction erases what was asked to be
    erased and installs what was asked to be installed. *)
Definition plain_solver (job : Queue) : Solver :=
  let on_solvable action :=
    omap (fun '(a, b) =>
            if (Z.land a SOLVER_SELECTMASK =? SOLVER_SOLVABLE)
               && (Z.land a SOLVER_JOBMASK =? action)
            then Some b else None) (job_pairs job) in
  let erased := on_solvable SOLVER_ERASE in
  let installed_ := on_solvable SOLVER_INSTALL in
  {| solver_problem_count := 0;
     solver_get_decisionlevel := fun _ => 0;
     solver_create_transaction :=
       {| steps := erased ++ installed_;
          transaction_type := fun p _ =>
            if bool_decide (p ∈ erased) then SOLVER_TRANSACTION_ERASE
            else SOLVER_TRANSACTION_INSTALL |} |}.

(** A pool over a string table: strings are interned at their index, evrs
    compare by their index, nothing provides anything. *)
Definition mk_pool (tbl : list cstring) (sols : list Solvable) (reps : list Repo)
    (inst : option Id) (cons : option (gset Z)) : Pool :=
  {| solvables := sols;
     repos := reps;
     installed := inst;
     considered := cons;
     pool_str2id := str_index tbl;
     pool_id2str := fun id => default [] (tbl !! Z.to_nat id);
     pool_evrcmp := fun a b => Z.sgn (a - b);
     pool_evrcmp_str := fun a b => Z.sgn (str_index tbl a - str_index tbl b);
     pool_rel2id := fun _ _ _ => 0;
     pool_queuetowhatprovides := fun q => default 0 (head q);
     whatprovides := fun _ => [];
     solvable_requires := fun _ => [];
     is_package := fun _ => true;
     str2archid := str_index tbl;
     selection_make := fun q _ _ => (0, []);
     selection_filter := fun q _ => q;
     dataiterator_glob := fun _ _ => [];
     solv_sort := isort;
     solver_solve := fun _ job => plain_solver job |}.

Definition mk_sack (p : Pool) : DnfSack :=
  {| pool := p; pkg_solvables := ∅; pool_nsolvables := 0;
     recompute_considered_map := fun _ _ => None;
     installonly := []; installonly_limit := 0; running_kernel := -1;
     allow_vendor_change := false |}.

(** Evaluators that select nothing. *)
Definition no_evaluators : Query.Evaluators :=
  let none : DnfSack -> gset Z -> Filter -> gset Z := fun _ _ _ => ∅ in
  {| Query.filterDepSolvable := none; Query.filterRcoReldep := none;
     Query.filterName := none; Query.filterEpoch := none; Query.filterEvr := none;
     Query.filterNevra := none; Query.filterVersion := none;
     Query.filterRelease := none; Query.filterArch := none;
     Query.filterSourcerpm := none; Query.filterObsoletes := none;
     Query.filterObsoletesByPriority := none; Query.filterProvidesReldep := none;
     Query.filterReponame := none; Query.filterLocation := none;
     Query.filterAdvisory := none; Query.filterUpdown := none;
     Query.filterUpdownByPriority := none; Query.filterUpdownAble := none;
     Query.filterDataiterator := none |}.

(** The strings of the examples: names, evrs and arches. *)
Definition strings : list cstring :=
  cstr <$> [""; ""; "kernel"; "1-1"; "2-1"; "x86_64"; "p"; "3-1"; "i686"; "noarch";
            "@System"; "fedora"]%string.

Definition system_repo : Repo :=
  {| repoid := 1; repo_name := cstr "@System"; priority := 0;
     repo_start := 1; repo_end := 3 |}.

Definition fedora_repo : Repo :=
  {| repoid := 2; repo_name := cstr "fedora"; priority := 0;
     repo_start := 3; repo_end := 5 |}.

(** Installed: [kernel-1-1.x86_64] (1) and [kernel-2-1.x86_64] (2);
    available: [kernel-2-1.x86_64] (3) and [p-1-1.x86_64] (4). *)
Definition kernel_pool : Pool :=
  mk_pool strings
    [ null_solvable;
      {| s_name := 2; s_arch := 5; s_evr := 3; s_repo := 1 |};
      {| s_name := 2; s_arch := 5; s_evr := 4; s_repo := 1 |};
      {| s_name := 2; s_arch := 5; s_evr := 4; s_repo := 2 |};
      {| s_name := 6; s_arch := 5; s_evr := 3; s_repo := 2 |} ]
    [system_repo; fedora_repo] (Some 1) None.

Definition kernel_sack : DnfSack := mk_sack kernel_pool.

(** The same sack with [p-1-1.x86_64] (4) excluded by a regular exclude:
    the pool's considered bitmap leaves it out, and so does the bitmap of
    every exclude mode that still applies regular excludes. *)
Definition excluded_sack : DnfSack :=
  {| pool := mk_pool strings (solvables kernel_pool) [system_repo; fedora_repo]
               (Some 1) (Some {[1; 2; 3]});
     pkg_solvables := ∅; pool_nsolvables := 0;
     recompute_considered_map := fun _ fl =>
       match fl with
       | IGNORE_EXCLUDES | IGNORE_REGULAR_EXCLUDES => None
       | _ => Some {[1; 2; 3]}
       end;
     installonly := []; installonly_limit := 0; running_kernel := -1;
     allow_vendor_change := false |}.

(** String helpers that know no glob and no reldep. *)
Definition no_helpers : Query.Helpers :=
  {| Query.hy_is_glob_pattern := fun _ => false;
     Query.Dependency_new := fun _ _ => None;
     Query.addReldepWithGlob := fun _ _ => (false, []);
     Query.addReldep := fun _ _ => [] |}.

End Ex.

(** ** What the latest-N filter is said to compute

    The definitions of [LatestSpec] follow the words of the specification
    (sort, group into blocks, keep the first [N] distinct evrs or skip the
    first [-N]); [LatestFacts] compares them with [filterLatest]. *)

Module LatestSpec.
Import Query.

(** Two solvables belong to the same block: same name and, for the
    per-arch keynames, same arch. *)
Definition same_block (kn : Keyname) (p : Pool) (a b : Id) : bool :=
  (s_name (pool_id2solvable p a) =? s_name (pool_id2solvable p b))
  && (negb (per_arch kn)
      || (s_arch (pool_id2solvable p a) =? s_arch (pool_id2solvable p b))).

(** For the by-priority keyname a block ends where the repo priority
    changes. *)
Definition same_prio (kn : Keyname) (p : Pool) (a b : Id) : bool :=
  negb (bool_decide (kn = HY_PKG_LATEST_PER_ARCH_BY_PRIORITY))
  || (solvable_priority p (pool_id2solvable p a)
      =? solvable_priority p (pool_id2solvable p b)).

(** The runs of consecutive members that are in the same block as the
    first member of their run. *)
Fixpoint runs_from (same : Id -> Id -> bool) (first : Id) (cur : list Id)
    (l : list Id) : list (list Id) :=
  match l with
  | [] => [cur]
  | x :: rest =>
      if same first x then runs_from same first (cur ++ [x]) rest
      else cur :: runs_from same x [x] rest
  end.

Definition runs (same : Id -> Id -> bool) (l : list Id) : list (list Id) :=
  match l with
  | [] => []
  | x :: rest => runs_from same x [x] rest
  end.

Fixpoint take_while {A} (f : A -> bool) (l : list A) : list A :=
  match l with
  | x :: rest => if f x then x :: take_while f rest else []
  | [] => []
  end.

(** The part of a run that is evaluated: all of it, or, by priority, its
    members up to the first change of priority. *)
Definition cut (kn : Keyname) (p : Pool) (b : list Id) : list Id :=
  match b with
  | [] => []
  | h :: _ => take_while (same_prio kn p h) b
  end.

(** The sorted queue of candidates. *)
Definition latest_queue (kn : Keyname) (p : Pool) (res : gset Z) : list Id :=
  if bool_decide (kn = HY_PKG_LATEST_PER_ARCH) then
    solv_sort p (filter_latest_sortcmp_byarch p) (pset_ids res)
  else if bool_decide (kn = HY_PKG_LATEST_PER_ARCH_BY_PRIORITY) then
    solv_sort p (filter_latest_sortcmp_byarch_bypriority p) (pset_ids res)
  else
    solv_sort p (filter_latest_sortcmp p) (pset_ids res).

(** The blocks that are evaluated. *)
Definition evaluated_blocks (kn : Keyname) (p : Pool) (q : list Id) : list (list Id) :=
  cut kn p <$> runs (same_block kn p) q.

(** Every member of a block with the number of evr changes met from the
    start of the block up to it: 0 for the first evr, 1 for the second. *)
Fixpoint evr_ranks (p : Pool) (prev : Id) (count : Z) (b : list Id) : list (Id * Z) :=
  match b with
  | [] => []
  | x :: rest =>
      let e := s_evr (pool_id2solvable p x) in
      let count := if prev =? e then count else count + 1 in
      (x, count) :: evr_ranks p e count rest
  end.





End LatestSpec.
(** ** Canonical NEVRA strings *)

Module NevraSpec.
Import Nevra.

(** Modelled from the spec: the canonical NEVRA string of a solvable is
    what libsolv's [pool_solvable2str] prints for it, [name-evr.arch]. *)
Definition pool_solvable2str (p : Pool) (s : Solvable) : cstring :=
  pool_id2str p (s_name s) ++ "-"%char :: pool_id2str p (s_evr s)
    ++ "."%char :: pool_id2str p (s_arch s).

(** No character of [s] is [c]. *)
Definition no_char (c : ascii) (s : cstring) : bool :=
  forallb (fun d => negb (is_char d c)) s.

Fixpoint skip_zeros (s : cstring) : cstring :=
  match s with
  | c :: rest => if is_char c "0" then skip_zeros rest else s
  | [] => []
  end.

(** The string starts with an epoch of zeros only: ["0:"], ["00:"]. *)
Definition zero_epoch (s : cstring) : bool :=
  is_char (hd "000"%char s) "0" && is_char (hd "000"%char (skip_zeros s)) ":".

(** The string before the first ['-'] and, when there is one, the string
    behind it. *)
Fixpoint split_dash (s : cstring) : cstring * option cstring :=
  match s with
  | [] => ([], None)
  | c :: rest =>
      if is_char c "-" then ([], Some rest)
      else let '(v, r) := split_dash rest in (c :: v, r)
  end.

Definition nonempty (s : cstring) : bool :=
  match s with [] => false | _ => true end.

(** The strings of a solvable are interned under its ids, the ids are not
    0, name and arch are not empty, the arch has no ['-'] and no ['.'], the
    evr is [version-release] with both parts not empty and without a
    further ['-'], and it does not start with an epoch of zeros. *)
Definition wf_nevra (p : Pool) (s : Solvable) : bool :=
  let N := pool_id2str p (s_name s) in
  let E := pool_id2str p (s_evr s) in
  let A := pool_id2str p (s_arch s) in
  negb (s_name s =? 0) && negb (s_evr s =? 0) && negb (s_arch s =? 0)
  && (pool_str2id p N =? s_name s) && (pool_str2id p E =? s_evr s)
  && (pool_str2id p A =? s_arch s)
  && nonempty N && nonempty A && no_char "-" A && no_char "." A
  && match split_dash E with
     | (V, Some R) => nonempty V && nonempty R && no_char "-" R
     | (_, None) => false
     end
  && negb (zero_epoch E).

(** The ids that [NEVRA_STRICT] compares. *)
Definition nevra_ids (p : Pool) (id : Id) : Id * Id * Id :=
  let s := pool_id2solvable p id in (s_name s, s_arch s, s_evr s).

End NevraSpec.
(** ** Properties and inputs of the statements below *)

Module GoalProps.
Import Goal Calls.

(** The state that [allowUninstallAllButProtected] leaves. *)
Definition with_protected (g : Impl) : Impl :=
  match protectedPkgs g with
  | None => set_protectedPkgs (Some ∅) g
  | Some _ => g
  end.

(** [removalOfProtected && removalOfProtected->size()]. *)
Definition removal_nonempty (g : Impl) : bool :=
  match removalOfProtected g with
  | Some r => negb (pset_size r =? 0)
  | None => false
  end.

(** [any_req_filter] of [sltrToJob]: a name, provides, file or package
    filter is there. *)
Definition has_required (sltr : Selector) : bool :=
  bool_decide (is_Some (getFilterName sltr))
  || bool_decide (is_Some (getFilterProvides sltr))
  || bool_decide (is_Some (getFilterFile sltr)) || negb (getPkgs sltr =? 0).

(** [any_opt_filter] of [sltrToJob]: an arch, evr or reponame filter is
    there. *)
Definition has_optional (sltr : Selector) : bool :=
  bool_decide (is_Some (getFilterArch sltr)) || bool_decide (is_Some (getFilterEvr sltr))
  || bool_decide (is_Some (getFilterReponame sltr)).

(** A selector with an arch filter only. *)
Definition arch_only : Selector :=
  {| getFilterArch :=
       Some {| cmpType := HY_EQ; keyname := HY_PKG_ARCH; matchType := _HY_STR;
               matches := [MatchStr (cstr "x86_64")] |};
     getFilterEvr := None; getFilterFile := None; getFilterName := None;
     getPkgs := 0; getFilterProvides := None; getFilterReponame := None |}.


(** The calls that protect [kernel-1-1] (1) and stage its erasure. *)
Definition protected_erase : list Call :=
  [CSetProtected {[1]}; CErasePkg 1 0].

(** The goal after these calls, on the kernel sack. *)
Definition protected_goal : Impl :=
  exec_all Ex.no_evaluators protected_erase (new Ex.kernel_sack false).

(** [run(DNF_NONE)] on that goal: the answer and the goal it leaves. *)
Definition protected_run : outcome bool * Impl := run DNF_NONE protected_goal.

End GoalProps.

Module QueryProps.
Import Nevra NevraSpec Query QueryOps.

(** The bitmap that [initResult] intersects the package solvables with,
    for the exclude mode of the query. *)
Definition mode_considered (sk : DnfSack) (cached : option (gset Z)) (fl : ExcludeFlags)
  : option (gset Z) :=
  if bool_decide (fl = APPLY_EXCLUDES) then considered (pool sk)
  else recompute_considered_map sk cached fl.

(** The [pkg_solvables] cache of a sack is either unset, stale or right. *)
Definition cache_ok (sk : DnfSack) : Prop :=
  pool_nsolvables sk <> 0 -> pool_nsolvables sk = nsolvables (pool sk) ->
  pkg_solvables sk = list_to_set (for_pkg_solvables (pool sk)).

(** [map_and] with a bitmap that may be absent. *)
Definition restrict (r : gset Z) (c : option (gset Z)) : gset Z :=
  match c with
  | Some c => r ∩ c
  | None => r
  end.

(** A query that is marked applied has no pending filter: what the
    constructor, [addFilter] and [apply] keep true. *)
Definition applied_clean (st : State) : Prop :=
  applied (impl st) = true -> filters (impl st) = [].

(** A new query on the kernel sack. *)
Definition kernel_query : State := fresh Ex.kernel_sack APPLY_EXCLUDES.

(** C3 as the claim states it: the result of every query avoids what the
    pool's considered bitmap excludes. *)
Definition claim_no_excluded (h : Helpers) (ev : Evaluators) (sk : DnfSack)
    (fl : ExcludeFlags) (adds : list AddFilter) : Prop :=
  fst (apply ev (addFilters h ev adds (fresh sk fl))) = Returns tt ->
  exists r, result (impl (snd (apply ev (addFilters h ev adds (fresh sk fl))))) = Some r
    /\ r ⊆ list_to_set (for_pkg_solvables (pool sk))
    /\ (forall c, considered (pool sk) = Some c -> r ⊆ c)
    /\ filters (impl (snd (apply ev (addFilters h ev adds (fresh sk fl))))) = [].

(** The canonical string of solvable [id] of the kernel pool. *)
Definition kernel_nevra (id : Id) : cstring :=
  pool_solvable2str Ex.kernel_pool (pool_id2solvable Ex.kernel_pool id).

(** C7 as the claim states it: the filter made from the canonical string
    of a member of the result leaves that member alone. *)
Definition nevra_strict_selects_one (h : Helpers) (ev : Evaluators) (st : State)
    (id : Id) : Prop :=
  let p := pool (sack st) in
  forall r,
    fst (apply ev st) = Returns tt ->
    result (impl (snd (apply ev st))) = Some r ->
    id ∈ r ->
    result (impl (snd (addFilter_str h ev HY_PKG_NEVRA_STRICT HY_EQ
                         (Some (pool_solvable2str p (pool_id2solvable p id))) st)))
    = Some {[id]}.

(** All four solvables of the kernel pool. *)
Definition all_four : gset Z := {[1; 2; 3; 4]}.

End QueryProps.

(** ** Further properties and inputs *)

Module GoalProps2.
Import Goal Calls.

(** A queue that holds whole pairs. *)
Definition pairs (q : Queue) : Prop := Nat.even (length q) = true.

(** A selector with a name to match by [HY_EQ] and, optionally, an arch. *)
Definition name_arch_selector (n : cstring) (ar : option cstring) : Selector :=
  {| getFilterArch :=
       (fun a => {| cmpType := HY_EQ; keyname := HY_PKG_ARCH; matchType := _HY_STR;
                    matches := [MatchStr a] |}) <$> ar;
     getFilterEvr := None; getFilterFile := None;
     getFilterName :=
       Some {| cmpType := HY_EQ; keyname := HY_PKG_NAME; matchType := _HY_STR;
               matches := [MatchStr n] |};
     getPkgs := 0; getFilterProvides := None; getFilterReponame := None |}.

(** The type that [listResults] reads for a step: obsoleted packages are
    asked for in the common mode, every other type with
    [SHOW_ACTIVE | SHOW_ALL] added. *)
Definition step_type (t : Transaction) (type_filter1 : Id) (p : Id) : Id :=
  if type_filter1 =? SOLVER_TRANSACTION_OBSOLETED
  then transaction_type t p
         (Z.lor SOLVER_TRANSACTION_SHOW_OBSOLETES SOLVER_TRANSACTION_CHANGE_IS_REINSTALL)
  else transaction_type t p
         (Z.lor (Z.lor (Z.lor SOLVER_TRANSACTION_SHOW_OBSOLETES
                          SOLVER_TRANSACTION_CHANGE_IS_REINSTALL)
                   SOLVER_TRANSACTION_SHOW_ACTIVE)
            SOLVER_TRANSACTION_SHOW_ALL).

(** A name filter that holds two names. *)
Definition two_names : Filter :=
  {| cmpType := HY_EQ; keyname := HY_PKG_NAME; matchType := _HY_STR;
     matches := [MatchStr (cstr "kernel"); MatchStr (cstr "p")] |}.

Definition two_names_selector : Selector :=
  {| getFilterArch := None; getFilterEvr := None; getFilterFile := None;
     getFilterName := Some two_names; getPkgs := 0; getFilterProvides := None;
     getFilterReponame := None |}.

(** The goal that protects [kernel-1-1] (1) and erases the installed
    [kernel-2-1] (2). *)
Definition unprotected_erase : Impl :=
  exec_all Ex.no_evaluators [CSetProtected {[1]}; CErasePkg 2 0]
    (new Ex.kernel_sack false).

(** A goal with a transaction that erases 1 and installs 3. *)
Definition swap_transaction : Transaction :=
  {| steps := [1; 3];
     transaction_type := fun p _ =>
       if p =? 1 then SOLVER_TRANSACTION_ERASE else SOLVER_TRANSACTION_INSTALL |}.

Definition swap_goal : Impl :=
  set_trans (Some swap_transaction) (new Ex.kernel_sack false).

(** A computation that only appends whole pairs to the staging queue,
    whether it returns or throws. *)
Definition appends {A} (m : GM A) : Prop :=
  forall g, exists added, staging (snd (m g)) = staging g ++ added /\ pairs added.

(** The goal without its solver and its transaction. *)
Definition forget (g : Impl) : Impl := set_solv None (set_trans None g).

(** Every line of [e] is a line of [e'], and both have as many lines. *)
Definition covers (e' e : list string) : Prop :=
  length e = length e' /\ forall line, line ∈ e -> line ∈ e'.

End GoalProps2.

Module QueryProps2.
Import Nevra NevraSpec Query QueryOps QueryProps.

(** Does a parsed pattern match a solvable: by its three ids when the evr
    was interned, by name and arch ids and the comparison of the evr
    strings otherwise. *)
Definition nevra_match (p : Pool) (cmpType : Z) (createEVRId : bool)
    (n : NevraID) (s : Solvable) : bool :=
  if createEVRId then same_nevra n s
  else (Nevra.name n =? s_name s) && (Nevra.arch n =? s_arch s)
       && cmp_matches (pool_evrcmp_str p (pool_id2str p (s_evr s)) (Nevra.evr_str n))
            cmpType.

Definition evr_match (p : Pool) (cmpType : Z) (s : Solvable) (n : NevraID) : bool :=
  nevra_match p cmpType false n s.

(** The patterns of a [const char **] that parse. *)
Definition parsed (p : Pool) (createEVRId : bool) (ms : list (option cstring))
  : list NevraID :=
  omap (fun m => parse p m createEVRId) (strv ms).

(** What [parse] is to make of a pattern whose parts are known: the ids
    of the name and the arch, the id of [version-release] when the evr is
    interned and the string itself when it is not; nothing when a part is
    empty or the pool does not know a string. *)
Definition parse_parts (p : Pool) (N V R A : cstring) (createEVRId : bool)
  : option NevraID :=
  if nonempty N && nonempty V && nonempty R && nonempty A then
    if pool_str2id p N =? 0 then None
    else if createEVRId && (pool_str2id p (V ++ "-"%char :: R) =? 0) then None
    else if pool_str2id p A =? 0 then None
    else Some {| Nevra.name := pool_str2id p N;
                 Nevra.arch := pool_str2id p A;
                 Nevra.evr := if createEVRId then pool_str2id p (V ++ "-"%char :: R) else 0;
                 Nevra.evr_str := if createEVRId then [] else V ++ "-"%char :: R |}
  else None.

(** The query with the filter list [fs], marked as not applied: what an
    [addFilter] call that accepts its filter leaves. *)
Definition reopen (fs : list Filter) (st : State) : State :=
  {| sack := sack st; impl := set_filters fs (set_applied false (impl st)) |}.

(** The solvables of the installed repo that are in [r] have their ids in
    the id range of the repo, as libsolv keeps them. *)
Definition installed_in_range (p : Pool) (rid : Id) (r : gset Z) : Prop :=
  forall x, x ∈ r -> s_repo (pool_id2solvable p x) = repoid (repo_of p rid) ->
            repo_start (repo_of p rid) <= x < repo_end (repo_of p rid).

(** A list in the order that [std::sort] with [comp] leaves: no element
    is below one that stands before it. *)
Definition sorted_by {A} (comp : A -> A -> bool) : list A -> Prop :=
  StronglySorted (fun a b => Is_true (negb (comp b a))).

(** Two installed packages of one name count as duplicates of each other
    unless they have the same evr and different archs. *)
Definition dup_of (p : Pool) (x y : Id) : bool :=
  negb ((s_evr (pool_id2solvable p x) =? s_evr (pool_id2solvable p y))
        && negb (s_arch (pool_id2solvable p x) =? s_arch (pool_id2solvable p y))).

(** [solv_sort] with the comparison [cmp] sorts: it permutes its input and
    leaves no element before one that compares lower. *)
Definition sorts (p : Pool) (cmp : Id -> Id -> Z) : Prop :=
  forall l, solv_sort p cmp l ≡ₚ l
            /\ StronglySorted (fun a b => cmp a b <= 0) (solv_sort p cmp l).

(** The kernel query after [apply]: all four packages. *)
Definition applied_kernel_query : State := snd (apply Ex.no_evaluators kernel_query).

(** The canonical strings of the packages 2 and 4 as a [const char **]. *)
Definition two_patterns : list (option cstring) :=
  [Some (kernel_nevra 2); Some (kernel_nevra 4); None].

(** The applied kernel query with one more filter, not yet applied. *)
Definition narrowed_kernel_query : State :=
  snd (addFilter_pset HY_PKG HY_EQ {[2; 4; 9]} applied_kernel_query).


End QueryProps2.
(** ** The [next] idiom on a package set *)

Module PsetFacts.

(** The ids that [id = start; while ((id = pset->next(id)) != -1) ...]
    visits, at most [fuel] of them. *)
Fixpoint next_walk (fuel : nat) (s : gset Z) (id : Id) : list Id :=
  match fuel with
  | O => []
  | S fuel' =>
      let id' := pset_next s id in
      if id' =? -1 then [] else id' :: next_walk fuel' s id'
  end.

Lemma filter_all (f : Z -> bool) l : Forall (fun x => f x = true) l -> List.filter f l = l.
Proof. induction 1 as [|x l Hx _ IH]; cbn; [done|]. by rewrite Hx, IH. Qed.

Lemma filter_none (f : Z -> bool) l : Forall (fun x => f x = false) l -> List.filter f l = [].
Proof. induction 1 as [|x l Hx _ IH]; cbn; [done|]. by rewrite Hx. Qed.

Lemma pset_ids_sorted (s : gset Z) : StronglySorted Z.le (pset_ids s).
Proof. apply (StronglySorted_merge_sort Z.le). Qed.

Lemma pset_ids_NoDup (s : gset Z) : NoDup (pset_ids s).
Proof. unfold pset_ids. rewrite merge_sort_Permutation. apply NoDup_elements. Qed.

(** Behind a member, [next] finds what follows it in increasing order. *)
Lemma filter_after pre x suf :
  StronglySorted Z.le (pre ++ x :: suf) -> NoDup (pre ++ x :: suf) ->
  List.filter (fun y => x <? y) (pre ++ x :: suf) = suf.
Proof.
  intros Hs Hn. rewrite List.filter_app. cbn [List.filter]. rewrite Z.ltb_irrefl.
  rewrite filter_none, filter_all; [done| |].
  - apply StronglySorted_app_1_r, StronglySorted_cons in Hs as [Hle _].
    apply NoDup_app in Hn as (_ & _ & Hn). apply NoDup_cons in Hn as [Hx _].
    apply Forall_forall. intros y Hy. apply Z.ltb_lt.
    assert (x <= y) by (by eapply Forall_forall in Hle).
    assert (x <> y) by (intros ->; done). lia.
  - apply Forall_forall. intros y Hy. apply Z.ltb_ge.
    apply (StronglySorted_app_1_elem_of Z.le pre (x :: suf) y x Hs Hy).
    apply elem_of_cons. by left.
Qed.

Lemma next_walk_suffix (s : gset Z) fuel id suf :
  (forall x, x ∈ s -> 0 <= x) ->
  List.filter (fun y => id <? y) (pset_ids s) = suf ->
  (exists pre, pset_ids s = pre ++ suf) ->
  (length suf <= fuel)%nat ->
  next_walk fuel s id = suf.
Proof.
  intros Hpos. revert id suf. induction fuel as [|fuel IH]; intros id suf Hf Hpre Hl.
  - destruct suf; [done|cbn in Hl; lia].
  - cbn [next_walk]. unfold pset_next. rewrite Hf.
    destruct suf as [|x suf]; [done|].
    change (default (-1) (head (x :: suf))) with x. cbv zeta.
    destruct Hpre as [pre Hpre].
    assert (Hx : 0 <= x).
    { apply Hpos. apply elem_of_elements.
      rewrite <- (merge_sort_Permutation Z.le). fold (pset_ids s). rewrite Hpre.
      apply elem_of_app. right. apply elem_of_cons. by left. }
    assert (Hne : (x =? -1) = false) by (apply Z.eqb_neq; lia). rewrite Hne.
    f_equal. apply IH.
    + rewrite Hpre. apply filter_after; rewrite <- Hpre;
        [apply pset_ids_sorted | apply pset_ids_NoDup].
    + exists (pre ++ [x]). by rewrite <- app_assoc.
    + cbn in Hl. lia.
Qed.

(** From [-1] the idiom visits the members in increasing order, all of
    them when the ids are not negative (as the positions of a bitmap
    are). *)
Lemma next_walk_pset_ids (s : gset Z) fuel :
  (forall x, x ∈ s -> 0 <= x) ->
  (size s <= fuel)%nat ->
  next_walk fuel s (-1) = pset_ids s.
Proof.
  intros Hpos Hf. apply next_walk_suffix; [done| | |].
  - apply filter_all, Forall_forall. intros x Hx. apply Z.ltb_lt.
    assert (0 <= x); [|lia]. apply Hpos, elem_of_elements.
    rewrite <- (merge_sort_Permutation Z.le). exact Hx.
  - by exists [].
  - unfold pset_ids. rewrite merge_sort_Permutation. exact Hf.
Qed.

End PsetFacts.

(** * Theorems *)

(** ** Goal *)

Module GoalFacts.
Import Goal Calls GoalProps.

(** A computation that leaves one field of the goal alone. *)
Definition keeps {A B} (proj : Impl -> B) (m : GM A) : Prop :=
  forall g, proj (snd (m g)) = proj g.

Lemma keeps_ret {A B} (proj : Impl -> B) (a : A) : keeps proj (mret a).
Proof. intros g. reflexivity. Qed.

Lemma keeps_bind {A A' B} (proj : Impl -> B) (m : GM A) (k : A -> GM A') :
  keeps proj m -> (forall a, keeps proj (k a)) -> keeps proj (m ≫= k).
Proof.
  intros Hm Hk g. unfold mbind, SE_bind. specialize (Hm g).
  destruct (m g) as [[a|e] g1]; simpl in *; [rewrite Hk|]; done.
Qed.

Lemma keeps_get {B} (proj : Impl -> B) : keeps proj (@get Impl).
Proof. intros g. reflexivity. Qed.

Lemma keeps_lift {A B} (proj : Impl -> B) (x : outcome A) : keeps proj (lift x).
Proof. intros g. reflexivity. Qed.

Lemma keeps_throw {A B} (proj : Impl -> B) e : keeps proj (@throw Impl A e).
Proof. intros g. reflexivity. Qed.

Lemma keeps_modify {B} (proj : Impl -> B) (f : Impl -> Impl) :
  (forall g, proj (f g) = proj g) -> keeps proj (modify f).
Proof. intros H g. apply H. Qed.

Lemma keeps_stage_selector {B} (proj : Impl -> B) s a :
  (forall q g, proj (set_staging q g) = proj g) -> keeps proj (stage_selector s a).
Proof. intros H g. unfold stage_selector. destruct (sltrToJob _ _ _ _); simpl; auto. Qed.

Lemma keeps_with_query {A B} (proj : Impl -> B) (c : Query.QM A) :
  (forall q g, proj (set_sack q g) = proj g) -> keeps proj (with_query c).
Proof. intros H g. unfold with_query. destruct (c _); simpl; auto. Qed.

Ltac keeps :=
  repeat match goal with
    | |- keeps _ (mret _) => apply keeps_ret
    | |- keeps _ get => apply keeps_get
    | |- keeps _ (lift _) => apply keeps_lift
    | |- keeps _ (throw _) => apply keeps_throw
    | |- keeps _ (_ ≫= _) => apply keeps_bind; [| intros ? ]
    | |- keeps _ (modify _) => apply keeps_modify; intros ?; try reflexivity
    | |- keeps _ (stage_selector _ _) => apply keeps_stage_selector; reflexivity
    | |- keeps _ (with_query _) => apply keeps_with_query; reflexivity
    | |- keeps _ (if ?b then _ else _) => destruct b
    | |- keeps _ (match ?x with _ => _ end) => destruct x
    end.

Lemma keeps_allowUninstall job flags :
  keeps actions (allowUninstallAllButProtected job flags).
Proof. unfold allowUninstallAllButProtected. keeps. by destruct (protectedPkgs _). Qed.

Lemma keeps_constructJob flags : keeps actions (constructJob flags).
Proof. unfold constructJob. keeps. apply keeps_allowUninstall. Qed.

Lemma keeps_protectedInRemovals : keeps actions protectedInRemovals.
Proof. unfold protectedInRemovals. keeps. Qed.

Lemma keeps_solve job flags : keeps actions (solve job flags).
Proof.
  unfold solve. keeps; try apply keeps_allowUninstall; try apply keeps_protectedInRemovals.
Qed.

(** The intents write neither the solver nor the transaction. *)
Lemma intent_keeps {B} (proj : Impl -> B) ev c :
  is_intent c = true ->
  (forall x g, proj (set_actions x g) = proj g) ->
  (forall x g, proj (set_staging x g) = proj g) ->
  (forall x g, proj (set_sack x g) = proj g) ->
  (forall x g, proj (set_exclude_from_weak x g) = proj g) ->
  (forall x g, proj (set_protectedPkgs x g) = proj g) ->
  (forall x g, proj (set_protect_running_kernel_field x g) = proj g) ->
  keeps proj (exec ev c).
Proof.
  intros Hi H1 H2 H3 H4 H5 H6.
  destruct c; try discriminate; cbn [exec];
    unfold distupgrade_all, distupgrade_pkg, distupgrade_sltr, erase_pkg, erase_sltr,
      install_pkg, install_sltr, upgrade_all, upgrade_pkg, upgrade_sltr,
      lock, favor, disfavor, userInstalled_pkg, userInstalled_pset,
      add_exclude_from_weak_pset, add_exclude_from_weak_pkg,
      reset_exclude_from_weak, addProtected, setProtected,
      set_protect_running_kernel, stage_push2, stage_package, or_actions;
    repeat match goal with
      | |- keeps _ (mret _) => apply keeps_ret
      | |- keeps _ get => apply keeps_get
      | |- keeps _ (_ ≫= _) => apply keeps_bind; [| intros ? ]
      | |- keeps _ (modify _) => apply keeps_modify; intros ?; auto
      | |- keeps _ (stage_selector _ _) => apply keeps_stage_selector; auto
      | |- keeps _ (with_query _) => apply keeps_with_query; auto
      | |- keeps _ (if ?b then _ else _) => destruct b
      end.
  destruct (protectedPkgs _); auto.
Qed.

Lemma allowUninstall_returns job flags g :
  exists job', allowUninstallAllButProtected job flags g = (Returns job', with_protected g).
Proof.
  unfold allowUninstallAllButProtected, mbind, SE_bind, modify, get. simpl.
  fold (with_protected g).
  destruct (has_bit DNF_ALLOW_UNINSTALL flags); eexists; reflexivity.
Qed.

Lemma constructJob_returns flags g :
  exists job, constructJob flags g = (Returns job, with_protected g).
Proof.
  unfold constructJob, mbind, SE_bind, get. simpl.
  match goal with |- context [allowUninstallAllButProtected ?j flags g] =>
    destruct (allowUninstall_returns j flags g) as [job' ->] end.
  eexists; reflexivity.
Qed.





(** *** The loop of [limitInstallonlyPackages] ends *)

Lemma pop_same_name_length p name rin out :
  (length (snd (pop_same_name p name rin out)) <= length rin)%nat.
Proof.
  revert out. induction rin as [|x rin IH]; intros out; cbn [pop_same_name]; [done|].
  destruct (_ =? name); [|done]. specialize (IH (out ++ [x])). cbn [length]. lia.
Qed.

Lemma same_name_subqueue_length p x rin :
  (length (snd (same_name_subqueue p (x :: rin))) < length (x :: rin))%nat.
Proof.
  cbn [same_name_subqueue length].
  pose proof (pop_same_name_length p (s_name (pool_id2solvable p x)) rin [x]). lia.
Qed.

(** Every round pops at least one id: any fuel from the length of the
    queue on gives the same answer. *)
Lemma limit_runs_fuel p limit f1 f2 rq reresolve job :
  (length rq <= f1)%nat -> (length rq <= f2)%nat ->
  limit_runs p limit f1 rq reresolve job = limit_runs p limit f2 rq reresolve job.
Proof.
  revert f2 rq reresolve job.
  induction f1 as [|f1 IH]; intros f2 rq reresolve job H1 H2.
  - destruct rq; [|cbn in H1; lia]. by destruct f2.
  - destruct f2 as [|f2].
    + destruct rq; [done|cbn in H2; lia].
    + destruct rq as [|x rq]; [done|]. cbn [limit_runs].
      pose proof (same_name_subqueue_length p x rq) as Hl.
      destruct (same_name_subqueue p (x :: rq)) as [same_names rq'].
      cbn [snd length] in *.
      destruct (_ <=? limit); apply IH; lia.
Qed.

End GoalFacts.

Module GoalFacts2.
Import Goal Calls GoalProps GoalFacts.

Lemma pset_size_0 (s : gset Z) : (pset_size s =? 0) = bool_decide (s = ∅).
Proof.
  unfold pset_size. destruct (decide (s = ∅)) as [->|H].
  - rewrite size_empty. by rewrite bool_decide_eq_true_2.
  - rewrite bool_decide_eq_false_2 by done. apply Z.eqb_neq.
    intros Hs. apply H. apply leibniz_equiv, size_empty_inv. lia.
Qed.

(** What [protectedInRemovals] does once a transaction and a protected set
    exist. *)
Lemma protectedInRemovals_cases g t prot :
  trans g = Some t -> protectedPkgs g = Some prot ->
  exists b g', protectedInRemovals g = (Returns b, g') /\
    solv g' = solv g /\ trans g' = Some t /\
    ((b = false /\ removalOfProtected g' = removalOfProtected g) \/
     (b = removal_nonempty g')).
Proof.
  intros Ht Hp. unfold protectedInRemovals, mbind, SE_bind, get, lift, modify.
  cbn beta iota. rewrite !Hp.
  destruct (_ && _).
  - eexists _, _. split; [reflexivity|]. repeat split; try done. by left.
  - unfold listResults. rewrite Ht. cbn beta iota.
    eexists _, _. split; [reflexivity|]. cbn. repeat split; try done.
    right. unfold removal_nonempty. cbn. by rewrite pset_size_0.
Qed.

Lemma solve_cases job flags g prot :
  protectedPkgs g = Some prot ->
  exists b g' s, solve job flags g = (Returns b, g') /\ solv g' = Some s /\
    ((b = true /\ trans g' = None /\ removalOfProtected g' = removalOfProtected g
      /\ solver_problem_count s <> 0) \/
     (is_Some (trans g') /\ solver_problem_count s = 0 /\
      ((b = false /\ removalOfProtected g' = removalOfProtected g) \/
       b = removal_nonempty g'))).
Proof.
  intros Hp. unfold solve, mbind, SE_bind, modify, get, mret, SE_ret. cbn beta iota.
  destruct (solver_problem_count _ =? 0) eqn:Hc1; cbn [negb andb]; cbn beta iota.
  2:{ eexists true, _, _. split; [reflexivity|]. split; [reflexivity|]. left.
      apply Z.eqb_neq in Hc1. done. }
  destruct (limitInstallonlyPackages _ _ _) as [[] job2]; cbn [negb andb]; cbn beta iota.
  - match goal with
    | |- context [allowUninstallAllButProtected ?j ?f ?st] =>
        destruct (allowUninstall_returns j f st) as [job3 Hj]; rewrite Hj;
        assert (Hwp : with_protected st = st)
          by (unfold with_protected; cbn; by rewrite Hp);
        rewrite Hwp; clear Hj Hwp
    end.
    cbn [negb andb]; cbn beta iota.
    match goal with
    | |- context [solver_problem_count ?s =? 0] =>
        destruct (solver_problem_count s =? 0) eqn:Hc2
    end; cbn [negb andb]; cbn beta iota.
    2:{ eexists true, _, _. split; [reflexivity|]. split; [reflexivity|]. left.
        apply Z.eqb_neq in Hc2. done. }
    match goal with
    | |- context [protectedInRemovals ?st] =>
        destruct (protectedInRemovals_cases st
                    (solver_create_transaction (solver_solve (pool (sack g))
                       (solver_flags (set_trans None g) flags) job3)) prot)
          as (b & g' & Hr & Hs & Ht & Hcase); [done|done|]; rewrite Hr
    end.
    eexists b, g', _. split; [reflexivity|].
    split; [rewrite Hs; reflexivity|]. right. split; [by rewrite Ht|].
    split; [by apply Z.eqb_eq|]. done.
  - match goal with
    | |- context [protectedInRemovals ?st] =>
        destruct (protectedInRemovals_cases st
                    (solver_create_transaction (solver_solve (pool (sack g))
                       (solver_flags (set_trans None g) flags)
                       (if has_bit DNF_IGNORE_WEAK flags
                        then map_job_flags (fun a => Z.land a (Z.lnot SOLVER_WEAK)) job
                        else job))) prot)
          as (b & g' & Hr & Hs & Ht & Hcase); [done|done|]; rewrite Hr
    end.
    eexists b, g', _. split; [reflexivity|].
    split; [rewrite Hs; reflexivity|]. right. split; [by rewrite Ht|].
    split; [by apply Z.eqb_eq|]. done.
Qed.

Lemma with_protected_some g : exists prot, protectedPkgs (with_protected g) = Some prot.
Proof. unfold with_protected. destruct (protectedPkgs g) eqn:H; simpl; eauto. Qed.

Lemma run_cases flags g :
  exists b g' s, run flags g = (Returns b, g') /\ solv g' = Some s /\
    ((b = true /\ trans g' = None /\ removalOfProtected g' = removalOfProtected g
      /\ solver_problem_count s <> 0) \/
     (is_Some (trans g') /\ solver_problem_count s = 0 /\
      ((b = false /\ removalOfProtected g' = removalOfProtected g) \/
       b = removal_nonempty g'))).
Proof.
  unfold run. destruct (constructJob_returns flags g) as [job Hjob].
  unfold mbind at 1, SE_bind at 1. rewrite Hjob.
  unfold mbind at 1, SE_bind at 1. unfold or_actions, modify.
  set (g1 := set_actions _ _).
  destruct (with_protected_some g) as [prot Hp].
  destruct (solve_cases job flags g1 prot) as (b & g' & s & Hs & Hrest); [done|].
  rewrite Hs. exists b, g', s. split; [reflexivity|].
  assert (removalOfProtected g1 = removalOfProtected g) as <-.
  { unfold g1, with_protected. by destruct (protectedPkgs g). }
  done.
Qed.

(** C2: [run] always returns and leaves a solver, and [countProblems] on
    the goal it leaves answers the problem count of that solver plus one
    when the removal-of-protected set is there and not empty, plus zero
    otherwise. *)
Theorem countProblems_after_run (flags : Z) (g : Impl) :
  exists b g' s,
    run flags g = (Returns b, g') /\ solv g' = Some s /\
    countProblems g' =
      Returns (solver_problem_count s + (if removal_nonempty g' then 1 else 0)).
Proof.
  destruct (run_cases flags g) as (b & g' & s & Hr & Hs & _).
  exists b, g', s. split; [done|]. split; [done|].
  unfold countProblems, removal_nonempty. rewrite Hs. f_equal. f_equal.
  destruct (removalOfProtected g') as [r|]; [|done].
  rewrite pset_size_0. unfold pset_size.
  destruct (decide (r = ∅)) as [->|H].
  - by rewrite bool_decide_eq_true_2.
  - rewrite bool_decide_eq_false_2 by done. simpl.
    assert (size r <> 0%nat) by (intros Hz; by apply size_empty_inv, leibniz_equiv in Hz). lia.
Qed.

(** C1, the part on a failure without protected removals. *)
Lemma list_after_unsolvable_run flags g g' t1 t2 :
  run flags g = (Returns true, g') ->
  removal_nonempty g' = false ->
  listResults g' t1 t2 = Throws (GoalError "no solution possible" DNF_ERROR_NO_SOLUTION).
Proof.
  intros Hr Hn. destruct (run_cases flags g) as (b & g'' & s & Hr' & Hs & Hc).
  rewrite Hr in Hr'. injection Hr' as <- <-.
  destruct Hc as [(_ & Ht & _)|(_ & _ & [[? _]|Hb])]; [|done|congruence].
  unfold listResults. rewrite Ht, Hs. unfold removal_nonempty in Hn. by rewrite Hn.
Qed.

(** C1, the part on a goal that was never run: intents do not create a solver. *)
Lemma list_before_run ev sk prk calls t1 t2 :
  forallb is_intent calls = true ->
  listResults (exec_all ev calls (new sk prk)) t1 t2 =
    Throws (GoalError "no solv in the goal" DNF_ERROR_INTERNAL_ERROR).
Proof.
  intros Hi.
  assert (H : solv (exec_all ev calls (new sk prk)) = None
            /\ trans (exec_all ev calls (new sk prk)) = None).
  { generalize (new sk prk) (eq_refl : solv (new sk prk) = None)
      (eq_refl : trans (new sk prk) = None).
    induction calls as [|c calls IH]; intros g Hs Ht; [done|].
    simpl in Hi. apply andb_true_iff in Hi as [Hc Hi]. simpl. apply IH; [done| |].
    - rewrite (intent_keeps solv ev c Hc); done.
    - rewrite (intent_keeps trans ev c Hc); done. }
  destruct H as [Hs Ht]. unfold listResults. by rewrite Ht, Hs.
Qed.

End GoalFacts2.

Module GoalExamples.
Import Goal Calls GoalProps GoalFacts GoalFacts2.

(** C1, at the failing input: on the kernel sack, protect package 1, stage
    its erasure and run.  [run] answers failure and the removal-of-protected
    set is not empty, so the cause is the protected package; yet the result
    lists do not throw [REMOVAL_OF_PROTECTED_PKG]: [solve] has stored the
    transaction before it looked for protected removals, and [listResults]
    answers from it. *)
Lemma protected_run_fails :
  fst protected_run = Returns true
  /\ removal_nonempty (snd protected_run) = true
  /\ countProblems (snd protected_run) = Returns 1
  /\ listErasures (snd protected_run) = Returns {[1]}
  /\ listInstalls (snd protected_run) = Returns ∅.
Proof. repeat split; vm_compute; reflexivity. Qed.

End GoalExamples.
(** ** Selectors without a required filter; actions after [run] *)

Module SelectorFacts.
Import Goal Calls GoalProps GoalFacts.

(** C8: a selector without a name, provides, file or package filter leaves
    the job queue as it was when it has no arch, evr or reponame filter
    either, and otherwise makes [sltrToJob] throw a [Goal::Error] with the
    code [DNF_ERROR_BAD_SELECTOR]. *)
Theorem sltrToJob_without_required (p : Pool) (sltr : Selector) (job : Queue) (a : Z) :
  has_required sltr = false ->
  sltrToJob p sltr job a =
    if has_optional sltr
    then Throws (GoalError bad_selector_message DNF_ERROR_BAD_SELECTOR)
    else Returns job.
Proof.
  intros H. unfold sltrToJob. fold (has_required sltr). fold (has_optional sltr).
  rewrite H. simpl. reflexivity.
Qed.

(** A selector with an arch filter only is refused. *)
Lemma sltrToJob_without_required_witness :
  sltrToJob Ex.kernel_pool arch_only [SOLVER_INSTALL; 4] SOLVER_INSTALL =
    Throws (GoalError bad_selector_message DNF_ERROR_BAD_SELECTOR).
Proof.
  apply (sltrToJob_without_required Ex.kernel_pool arch_only [SOLVER_INSTALL; 4]
           SOLVER_INSTALL).
  reflexivity.
Defined.


End SelectorFacts.

(** ** Query *)

Module QueryFacts.
Import Query QueryProps.

(** *** The filter loop only shrinks the result *)

Lemma apply_filters_shrinks ev fs st r :
  result (impl st) = Some r ->
  match apply_filters ev fs st with
  | (Returns _, st') =>
      exists r', result (impl st') = Some r' /\ r' ⊆ r
      /\ sack st' = sack st /\ applied (impl st') = applied (impl st)
      /\ flags (impl st') = flags (impl st) /\ filters (impl st') = filters (impl st)
      /\ considered_cached (impl st') = considered_cached (impl st)
  | (Throws e, _) => e = AssertionFailure
  end.
Proof.
  revert st r. induction fs as [|f fs IH]; intros st r Hr; simpl.
  - exists r. repeat split; done.
  - unfold mbind, SE_bind, get, get_result, lift, set_impl, modify. cbn beta iota.
    rewrite Hr.
    destruct (eval_filter ev (sack st) r f) as [m|e] eqn:He.
    + match goal with |- context [apply_filters ev fs ?s] =>
        specialize (IH s _ eq_refl); destruct (apply_filters ev fs s) as [[[]|e] st']
      end; [|done].
      destruct IH as (r' & H1 & H2 & H3 & H4 & H5 & H6 & H7).
      exists r'. repeat split; try done.
      destruct (has_bit _ _); set_solver.
    + unfold eval_filter, filterPkg in He.
      destruct (keyname f); repeat case_match; congruence.
Qed.

Lemma initResult_spec st :
  cache_ok (sack st) ->
  exists st', initResult st = (Returns tt, st')
    /\ result (impl st') =
         Some (restrict (list_to_set (for_pkg_solvables (pool (sack st))))
                 (mode_considered (sack st) (considered_cached (impl st)) (flags (impl st))))
    /\ pool (sack st') = pool (sack st)
    /\ recompute_considered_map (sack st') = recompute_considered_map (sack st)
    /\ cache_ok (sack st')
    /\ applied (impl st') = applied (impl st) /\ flags (impl st') = flags (impl st)
    /\ filters (impl st') = filters (impl st).
Proof.
  intros Hc. unfold initResult, mode_considered.
  destruct (negb (pool_nsolvables (sack st) =? 0)
            && (pool_nsolvables (sack st) =? nsolvables (pool (sack st)))) eqn:Hn.
  - apply andb_true_iff in Hn as [H1 H2]. apply negb_true_iff, Z.eqb_neq in H1.
    apply Z.eqb_eq in H2. rewrite (Hc H1 H2).
    destruct (bool_decide (flags (impl st) = APPLY_EXCLUDES));
      eexists; (split; [reflexivity|]); cbn; repeat split; try done;
      by destruct (considered _) || by destruct (recompute_considered_map _ _ _).
  - destruct (bool_decide (flags (impl st) = APPLY_EXCLUDES));
      eexists; (split; [reflexivity|]); cbn; repeat split; try done;
      try (by destruct (considered _)); try (by destruct (recompute_considered_map _ _ _));
      intros ? ?; reflexivity.
Qed.

(** *** apply *)

Lemma apply_applied ev st :
  applied (impl st) = true -> apply ev st = (Returns tt, st).
Proof. intros H. unfold apply, mbind, SE_bind, get. cbn beta iota. by rewrite H. Qed.

Lemma apply_returns_applied ev st st1 :
  apply ev st = (Returns tt, st1) ->
  applied (impl st) = false ->
  applied (impl st1) = true /\ filters (impl st1) = [] /\ is_Some (result (impl st1)).
Proof.
  intros Ha Hf. unfold apply, mbind, SE_bind, get in Ha. cbn beta iota in Ha.
  rewrite Hf in Ha.
  destruct (result (impl st)) as [r|] eqn:Hr.
  - cbn in Ha. pose proof (apply_filters_shrinks ev (filters (impl st)) st r Hr) as H.
    destruct (apply_filters ev (filters (impl st)) st) as [[[]|e] st']; [|discriminate].
    destruct H as (r' & H1 & _). unfold set_impl, modify in Ha. injection Ha as <-.
    cbn. rewrite H1. eauto.
  - unfold initResult in Ha.
    repeat match type of Ha with
      | context [if ?b then _ else _] => destruct b
      end; cbn in Ha;
      match type of Ha with
      | context [apply_filters ev ?fs ?s] =>
          pose proof (apply_filters_shrinks ev fs s _ eq_refl) as H;
          destruct (apply_filters ev fs s) as [[[]|e] st']; [|discriminate]
      end;
      destruct H as (r' & H1 & _); unfold set_impl, modify in Ha; injection Ha as <-;
      cbn; rewrite H1; eauto.
Qed.

Lemma outcome_surj (x : outcome unit * State) :
  fst x = Returns tt -> x = (Returns tt, snd x).
Proof. destruct x as [o s]. simpl. by intros ->. Qed.

(** C4: on a query whose filter list is empty whenever it is marked
    applied (as every constructor and every [addFilter] leaves it), once
    [apply] has returned a second [apply] returns and leaves the whole
    state, result set included, as the first one left it; the filter list
    is empty after [apply]. *)
Theorem apply_idempotent ev st :
  applied_clean st ->
  fst (apply ev st) = Returns tt ->
  apply ev (snd (apply ev st)) = (Returns tt, snd (apply ev st))
  /\ filters (impl (snd (apply ev st))) = [].
Proof.
  intros Hinv Ha. apply outcome_surj in Ha. destruct (applied (impl st)) eqn:Hap.
  - rewrite !(apply_applied ev st Hap). cbn.
    split; [by apply apply_applied | by apply Hinv].
  - destruct (apply_returns_applied ev st _ Ha Hap) as (H1 & H2 & _).
    split; [by apply apply_applied | done].
Qed.

(** *** installed and available *)

Lemma installed_walk_acc p repo ids acc :
  installed_walk p repo ids acc = acc ∪ installed_walk p repo ids ∅.
Proof.
  revert acc. induction ids as [|x ids IH]; intros acc; simpl; [set_solver|].
  repeat case_match; try set_solver.
  rewrite (IH ({[x]} ∪ acc)), (IH ({[x]} ∪ ∅)). set_solver.
Qed.

Lemma available_walk_spec p repo ids r :
  available_walk p repo ids r = r ∖ installed_walk p repo ids ∅.
Proof.
  revert r. induction ids as [|x ids IH]; intros r; simpl; [set_solver|].
  repeat case_match; try set_solver.
  rewrite IH, (installed_walk_acc _ _ _ ({[x]} ∪ ∅)). set_solver.
Qed.

(** C5: for the result [r] that [apply] leaves, [installed] and
    [available] each return, and the two results they leave have union [r]
    and an empty intersection, with or without an installed repo in the
    pool. *)
Theorem installed_available_partition ev st r :
  fst (apply ev st) = Returns tt ->
  result (impl (snd (apply ev st))) = Some r ->
  exists ri ra,
    fst (installed ev st) = Returns tt /\ result (impl (snd (installed ev st))) = Some ri /\
    fst (available ev st) = Returns tt /\ result (impl (snd (available ev st))) = Some ra /\
    ri ∪ ra = r /\ ri ∩ ra = ∅.
Proof.
  intros Ha Hr. apply outcome_surj in Ha. revert Ha Hr. generalize (snd (apply ev st)).
  intros st1 Ha Hr.
  unfold installed, available, mbind, SE_bind, get, get_result.
  rewrite Ha. cbn beta iota. rewrite Hr.
  destruct (Solv.installed (pool (sack st1))) as [rid|].
  - rewrite Hr. eexists _, _. split; [reflexivity|]. split; [reflexivity|].
    split; [reflexivity|]. split; [reflexivity|].
    rewrite available_walk_spec. split; apply set_eq; intros x.
    + rewrite elem_of_union, elem_of_intersection, elem_of_difference.
      destruct (decide (x ∈ installed_walk (pool (sack st1)) (repo_of (pool (sack st1)) rid)
                  (pset_ids_from r (repo_start (repo_of (pool (sack st1)) rid))) ∅));
        naive_solver.
    + set_solver.
  - eexists _, _. split; [reflexivity|]. split; [reflexivity|].
    split; [reflexivity|]. split; [exact Hr|]. set_solver.
Qed.

End QueryFacts.

Module QueryFacts2.
Import Query QueryOps QueryProps QueryFacts.

(** The filter loop leaves a smaller result, also when an assertion stops it. *)
Lemma apply_filters_state ev fs st r :
  result (impl st) = Some r ->
  exists r', result (impl (snd (apply_filters ev fs st))) = Some r' /\ r' ⊆ r
    /\ sack (snd (apply_filters ev fs st)) = sack st
    /\ applied (impl (snd (apply_filters ev fs st))) = applied (impl st)
    /\ flags (impl (snd (apply_filters ev fs st))) = flags (impl st)
    /\ considered_cached (impl (snd (apply_filters ev fs st))) = considered_cached (impl st).
Proof.
  revert st r. induction fs as [|f fs IH]; intros st r Hr; simpl.
  - exists r. repeat split; done.
  - unfold mbind, SE_bind, get, get_result, lift, set_impl, modify. cbn beta iota.
    rewrite Hr.
    destruct (eval_filter ev (sack st) r f) as [m|e] eqn:He.
    + match goal with |- context [apply_filters ev fs ?s] =>
        specialize (IH s _ eq_refl); destruct (apply_filters ev fs s) as [[[]|e] st']
      end; cbn in *;
      destruct IH as (r' & H1 & H2 & H3 & H4 & H5 & H6);
      exists r'; repeat split; try done;
      destruct (has_bit _ _); set_solver.
    + cbn. exists r. repeat split; done.
Qed.

(** What every operation keeps true of a query made on sack [sk0] in
    exclude mode [fl]. *)
Record QInv (sk0 : DnfSack) (fl : ExcludeFlags) (st : State) : Prop := {
  inv_pool : pool (sack st) = pool sk0;
  inv_map : recompute_considered_map (sack st) = recompute_considered_map sk0;
  inv_cache : cache_ok (sack st);
  inv_flags : flags (impl st) = fl;
  inv_applied : applied (impl st) = true ->
                filters (impl st) = [] /\ is_Some (result (impl st));
  inv_cached : result (impl st) = None -> considered_cached (impl st) = None;
  inv_result : forall r, result (impl st) = Some r ->
               r ⊆ restrict (list_to_set (for_pkg_solvables (pool sk0)))
                     (mode_considered sk0 None fl)
}.

Lemma QInv_fresh sk fl : cache_ok sk -> QInv sk fl (fresh sk fl).
Proof. intros H. split; try done. Qed.

Lemma mode_considered_ext sk sk0 c fl :
  pool sk = pool sk0 -> recompute_considered_map sk = recompute_considered_map sk0 ->
  mode_considered sk c fl = mode_considered sk0 c fl.
Proof. intros H1 H2. unfold mode_considered. by rewrite H1, H2. Qed.

Lemma QInv_apply sk0 fl ev st :
  QInv sk0 fl st -> QInv sk0 fl (snd (apply ev st)).
Proof.
  intros Hinv. pose proof Hinv as [Hp Hm Hc Hf Ha Hcc Hr].
  unfold apply, mbind, SE_bind, get. cbn beta iota.
  destruct (applied (impl st)) eqn:Hap; [exact Hinv|].
  assert (Hmain : forall st1 r1,
    result (impl st1) = Some r1 ->
    r1 ⊆ restrict (list_to_set (for_pkg_solvables (pool sk0))) (mode_considered sk0 None fl) ->
    pool (sack st1) = pool sk0 ->
    recompute_considered_map (sack st1) = recompute_considered_map sk0 ->
    cache_ok (sack st1) -> flags (impl st1) = fl -> applied (impl st1) = false ->
    QInv sk0 fl
      (snd (let (o, st') := apply_filters ev (filters (impl st)) st1 in
            match o with
            | Returns a => set_impl (fun q => set_filters [] (set_applied true q)) st'
            | Throws e => (Throws e, st')
            end))).
  { intros st1 r1 Hr1 Hsub Hp1 Hm1 Hc1 Hf1 Hap1.
    destruct (apply_filters_state ev (filters (impl st)) st1 r1 Hr1)
      as (r' & H1 & H2 & H3 & H4 & H5 & H6).
    destruct (apply_filters ev (filters (impl st)) st1) as [[[]|e] st']; cbn in *.
    all: split; cbn; rewrite ?H3; try done; try congruence;
      try (rewrite H1; by eauto);
      try (intros r; rewrite H1; intros [= <-]; set_solver). }
  destruct (result (impl st)) as [r|] eqn:Hres.
  - cbn beta iota. apply (Hmain st r); auto.
  - destruct (initResult_spec st Hc) as (st1 & Hi & Hr1 & Hp1 & Hm1 & Hc1 & Hap1 & Hf1 & _).
    rewrite Hi. cbn beta iota. eapply Hmain; eauto; try congruence.
    rewrite (Hcc eq_refl), Hf, Hp. rewrite (mode_considered_ext _ sk0) by done. done.
Qed.

Lemma QInv_reopen sk0 fl st fs :
  QInv sk0 fl st ->
  QInv sk0 fl {| sack := sack st; impl := set_filters fs (set_applied false (impl st)) |}.
Proof. intros [Hp Hm Hc Hf Ha Hcc Hr]. split; done. Qed.

Lemma QInv_filterNevraStrict sk0 fl cmpType ms st :
  QInv sk0 fl st -> QInv sk0 fl (snd (filterNevraStrict cmpType ms st)).
Proof.
  intros Hinv. pose proof Hinv as [Hp Hm Hc Hf Ha Hcc Hr].
  unfold filterNevraStrict, mbind, SE_bind, get, lift, get_result, set_impl, modify.
  cbn beta iota.
  destruct (parse_matches _ _ _ _) as [compareSet|e]; [|exact Hinv].
  destruct (bool_decide (compareSet = [])).
  - destruct (negb _); [|exact Hinv].
    destruct (result (impl st)) as [r|] eqn:Hres; [|exact Hinv].
    split; cbn; try done.
    + intros H. destruct (Ha H) as [? _]. eauto.
    + intros r' [= <-]. set_solver.
  - destruct (result (impl st)) as [r|] eqn:Hres; [|exact Hinv].
    split; cbn; try done.
    + intros H. destruct (Ha H) as [? _]. eauto.
    + intros r' [= <-]. specialize (Hr r eq_refl). destruct (has_bit _ _); set_solver.
Qed.

Ltac qinv_simple Hinv :=
  unfold addFilter_num, addFilter_nums, addFilter_pset, addFilter_reldep,
    addFilter_reldeplist, push_filter, mbind, SE_bind, set_impl, modify, mret, SE_ret;
  cbn beta iota;
  repeat match goal with
    | |- context [if ?b then _ else _] => destruct b; cbn beta iota
    end;
  first [exact Hinv | exact (QInv_reopen _ _ _ _ Hinv)].

Lemma QInv_addFilter sk0 fl h ev a st :
  QInv sk0 fl st -> QInv sk0 fl (snd (addFilter h ev a st)).
Proof.
  intros Hinv. destruct a as [k c m|k c ms|k c ps|k r|k l|k c m|k c ms];
    cbn [addFilter]; try (by qinv_simple Hinv).
  - (* one string *)
    unfold addFilter_str.
    destruct (bool_decide (k = HY_PKG_NEVRA_STRICT)).
    + destruct (negb _); [exact Hinv|].
      unfold mbind, SE_bind. pose proof (QInv_apply sk0 fl ev st Hinv) as H1.
      destruct (apply ev st) as [[[]|e] st1]; [|exact H1].
      pose proof (QInv_filterNevraStrict sk0 fl c [m; None] st1 H1) as H2.
      destruct (filterNevraStrict _ _ st1) as [[[]|e] st2]; exact H2.
    + cbv zeta. destruct (negb (valid_filter_str _ _)); [exact Hinv|].
      unfold mbind at 1, SE_bind at 1, set_impl at 1, modify at 1.
      pose proof (QInv_reopen sk0 fl st (filters (impl st)) Hinv) as H1.
      pose proof Hinv as Hs.
      destruct (match_type_reldep k).
      * unfold mbind at 1, SE_bind at 1, get at 1.
        destruct (_ =? HY_GLOB).
        -- destruct (addReldepWithGlob _ _ _) as [ok l].
           destruct (negb ok); by qinv_simple Hs.
        -- destruct (Dependency_new _ _ _); by qinv_simple Hs.
      * unfold mbind, SE_bind, lift, push_filter, set_impl, modify.
        destruct (Filter_str _ _ _); [|exact H1].
        cbn. exact (QInv_reopen _ _ _ _ Hs).
  - (* strings *)
    unfold addFilter_strs.
    destruct (bool_decide (k = HY_PKG_NEVRA_STRICT)).
    + destruct (negb _); [exact Hinv|].
      unfold mbind, SE_bind. pose proof (QInv_apply sk0 fl ev st Hinv) as H1.
      destruct (apply ev st) as [[[]|e] st1]; [|exact H1].
      pose proof (QInv_filterNevraStrict sk0 fl c ms st1 H1) as H2.
      destruct (filterNevraStrict _ _ st1) as [[[]|e] st2]; exact H2.
    + cbv zeta. destruct (negb (valid_filter_str _ _)); [exact Hinv|].
      unfold mbind at 1, SE_bind at 1, set_impl at 1, modify at 1.
      pose proof (QInv_reopen sk0 fl st (filters (impl st)) Hinv) as H1.
      pose proof Hinv as Hs.
      destruct (match_type_reldep k).
      * unfold mbind at 1, SE_bind at 1, get at 1. by qinv_simple Hs.
      * unfold mbind, SE_bind, lift, push_filter, set_impl, modify.
        destruct (Filter_strs _ _ _); [|exact H1].
        cbn. exact (QInv_reopen _ _ _ _ Hs).
Qed.

Lemma QInv_addFilters sk0 fl h ev adds st :
  QInv sk0 fl st -> QInv sk0 fl (addFilters h ev adds st).
Proof.
  revert st. induction adds as [|a adds IH]; intros st H; [done|].
  simpl. apply IH, QInv_addFilter, H.
Qed.

(** C3, amended: for every sequence of [addFilter] calls on a new query in
    exclude mode [fl], once [apply] has returned, the result is a subset of
    the real package solvables and of the considered bitmap of that mode
    (the pool's for [APPLY_EXCLUDES], the recomputed one of the mode
    otherwise), and the filter list is empty. *)
Theorem apply_result_considered h ev sk fl adds :
  cache_ok sk ->
  fst (apply ev (addFilters h ev adds (fresh sk fl))) = Returns tt ->
  exists r, result (impl (snd (apply ev (addFilters h ev adds (fresh sk fl))))) = Some r
    /\ r ⊆ list_to_set (for_pkg_solvables (pool sk))
    /\ (forall c, mode_considered sk None fl = Some c -> r ⊆ c)
    /\ filters (impl (snd (apply ev (addFilters h ev adds (fresh sk fl))))) = [].
Proof.
  intros Hc Ha. apply outcome_surj in Ha. revert Ha.
  generalize (snd (apply ev (addFilters h ev adds (fresh sk fl)))). intros st' Ha.
  pose proof (QInv_addFilters sk fl h ev adds _ (QInv_fresh sk fl Hc)) as H0.
  pose proof (QInv_apply sk fl ev _ H0) as H1. rewrite Ha in H1. cbn in H1.
  destruct H1 as [_ _ _ _ Hap _ Hr].
  assert (applied (impl st') = true /\ filters (impl st') = [] /\ is_Some (result (impl st')))
    as (Happ & Hfs & [r Hres]).
  { destruct (applied (impl (addFilters h ev adds (fresh sk fl)))) eqn:E.
    - rewrite apply_applied in Ha by done. injection Ha as <-.
      destruct H0 as [_ _ _ _ Hap0 _ _]. destruct (Hap0 E). done.
    - by apply (apply_returns_applied ev _ _ Ha). }
  exists r. split; [done|]. specialize (Hr r Hres).
  split; [|split; [|done]].
  - unfold restrict in Hr. destruct (mode_considered sk None fl); set_solver.
  - intros c Hcm. rewrite Hcm in Hr. cbn in Hr. set_solver.
Qed.

End QueryFacts2.
(** ** An applied query has no pending filter *)

Module QueryInv.
Import Query QueryOps QueryProps QueryFacts.

Lemma applied_clean_fresh sk fl : applied_clean (fresh sk fl).
Proof. intros H. discriminate H. Qed.

Lemma apply_filters_keeps ev fs st :
  applied (impl (snd (apply_filters ev fs st))) = applied (impl st)
  /\ filters (impl (snd (apply_filters ev fs st))) = filters (impl st).
Proof.
  revert st. induction fs as [|f fs IH]; intros st; [done|].
  cbn [apply_filters]. unfold mbind, SE_bind, get, get_result, lift, set_impl, modify.
  cbn beta iota.
  destruct (result (impl st)) as [r|]; [|done].
  destruct (eval_filter ev (sack st) r f) as [m|e]; [|done].
  match goal with |- context [apply_filters ev fs ?s] =>
    specialize (IH s); destruct (apply_filters ev fs s) as [[[]|e] st']
  end; exact IH.
Qed.

Lemma initResult_keeps st :
  applied (impl (snd (initResult st))) = applied (impl st)
  /\ filters (impl (snd (initResult st))) = filters (impl st).
Proof.
  unfold initResult.
  repeat match goal with |- context [if ?b then _ else _] => destruct b end; done.
Qed.

Lemma applied_clean_apply ev st :
  applied_clean st -> applied_clean (snd (apply ev st)).
Proof.
  intros Hc. unfold apply, mbind, SE_bind, get. cbn beta iota.
  destruct (applied (impl st)) eqn:Hap; [exact Hc|].
  assert (Hmain : forall st1, applied (impl st1) = false ->
    applied_clean
      (snd (let (o, st') := apply_filters ev (filters (impl st)) st1 in
            match o with
            | Returns a => set_impl (fun q => set_filters [] (set_applied true q)) st'
            | Throws e => (Throws e, st')
            end))).
  { intros st1 H1.
    destruct (apply_filters_keeps ev (filters (impl st)) st1) as [Ha _].
    destruct (apply_filters ev (filters (impl st)) st1) as [[[]|e] st']; cbn in *.
    - intros _. reflexivity.
    - intros H. congruence. }
  destruct (result (impl st)).
  - cbn beta iota. by apply Hmain.
  - destruct (initResult_keeps st) as [Ha _].
    destruct (initResult st) as [[[]|e] st1]; cbn in *.
    + apply Hmain. congruence.
    + intros H. congruence.
Qed.

Lemma applied_clean_filterNevraStrict cmpType ms st :
  applied_clean st -> applied_clean (snd (filterNevraStrict cmpType ms st)).
Proof.
  intros Hc.
  unfold filterNevraStrict, mbind, SE_bind, get, lift, get_result, set_impl, modify.
  cbn beta iota.
  destruct (parse_matches _ _ _ _) as [compareSet|e]; [|exact Hc].
  destruct (bool_decide (compareSet = [])).
  - destruct (negb _); [|exact Hc].
    destruct (result (impl st)); exact Hc.
  - destruct (result (impl st)); exact Hc.
Qed.

Ltac clean_simple Hc :=
  unfold addFilter_num, addFilter_nums, addFilter_pset, addFilter_reldep,
    addFilter_reldeplist, push_filter, mbind, SE_bind, set_impl, modify, mret, SE_ret,
    lift, get;
  cbn beta iota;
  repeat match goal with
    | |- context [if ?b then _ else _] => destruct b; cbn beta iota
    | |- context [match ?x with Returns _ => _ | Throws _ => _ end] =>
        destruct x; cbn beta iota
    end;
  first [exact Hc | intros Habs; discriminate Habs].

Lemma applied_clean_addFilter h ev a st :
  applied_clean st -> applied_clean (snd (addFilter h ev a st)).
Proof.
  intros Hc. destruct a as [k c m|k c ms|k c ps|k r|k l|k c m|k c ms];
    cbn [addFilter]; try (by clean_simple Hc).
  - unfold addFilter_str.
    destruct (bool_decide (k = HY_PKG_NEVRA_STRICT)).
    + destruct (negb _); [exact Hc|].
      unfold mbind, SE_bind. pose proof (applied_clean_apply ev st Hc) as H1.
      destruct (apply ev st) as [[[]|e] st1]; [|exact H1].
      pose proof (applied_clean_filterNevraStrict c [m; None] st1 H1) as H2.
      destruct (filterNevraStrict _ _ st1) as [[[]|e] st2]; exact H2.
    + cbv zeta. destruct (negb (valid_filter_str _ _)); [exact Hc|].
      destruct (match_type_reldep k).
      * unfold mbind at 1, SE_bind at 1, set_impl at 1, modify at 1.
        unfold mbind at 1, SE_bind at 1, get at 1.
        destruct (_ =? HY_GLOB).
        -- destruct (addReldepWithGlob _ _ _) as [ok l].
           destruct (negb ok); by clean_simple Hc.
        -- destruct (Dependency_new _ _ _); by clean_simple Hc.
      * by clean_simple Hc.
  - unfold addFilter_strs.
    destruct (bool_decide (k = HY_PKG_NEVRA_STRICT)).
    + destruct (negb _); [exact Hc|].
      unfold mbind, SE_bind. pose proof (applied_clean_apply ev st Hc) as H1.
      destruct (apply ev st) as [[[]|e] st1]; [|exact H1].
      pose proof (applied_clean_filterNevraStrict c ms st1 H1) as H2.
      destruct (filterNevraStrict _ _ st1) as [[[]|e] st2]; exact H2.
    + cbv zeta. destruct (negb (valid_filter_str _ _)); [exact Hc|].
      destruct (match_type_reldep k).
      * unfold mbind at 1, SE_bind at 1, set_impl at 1, modify at 1.
        unfold mbind at 1, SE_bind at 1, get at 1. by clean_simple Hc.
      * by clean_simple Hc.
Qed.

(** Every query built from a new one by [addFilter] and [apply] calls has
    no pending filter while it is marked applied. *)
Lemma applied_clean_addFilters h ev adds st :
  applied_clean st -> applied_clean (addFilters h ev adds st).
Proof.
  revert st. induction adds as [|a adds IH]; intros st H; [done|].
  simpl. apply IH, applied_clean_addFilter, H.
Qed.

End QueryInv.

Module QueryFacts3.
Import Query QueryOps QueryProps QueryFacts QueryFacts2.

(** The null check inside [filterNevraStrict] is behind [g_strv_length]:
    the cells it reads are never null. *)
Lemma parse_matches_strv p createEVRId ms acc :
  exists l, parse_matches p createEVRId (take (g_strv_length ms) ms) acc = Returns l.
Proof.
  unfold g_strv_length. revert acc. induction ms as [|[m|] ms IH]; intros acc; cbn.
  - eauto.
  - destruct (Nevra.parse p m createEVRId); apply IH.
  - eauto.
Qed.

(** [NEVRA_STRICT] with a null match: no exception, no error code. *)
Lemma addFilter_nevra_strict_null h ev cmp_type st :
  has_bit cmp_type HY_EQ = true ->
  fst (apply ev st) = Returns tt ->
  is_Some (result (impl (snd (apply ev st)))) ->
  fst (addFilter_str h ev HY_PKG_NEVRA_STRICT cmp_type None st) = Returns None.
Proof.
  intros Hc Ha [r Hr]. apply outcome_surj in Ha. revert Ha Hr.
  generalize (snd (apply ev st)). intros st1 Ha Hr. unfold addFilter_str.
  rewrite bool_decide_eq_true_2 by done. rewrite Hc. cbn [orb negb].
  unfold mbind, SE_bind. rewrite Ha.
  unfold filterNevraStrict, mbind, SE_bind, get, lift, get_result, set_impl, modify.
  cbn. destruct (negb _); [rewrite Hr|]; reflexivity.
Qed.

Lemma copyFilterChar_nonnull m k : exists m', copyFilterChar (Some m) k = Returns m'.
Proof. unfold copyFilterChar. destruct (_ && _); eauto. Qed.

Lemma copy_matches_strv ms k :
  exists l, copy_matches (take (g_strv_length ms) ms) k = Returns l.
Proof.
  unfold g_strv_length. induction ms as [|[m|] ms IH]; cbn -[copyFilterChar]; eauto.
  destruct (copyFilterChar_nonnull m k) as [m' ->]. destruct IH as [l ->].
  cbn. eauto.
Qed.

(** C10, amended: [addFilter] with a null string, for a keyname other than
    [NEVRA_STRICT] that is no reldep keyname and a comparison without
    [HY_GLOB], throws the runtime error with the message
    [Query can not accept NULL for STR match] when the keyname and comparison
    pair is valid, and answers [BAD_QUERY] when it is not; the filter
    constructors throw on no string that is not null. *)
Theorem addFilter_str_null h ev k c st :
  k <> HY_PKG_NEVRA_STRICT ->
  has_bit c HY_GLOB = false ->
  match_type_reldep k = false ->
  addFilter_str h ev k c None st =
    (if valid_filter_str k c
     then (Throws (RuntimeError null_match_message),
           {| sack := sack st; impl := set_applied false (impl st) |})
     else (Returns (Some DNF_ERROR_BAD_QUERY), st))
  /\ (forall k' c' m, exists f, Filter_str k' c' (Some m) = Returns f)
  /\ (forall k' c' ms, exists f, Filter_strs k' c' ms = Returns f).
Proof.
  intros Hk Hg Hr. split; [|split].
  - unfold addFilter_str. rewrite bool_decide_eq_false_2 by done.
    rewrite Hg. cbn [andb]. destruct (valid_filter_str k c); cbn [negb]; [|done].
    rewrite Hr. reflexivity.
  - intros k' c' m. unfold Filter_str.
    destruct (copyFilterChar_nonnull m k') as [m' ->]. cbn. eauto.
  - intros k' c' ms. unfold Filter_strs.
    destruct (copy_matches_strv ms k') as [l ->]. cbn. eauto.
Qed.

End QueryFacts3.

Module Witnesses.
Import Query QueryOps QueryProps QueryFacts QueryFacts2 QueryFacts3.

(** A null name to match throws. *)
Lemma addFilter_str_null_witness :
  addFilter_str Ex.no_helpers Ex.no_evaluators HY_PKG_NAME HY_EQ None kernel_query =
    (Throws (RuntimeError null_match_message),
     {| sack := sack kernel_query; impl := set_applied false (impl kernel_query) |})
  /\ (forall k' c' m, exists f, Filter_str k' c' (Some m) = Returns f)
  /\ (forall k' c' ms, exists f, Filter_strs k' c' ms = Returns f).
Proof.
  apply (addFilter_str_null Ex.no_helpers Ex.no_evaluators HY_PKG_NAME HY_EQ
           kernel_query); [discriminate | reflexivity | reflexivity].
Defined.

(** C10, the claim as stated fails: an invalid keyname/comparison pair
    answers [BAD_QUERY] also for a null match. *)
Lemma addFilter_str_null_bad_query :
  fst (addFilter_str Ex.no_helpers Ex.no_evaluators HY_PKG_LOCATION HY_SUBSTR None
         kernel_query) = Returns (Some DNF_ERROR_BAD_QUERY)
  /\ fst (addFilter_str Ex.no_helpers Ex.no_evaluators HY_PKG_LOCATION HY_SUBSTR None
            kernel_query) <> Throws (RuntimeError null_match_message).
Proof. split; [reflexivity | discriminate]. Qed.

Lemma apply_idempotent_witness :
  apply Ex.no_evaluators (snd (apply Ex.no_evaluators kernel_query)) =
    (Returns tt, snd (apply Ex.no_evaluators kernel_query))
  /\ filters (impl (snd (apply Ex.no_evaluators kernel_query))) = [].
Proof.
  apply (apply_idempotent Ex.no_evaluators kernel_query);
    [apply QueryInv.applied_clean_fresh | vm_compute; reflexivity].
Defined.

Lemma installed_available_partition_witness :
  exists ri ra,
    fst (installed Ex.no_evaluators kernel_query) = Returns tt /\
    result (impl (snd (installed Ex.no_evaluators kernel_query))) = Some ri /\
    fst (available Ex.no_evaluators kernel_query) = Returns tt /\
    result (impl (snd (available Ex.no_evaluators kernel_query))) = Some ra /\
    ri ∪ ra = {[1; 2; 3; 4]} /\ ri ∩ ra = ∅.
Proof.
  apply (installed_available_partition Ex.no_evaluators kernel_query {[1; 2; 3; 4]});
    vm_compute; reflexivity.
Defined.

Example installed_kernel_query :
  result (impl (snd (installed Ex.no_evaluators kernel_query))) = Some {[1; 2]}
  /\ result (impl (snd (available Ex.no_evaluators kernel_query))) = Some {[3; 4]}.
Proof. split; vm_compute; reflexivity. Qed.

Lemma cache_ok_kernel : cache_ok Ex.kernel_sack.
Proof. intros H. exfalso. apply H. reflexivity. Qed.

Lemma apply_result_considered_witness :
  exists r,
    result (impl (snd (apply Ex.no_evaluators
      (addFilters Ex.no_helpers Ex.no_evaluators [AddPset HY_PKG HY_EQ {[2; 4; 9]}]
         (fresh Ex.excluded_sack APPLY_EXCLUDES))))) = Some r
    /\ r ⊆ list_to_set (for_pkg_solvables (pool Ex.excluded_sack))
    /\ (forall c, mode_considered Ex.excluded_sack None APPLY_EXCLUDES = Some c -> r ⊆ c)
    /\ filters (impl (snd (apply Ex.no_evaluators
      (addFilters Ex.no_helpers Ex.no_evaluators [AddPset HY_PKG HY_EQ {[2; 4; 9]}]
         (fresh Ex.excluded_sack APPLY_EXCLUDES))))) = [].
Proof.
  apply (apply_result_considered Ex.no_helpers Ex.no_evaluators Ex.excluded_sack
           APPLY_EXCLUDES [AddPset HY_PKG HY_EQ {[2; 4; 9]}]).
  - intros H. exfalso. apply H. reflexivity.
  - vm_compute. reflexivity.
Defined.

(** A query in mode [IGNORE_EXCLUDES] lists the excluded solvable 4. *)
Lemma ignore_excludes_lists_excluded :
  ~ claim_no_excluded Ex.no_helpers Ex.no_evaluators Ex.excluded_sack IGNORE_EXCLUDES [].
Proof.
  intros H. destruct H as (r & Hr & _ & Hc & _); [vm_compute; reflexivity|].
  assert (Hres : result (impl (snd (apply Ex.no_evaluators
            (addFilters Ex.no_helpers Ex.no_evaluators []
               (fresh Ex.excluded_sack IGNORE_EXCLUDES))))) = Some {[1; 2; 3; 4]})
    by (vm_compute; reflexivity).
  rewrite Hres in Hr. injection Hr as <-.
  specialize (Hc {[1; 2; 3]} eq_refl).
  assert (H4 : (4 : Z) ∈ ({[1; 2; 3]} : gset Z)) by (apply Hc; set_solver).
  set_solver.
Qed.

End Witnesses.

Module LatestFacts.
Import Query LatestSpec.

(** *** add_latest_to_map *)

Lemma evr_ranks_ge p prev c b x r :
  (x, r) ∈ evr_ranks p prev c b -> c <= r.
Proof.
  revert prev c. induction b as [|y b IH]; intros prev c; simpl.
  - intros H. by apply elem_of_nil in H.
  - intros H. apply elem_of_cons in H as [[= -> ->]|H].
    + destruct (_ =? _); lia.
    + apply IH in H. destruct (_ =? _); lia.
Qed.







(** *** The block loop *)

Section Blocks.
Variables (kn : Keyname) (p : Pool) (q : Queue) (N : Z).
Hypothesis HN : N <> 0.








Lemma elem_middle (pre cur rest : list Id) x :
  elem (pre ++ cur ++ x :: rest) (Z.of_nat (length pre + length cur)) = x.
Proof.
  unfold elem. rewrite Nat2Z.id, app_assoc.
  rewrite lookup_app_r by (rewrite length_app; lia).
  rewrite length_app, Nat.sub_diag. reflexivity.
Qed.





End Blocks.

(** *** One latest-N filter *)




(** *** N and -N split every block *)












(** *** The evaluated blocks inside the queue *)

Lemma concat_runs_from same h cur rest :
  concat (runs_from same h cur rest) = cur ++ rest.
Proof.
  revert h cur. induction rest as [|x rest IH]; intros h cur; cbn.
  - by rewrite app_nil_r.
  - destruct (same h x); cbn; rewrite IH; [by rewrite <- app_assoc|done].
Qed.

Lemma concat_runs same q : concat (runs same q) = q.
Proof. destruct q; [done|]. unfold runs. by rewrite concat_runs_from. Qed.







End LatestFacts.
(** ** The latest-N filter on the kernel pool *)

Module LatestExamples.
Import Query QueryProps LatestSpec LatestFacts.



(** By name, the latest kernel is [kernel-2-1], installed (2) and
    available (3); all but the latest is [kernel-1-1] (1). *)
Example latest_kernel :
  filterLatest Ex.kernel_pool all_four (Filter_num HY_PKG_LATEST HY_EQ 1) = {[2; 3; 4]}
  /\ filterLatest Ex.kernel_pool all_four (Filter_num HY_PKG_LATEST HY_EQ (-1)) = {[1]}
  /\ latest_queue HY_PKG_LATEST Ex.kernel_pool all_four = [2; 3; 1; 4]
  /\ evaluated_blocks HY_PKG_LATEST Ex.kernel_pool [2; 3; 1; 4] = [[2; 3; 1]; [4]].
Proof. repeat split; vm_compute; reflexivity. Qed.



End LatestExamples.
(** ** Parsing a canonical NEVRA string, and the strict filter on it *)

Module NevraFacts.
Import Nevra NevraSpec Query QueryOps QueryProps QueryFacts.

Lemma scan_delims_app s1 s2 pos e r a :
  scan_delims (s1 ++ s2) pos e r a =
  let '(e1, r1, a1, pos1) := scan_delims s1 pos e r a in scan_delims s2 pos1 e1 r1 a1.
Proof.
  revert pos e r a. induction s1 as [|c s1 IH]; intros pos e r a; cbn; [done|].
  destruct (is_char c "-"); [apply IH|]. destruct (is_char c "."); apply IH.
Qed.

Lemma scan_delims_any s pos e r a :
  exists e' r' a', scan_delims s pos e r a = (e', r', a', pos + Z.of_nat (length s)).
Proof.
  revert pos e r a. induction s as [|c s IH]; intros pos e r a; cbn [scan_delims length].
  - exists e, r, a. f_equal. lia.
  - replace (pos + Z.of_nat (S (length s))) with (pos + 1 + Z.of_nat (length s)) by lia.
    destruct (is_char c "-"); [apply IH|]. destruct (is_char c "."); apply IH.
Qed.

Lemma scan_delims_no_dash s pos e r a :
  no_char "-" s = true ->
  exists a', scan_delims s pos e r a = (e, r, a', pos + Z.of_nat (length s)).
Proof.
  revert pos a. induction s as [|c s IH]; intros pos a; cbn [scan_delims length no_char forallb].
  - intros _. exists a. f_equal. lia.
  - intros [Hc Hs]%andb_true_iff. apply negb_true_iff in Hc. rewrite Hc.
    replace (pos + Z.of_nat (S (length s))) with (pos + 1 + Z.of_nat (length s)) by lia.
    destruct (is_char c "."); by apply IH.
Qed.

Lemma scan_delims_plain s pos e r a :
  no_char "-" s = true -> no_char "." s = true ->
  scan_delims s pos e r a = (e, r, a, pos + Z.of_nat (length s)).
Proof.
  revert pos. induction s as [|c s IH]; intros pos; cbn [scan_delims length no_char forallb].
  - intros _ _. f_equal. lia.
  - intros [Hc Hs]%andb_true_iff [Hd Ht]%andb_true_iff.
    apply negb_true_iff in Hc, Hd. rewrite Hc, Hd.
    replace (pos + Z.of_nat (S (length s))) with (pos + 1 + Z.of_nat (length s)) by lia.
    by apply IH.
Qed.

Lemma char_at_app l1 l2 i :
  i = Z.of_nat (length l1) -> char_at (l1 ++ l2) i = hd "000"%char l2.
Proof.
  intros ->. unfold char_at.
  assert (H : (Z.of_nat (length l1) <? 0) = false) by (apply Z.ltb_ge; lia).
  rewrite H, Nat2Z.id, nth_lookup, lookup_app_r by lia.
  rewrite Nat.sub_diag. by destruct l2.
Qed.

Lemma char_at_beyond s i : Z.of_nat (length s) <= i -> char_at s i = "000"%char.
Proof.
  intros H. unfold char_at.
  assert (H0 : (i <? 0) = false) by (apply Z.ltb_ge; lia). rewrite H0.
  apply nth_overflow. lia.
Qed.

(** The epoch loop ends within [length s] rounds: every round reads a
    position further right, and a position behind the string ends it.  Any
    fuel from there on gives the same answer. *)
Lemma strip_epoch_fuel s f1 f2 d index :
  0 <= d -> 1 <= index ->
  (length s - Z.to_nat (d + index) <= f1)%nat ->
  (length s - Z.to_nat (d + index) <= f2)%nat ->
  strip_epoch f1 s d index = strip_epoch f2 s d index.
Proof.
  revert f2 d index. induction f1 as [|f1 IH]; intros f2 d index Hd Hi H1 H2.
  - destruct f2 as [|f2]; [done|]. cbn [strip_epoch].
    rewrite char_at_beyond by lia. reflexivity.
  - destruct f2 as [|f2]; cbn [strip_epoch].
    + rewrite char_at_beyond by lia. reflexivity.
    + destruct (is_char (char_at s (d + index)) "0") eqn:Hc; [|done].
      assert (Hin : d + index < Z.of_nat (length s)).
      { destruct (Z_lt_le_dec (d + index) (Z.of_nat (length s))) as [?|Hge]; [done|].
        rewrite (char_at_beyond s _ Hge) in Hc. discriminate Hc. }
      destruct (is_char (char_at s (d + (index + 1))) ":"); apply IH; lia.
Qed.

Lemma skip_zeros_head s :
  is_char (hd "000"%char s) ":" = true -> skip_zeros s = s.
Proof.
  destruct s as [|c s]; [done|]. cbn. unfold is_char. intros H.
  apply bool_decide_eq_true in H. subst c. reflexivity.
Qed.

(** Without an epoch of zeros the epoch loop leaves [evrDelim] alone. *)
Lemma strip_epoch_none fuel l1 T d index :
  d + index = Z.of_nat (length l1) ->
  zero_epoch T = false ->
  (length T <= fuel)%nat ->
  strip_epoch fuel (l1 ++ T) d index = d.
Proof.
  revert fuel l1 index. induction T as [|c T IH]; intros fuel l1 index Hd Hz Hf.
  - destruct fuel; [done|]. cbn [strip_epoch]. by rewrite (char_at_app l1 [] _ Hd).
  - destruct fuel as [|fuel]; [cbn in Hf; lia|]. cbn [strip_epoch].
    rewrite (char_at_app l1 (c :: T) _ Hd). cbn [hd].
    destruct (is_char c "0") eqn:Hc; [|done].
    unfold zero_epoch in Hz. cbn [hd skip_zeros] in Hz. rewrite Hc in Hz. cbn in Hz.
    assert (Hd' : d + (index + 1) = Z.of_nat (length (l1 ++ [c]))).
    { rewrite length_app. cbn. lia. }
    replace (l1 ++ c :: T) with ((l1 ++ [c]) ++ T) by (by rewrite <- app_assoc).
    rewrite (char_at_app (l1 ++ [c]) T _ Hd').
    destruct (is_char (hd "000"%char T) ":") eqn:Hcol.
    + by rewrite (skip_zeros_head T Hcol), Hcol in Hz.
    + apply IH; [done| |cbn in Hf; lia].
      unfold zero_epoch. rewrite Hz. apply andb_false_r.
Qed.

Lemma zero_epoch_app E T :
  is_char (hd "000"%char T) "0" = false -> is_char (hd "000"%char T) ":" = false ->
  zero_epoch E = false -> zero_epoch (E ++ T) = false.
Proof.
  intros H0 Hc. unfold zero_epoch.
  assert (Hs : forall E, is_char (hd "000"%char (skip_zeros E)) ":" = false ->
               is_char (hd "000"%char (skip_zeros (E ++ T))) ":" = false).
  { clear E. induction E as [|c E IH]; cbn [skip_zeros app].
    - intros _. destruct T as [|t T]; [done|]. cbn [skip_zeros].
      cbn [hd] in H0. by rewrite H0.
    - destruct (is_char c "0"); [apply IH|done]. }
  destruct E as [|c E]; cbn [app hd].
  - intros _. by rewrite H0.
  - destruct (is_char c "0") eqn:Hc0; [|done]. cbn [andb]. apply Hs.
Qed.

Lemma split_dash_spec E V R :
  split_dash E = (V, Some R) -> E = V ++ "-"%char :: R /\ no_char "-" V = true.
Proof.
  revert V. induction E as [|c E IH]; intros V; cbn [split_dash]; [done|].
  destruct (is_char c "-") eqn:Hc.
  - intros [= <- <-]. apply bool_decide_eq_true in Hc. by subst c.
  - destruct (split_dash E) as [v r]. intros [= <- ->].
    destruct (IH v eq_refl) as [-> Hv]. split; [done|]. cbn. by rewrite Hc.
Qed.

Lemma substr_middle l1 s l2 from to :
  from = Z.of_nat (length l1) -> to = from + Z.of_nat (length s) ->
  substr (l1 ++ s ++ l2) from to = s.
Proof.
  intros -> ->. unfold substr. rewrite Nat2Z.id, drop_app_length.
  replace (Z.of_nat (length l1) + Z.of_nat (length s) - Z.of_nat (length l1))
    with (Z.of_nat (length s)) by lia.
  by rewrite Nat2Z.id, take_app_length.
Qed.

Lemma nonempty_length s : nonempty s = true -> (0 < length s)%nat.
Proof. destruct s; [done|]. cbn. lia. Qed.

Lemma scan_delims_dash s pos e r a :
  scan_delims ("-"%char :: s) pos e r a = scan_delims s (pos + 1) r (Some pos) a.
Proof. reflexivity. Qed.

Lemma scan_delims_dot s pos e r a :
  scan_delims ("."%char :: s) pos e r a = scan_delims s (pos + 1) e r (Some pos).
Proof. reflexivity. Qed.

(** The delimiters that the first loop of [parse] finds in
    [N-V-R.A]. *)
Lemma scan_delims_canonical N V R A :
  no_char "-" V = true -> no_char "-" R = true ->
  no_char "-" A = true -> no_char "." A = true ->
  let n := Z.of_nat (length N) in
  let v := Z.of_nat (length V) in
  let r := Z.of_nat (length R) in
  scan_delims (N ++ "-"%char :: (V ++ "-"%char :: R) ++ "."%char :: A) 0 None None None =
  (Some n, Some (n + 1 + v), Some (n + 1 + v + 1 + r),
   n + 1 + v + 1 + r + 1 + Z.of_nat (length A)).
Proof.
  intros HV HR HA HA'. cbv zeta.
  rewrite scan_delims_app.
  destruct (scan_delims_any N 0 None None None) as (e1 & r1 & a1 & ->).
  rewrite scan_delims_dash, <- app_assoc, scan_delims_app.
  destruct (scan_delims_no_dash V (0 + Z.of_nat (length N) + 1) r1
              (Some (0 + Z.of_nat (length N))) a1 HV) as (a2 & ->).
  cbn [app]. rewrite scan_delims_dash, scan_delims_app.
  match goal with
  | |- context [scan_delims R ?pos ?e ?r ?a] =>
      destruct (scan_delims_no_dash R pos e r a HR) as (a3 & ->)
  end.
  rewrite scan_delims_dot, scan_delims_plain by done.
  repeat f_equal; lia.
Qed.

(** [parse] recovers the ids of a solvable from its canonical string. *)
Lemma parse_canonical p s :
  wf_nevra p s = true ->
  parse p (pool_solvable2str p s) true =
  Some {| name := s_name s; arch := s_arch s; evr := s_evr s; evr_str := [] |}.
Proof.
  unfold wf_nevra, pool_solvable2str. cbv zeta.
  set (N := pool_id2str p (s_name s)). set (E := pool_id2str p (s_evr s)).
  set (A := pool_id2str p (s_arch s)).
  rewrite !andb_true_iff, !negb_true_iff, !Z.eqb_eq, !Z.eqb_neq.
  intros [[[[[[[[[[[Hn0 He0] Ha0] Hn] He] Ha] HN] HA] HAd] HAp] Hsplit] Hz].
  destruct (split_dash E) as [V [R|]] eqn:HE; [|done].
  apply andb_true_iff in Hsplit as [[HV HR]%andb_true_iff HRd].
  apply split_dash_spec in HE as [HE HVd].
  apply nonempty_length in HN, HA, HV, HR.
  unfold parse. rewrite HE.
  rewrite (scan_delims_canonical N V R A HVd HRd HAd HAp). cbv zeta.
  set (n := Z.of_nat (length N)). set (v := Z.of_nat (length V)).
  set (r := Z.of_nat (length R)). set (a := Z.of_nat (length A)).
  assert (Hn1 : (n =? 0) = false) by (apply Z.eqb_neq; lia). rewrite Hn1.
  assert (Hstrip : strip_epoch (length (N ++ "-"%char :: (V ++ "-"%char :: R) ++ "."%char :: A))
                     (N ++ "-"%char :: (V ++ "-"%char :: R) ++ "."%char :: A) n 1 = n).
  { replace (N ++ "-"%char :: (V ++ "-"%char :: R) ++ "."%char :: A)
      with ((N ++ ["-"%char]) ++ (E ++ "."%char :: A))
      by (rewrite HE, <- app_assoc; reflexivity).
    apply strip_epoch_none.
    - rewrite length_app. cbn. lia.
    - apply zero_epoch_app; done.
    - rewrite !length_app. lia. }
  rewrite Hstrip.
  assert (H1 : (n + 1 + v - n <=? 1) = false) by (apply Z.leb_gt; lia).
  assert (H2 : (n + 1 + v + 1 + r <=? n + 1 + v + 1) = false) by (apply Z.leb_gt; lia).
  assert (H3 : (n + 1 + v + 1 + r =? n + 1 + v + 1 + r + 1 + a - 1) = false)
    by (apply Z.eqb_neq; lia).
  rewrite H1, H2, H3. cbn [orb andb].
  unfold pool_strn2id.
  assert (S1 : substr (N ++ "-"%char :: (V ++ "-"%char :: R) ++ "."%char :: A) 0 (0 + n) = N).
  { apply (substr_middle [] N); [done|lia]. }
  assert (S2 : substr (N ++ "-"%char :: (V ++ "-"%char :: R) ++ "."%char :: A) (n + 1)
                 (n + 1 + (n + 1 + v + 1 + r - (n + 1))) = E).
  { replace (N ++ "-"%char :: (V ++ "-"%char :: R) ++ "."%char :: A)
      with ((N ++ ["-"%char]) ++ E ++ "."%char :: A)
      by (rewrite HE, <- app_assoc; reflexivity).
    apply substr_middle; [rewrite length_app; cbn; lia|].
    rewrite HE, length_app. cbn. lia. }
  assert (S3 : substr (N ++ "-"%char :: (V ++ "-"%char :: R) ++ "."%char :: A)
                 (n + 1 + v + 1 + r + 1)
                 (n + 1 + v + 1 + r + 1
                  + (n + 1 + v + 1 + r + 1 + a - (n + 1 + v + 1 + r + 1))) = A).
  { replace (N ++ "-"%char :: (V ++ "-"%char :: R) ++ "."%char :: A)
      with ((N ++ "-"%char :: E ++ ["."%char]) ++ A ++ [])
      by (rewrite app_nil_r, <- HE, <- app_assoc; cbn [app]; rewrite <- app_assoc;
          reflexivity).
    apply substr_middle; [|lia].
    rewrite HE, !length_app. cbn. rewrite !length_app. cbn. lia. }
  rewrite S1, S2, S3, Hn, He, Ha.
  apply Z.eqb_neq in Hn0, He0, Ha0. rewrite Hn0, He0, Ha0. reflexivity.
Qed.

Lemma apply_filters_pool ev fs st :
  pool (sack (snd (apply_filters ev fs st))) = pool (sack st).
Proof.
  revert st. induction fs as [|f fs IH]; intros st; [done|].
  cbn [apply_filters]. unfold mbind, SE_bind, get, get_result, lift, set_impl, modify.
  cbn beta iota.
  destruct (result (impl st)) as [r|]; [|done].
  destruct (eval_filter ev (sack st) r f) as [m|e]; [|done].
  match goal with |- context [apply_filters ev fs ?s] =>
    specialize (IH s); destruct (apply_filters ev fs s) as [[[]|e] st']
  end; exact IH.
Qed.

Lemma initResult_pool st : pool (sack (snd (initResult st))) = pool (sack st).
Proof.
  unfold initResult.
  repeat match goal with |- context [if ?b then _ else _] => destruct b end;
    reflexivity.
Qed.

Lemma apply_pool ev st : pool (sack (snd (apply ev st))) = pool (sack st).
Proof.
  unfold apply, mbind, SE_bind, get. cbn beta iota.
  destruct (applied (impl st)); [done|].
  destruct (result (impl st)).
  - cbn. pose proof (apply_filters_pool ev (filters (impl st)) st) as H.
    destruct (apply_filters ev (filters (impl st)) st) as [[[]|e] st']; exact H.
  - pose proof (initResult_pool st) as Hi.
    destruct (initResult st) as [[[]|e] st1]; [|exact Hi].
    pose proof (apply_filters_pool ev (filters (impl st)) st1) as H.
    destruct (apply_filters ev (filters (impl st)) st1) as [[[]|e] st'];
      cbn in *; congruence.
Qed.

Lemma same_nevra_ids p id x :
  same_nevra {| name := s_name (pool_id2solvable p id);
                arch := s_arch (pool_id2solvable p id);
                evr := s_evr (pool_id2solvable p id); evr_str := [] |}
    (pool_id2solvable p x) = true
  <-> nevra_ids p x = nevra_ids p id.
Proof.
  unfold same_nevra, nevra_ids. cbn.
  rewrite !andb_true_iff, !Z.eqb_eq. split.
  - intros [[-> ->] ->]. reflexivity.
  - intros [= -> -> ->]. done.
Qed.

Lemma elem_of_pset_ids (r : gset Z) x : x ∈ pset_ids r <-> x ∈ r.
Proof. unfold pset_ids. by rewrite merge_sort_Permutation, elem_of_elements. Qed.

(** C7, amended: for a solvable whose name, evr and arch strings are
    interned under its ids and parse back ([wf_nevra]), a [NEVRA_STRICT]
    filter with [HY_EQ] on its canonical string returns without error and
    reduces the applied result to its members with the same name, arch and
    evr ids: to that solvable alone when it is in the result and no other
    member shares the three ids. *)
Theorem nevra_strict_canonical h ev st id r :
  let p := pool (sack st) in
  let canonical := pool_solvable2str p (pool_id2solvable p id) in
  let out := addFilter_str h ev HY_PKG_NEVRA_STRICT HY_EQ (Some canonical) st in
  wf_nevra p (pool_id2solvable p id) = true ->
  fst (apply ev st) = Returns tt ->
  result (impl (snd (apply ev st))) = Some r ->
  fst out = Returns None
  /\ exists r', result (impl (snd out)) = Some r'
      /\ (forall x, x ∈ r' <-> x ∈ r /\ nevra_ids p x = nevra_ids p id)
      /\ (id ∈ r ->
          (forall x, x ∈ r -> nevra_ids p x = nevra_ids p id -> x = id) ->
          r' = {[id]}).
Proof.
  intros p canonical out Hwf Ha Hr.
  pose proof (apply_pool ev st) as Hp. fold p in Hp.
  apply outcome_surj in Ha. revert Ha Hr Hp.
  generalize (snd (apply ev st)). intros st1 Ha Hr Hp.
  set (n := {| name := s_name (pool_id2solvable p id);
               arch := s_arch (pool_id2solvable p id);
               evr := s_evr (pool_id2solvable p id); evr_str := [] |}).
  assert (Hout : out = (Returns None,
            {| sack := sack st1;
               impl := set_result (Some (r ∩ nevra_result p HY_EQ true [n] r))
                         (impl st1) |})).
  { subst out. unfold addFilter_str.
    rewrite bool_decide_eq_true_2 by done.
    change (has_bit HY_EQ HY_EQ) with true. cbn [orb negb].
    unfold mbind at 1. unfold SE_bind at 1. rewrite Ha.
    unfold filterNevraStrict, mbind, SE_bind, get, lift, get_result, set_impl, modify.
    cbn beta iota. rewrite Hp.
    change (g_strv_length [Some canonical; None]) with 1%nat.
    change (has_bit HY_EQ HY_LT) with false. change (has_bit HY_EQ HY_GT) with false.
    change (has_bit HY_EQ HY_NOT) with false.
    cbn [orb negb take parse_matches]. unfold canonical at 1.
    rewrite (parse_canonical p _ Hwf). cbn [parse_matches app]. fold n.
    rewrite bool_decide_eq_false_2 by done. rewrite Hr. reflexivity. }
  rewrite Hout. cbn [fst snd impl result set_result].
  split; [reflexivity|]. eexists. split; [reflexivity|].
  assert (Hx : forall x,
    x ∈ r ∩ nevra_result p HY_EQ true [n] r <-> x ∈ r /\ nevra_ids p x = nevra_ids p id).
  { intros x. unfold nevra_result. cbn [length Nat.ltb Nat.leb].
    rewrite elem_of_intersection, elem_of_list_to_set, list_elem_of_In,
      List.filter_In, <- list_elem_of_In, elem_of_pset_ids.
    unfold n. rewrite same_nevra_ids. tauto. }
  split; [exact Hx|].
  intros Hid Huniq. apply set_eq. intros x. rewrite Hx, elem_of_singleton. split.
  - intros [H1 H2]. by apply Huniq.
  - intros ->. done.
Qed.

End NevraFacts.
(** ** The strict NEVRA filter on the kernel pool *)

Module NevraExamples.
Import Nevra NevraSpec Query QueryOps QueryProps NevraFacts.

Example kernel_nevra_strings :
  kernel_nevra 2 = cstr "kernel-2-1.x86_64" /\ kernel_nevra 3 = cstr "kernel-2-1.x86_64"
  /\ kernel_nevra 4 = cstr "p-1-1.x86_64"
  /\ wf_nevra Ex.kernel_pool (pool_id2solvable Ex.kernel_pool 2) = true.
Proof. repeat split; vm_compute; reflexivity. Qed.

Lemma nevra_strict_canonical_witness :
  fst (addFilter_str Ex.no_helpers Ex.no_evaluators HY_PKG_NEVRA_STRICT HY_EQ
         (Some (kernel_nevra 4)) kernel_query) = Returns None
  /\ exists r',
      result (impl (snd (addFilter_str Ex.no_helpers Ex.no_evaluators HY_PKG_NEVRA_STRICT
                           HY_EQ (Some (kernel_nevra 4)) kernel_query))) = Some r'
      /\ (forall x, x ∈ r' <->
            x ∈ ({[1; 2; 3; 4]} : gset Z)
            /\ nevra_ids Ex.kernel_pool x = nevra_ids Ex.kernel_pool 4)
      /\ (4 ∈ ({[1; 2; 3; 4]} : gset Z) ->
          (forall x, x ∈ ({[1; 2; 3; 4]} : gset Z) ->
                     nevra_ids Ex.kernel_pool x = nevra_ids Ex.kernel_pool 4 -> x = 4) ->
          r' = {[4]}).
Proof.
  apply (nevra_strict_canonical Ex.no_helpers Ex.no_evaluators kernel_query 4
           {[1; 2; 3; 4]}); vm_compute; reflexivity.
Defined.

(** The installed [kernel-2-1.x86_64] (2) and the available one (3) have
    the same canonical string: the filter keeps both. *)
Lemma nevra_strict_keeps_both :
  ~ nevra_strict_selects_one Ex.no_helpers Ex.no_evaluators kernel_query 2.
Proof.
  intros H. specialize (H {[1; 2; 3; 4]}).
  assert (Hres : result (impl (snd (addFilter_str Ex.no_helpers Ex.no_evaluators
                   HY_PKG_NEVRA_STRICT HY_EQ (Some (kernel_nevra 2)) kernel_query)))
                 = Some {[2; 3]}) by (vm_compute; reflexivity).
  unfold nevra_strict_selects_one, kernel_nevra in *. cbv zeta in H.
  change (pool (sack kernel_query)) with Ex.kernel_pool in H.
  rewrite Hres in H.
  assert (H3 : (3 : Z) ∈ ({[2]} : gset Z)).
  { assert (He : ({[2; 3]} : gset Z) = {[2]}).
    { assert (Hs : Some ({[2; 3]} : gset Z) = Some {[2]}).
      { apply H; [vm_compute; reflexivity | vm_compute; reflexivity | set_solver]. }
      by injection Hs. }
    rewrite <- He. set_solver. }
  set_solver.
Qed.

End NevraExamples.
(** ** More on the goal: what staging, lowering and running keep *)

Module GoalMore.
Import Goal Calls GoalProps GoalProps2 GoalFacts GoalFacts2.

Lemma pair_ind {A} (P : list A -> Prop) :
  P [] -> (forall x, P [x]) -> (forall x y l, P l -> P (x :: y :: l)) ->
  forall l, P l.
Proof.
  intros H0 H1 H2. fix IH 1. intros [|x [|y l]]; [exact H0 | apply H1 | apply H2, IH].
Qed.

Lemma pairs_app q1 q2 : pairs q1 -> pairs q2 -> pairs (q1 ++ q2).
Proof.
  unfold pairs. rewrite length_app, Nat.even_add. by intros -> ->.
Qed.

Lemma push_with_action_app job_sltr a job :
  exists added, push_with_action job_sltr a job = job ++ added /\ pairs added.
Proof.
  revert job. induction job_sltr as [| x | x y l IH] using pair_ind; intros job.
  - exists []. by rewrite app_nil_r.
  - exists []. by rewrite app_nil_r.
  - cbn [push_with_action]. destruct (IH (queue_push2 job (Z.lor x a) y)) as (ad & -> & Hp).
    exists ([Z.lor x a; y] ++ ad). unfold queue_push2. rewrite <- app_assoc.
    split; [done|]. by apply pairs_app.
Qed.

Lemma finish_returns ret job job' : finish ret job = Returns job' -> job' = job.
Proof. unfold finish. destruct (1 <? ret); congruence. Qed.

Lemma step_returns job x k job' :
  step job x k = Returns job' ->
  job' = job \/ exists job_sltr, k job_sltr = Returns job'.
Proof.
  unfold step. destruct x as [[ret js]|e]; [|done].
  destruct (negb (ret =? 0)).
  - intros H. left. by apply finish_returns in H.
  - intros H. right. eauto.
Qed.

Lemma sltrToJob_appends p sltr job a job' :
  sltrToJob p sltr job a = Returns job' ->
  exists added, job' = job ++ added /\ pairs added.
Proof.
  assert (Hsame : exists added, job = job ++ added /\ pairs added)
    by (exists []; by rewrite app_nil_r).
  unfold sltrToJob. destruct (negb _).
  - destruct (_ || _); [done|]. intros H%finish_returns. by subst.
  - intros H.
    repeat (apply step_returns in H as [->|[? H]]; [exact Hsame|]).
    apply finish_returns in H. subst job'. apply push_with_action_app.
Qed.

Lemma appends_keeps {A} (m : GM A) : keeps staging m -> appends m.
Proof. intros H g. exists []. by rewrite app_nil_r, H. Qed.

Lemma appends_bind {A B} (m : GM A) (k : A -> GM B) :
  appends m -> (forall a, appends (k a)) -> appends (m ≫= k).
Proof.
  intros Hm Hk g. unfold mbind, SE_bind. destruct (Hm g) as (ad1 & H1 & Hp1).
  destruct (m g) as [[a|e] g1]; cbn [snd] in *.
  - destruct (Hk a g1) as (ad2 & H2 & Hp2). exists (ad1 ++ ad2).
    rewrite H2, H1, <- app_assoc. split; [done|]. by apply pairs_app.
  - eauto.
Qed.

Lemma appends_stage_push2 a b : appends (stage_push2 a b).
Proof. intros g. exists [a; b]. done. Qed.

Lemma appends_stage_package pkg a : appends (stage_package pkg a).
Proof. intros g. eexists [_; _]. done. Qed.

Lemma appends_stage_selector sltr a : appends (stage_selector sltr a).
Proof.
  intros g. unfold stage_selector.
  destruct (sltrToJob _ _ _ _) as [job'|e] eqn:H.
  - apply sltrToJob_appends in H as (ad & -> & Hp). eauto.
  - exists []. by rewrite app_nil_r.
Qed.

Lemma appends_or_actions bits : appends (or_actions bits).
Proof. apply appends_keeps. intros g. reflexivity. Qed.

Lemma foldl_push2_app (a : Z) ids q :
  exists added,
    foldl (fun q id => queue_push2 q a id) q ids = q ++ added
    /\ length added = (2 * length ids)%nat.
Proof.
  revert q. induction ids as [|id ids IH]; intros q; cbn [foldl].
  - exists []. by rewrite app_nil_r.
  - destruct (IH (queue_push2 q a id)) as (ad & -> & Hl). exists ([a; id] ++ ad).
    unfold queue_push2. rewrite <- app_assoc. split; [done|].
    rewrite length_app, Hl. cbn. lia.
Qed.

Lemma keeps_staging_solve job flags : keeps staging (solve job flags).
Proof.
  unfold solve. keeps.
  - unfold allowUninstallAllButProtected. keeps. by destruct (protectedPkgs _).
  - unfold protectedInRemovals. keeps.
Qed.

Lemma keeps_staging_run flags : keeps staging (run flags).
Proof.
  unfold run, constructJob, or_actions. keeps.
  - unfold allowUninstallAllButProtected. keeps. by destruct (protectedPkgs _).
  - apply keeps_staging_solve.
Qed.

Ltac appends :=
  repeat match goal with
    | |- appends (stage_push2 _ _) => apply appends_stage_push2
    | |- appends (stage_package _ _) => apply appends_stage_package
    | |- appends (stage_selector _ _) => apply appends_stage_selector
    | |- appends (or_actions _) => apply appends_or_actions
    | |- appends (with_query _) => apply appends_keeps, keeps_with_query; reflexivity
    | |- appends get => apply appends_keeps, keeps_get
    | |- appends (mret _) => apply appends_keeps, keeps_ret
    | |- appends (run _) => apply appends_keeps, keeps_staging_run
    | |- appends (_ ≫= _) => apply appends_bind; [| intros ? ]
    end.

Lemma appends_exec ev c : appends (exec ev c).
Proof.
  destruct c; cbn [exec];
    unfold distupgrade_all, distupgrade_pkg, distupgrade_sltr, erase_pkg, erase_sltr,
      install_pkg, install_sltr, upgrade_all, upgrade_pkg, upgrade_sltr,
      lock, favor, disfavor, userInstalled_pkg; cbv zeta; appends.
  - (* userInstalled(PackageSet) *)
    intros g. unfold userInstalled_pset, modify. cbn [snd staging set_staging].
    destruct (foldl_push2_app (Z.lor SOLVER_SOLVABLE SOLVER_USERINSTALLED)
                (pset_ids pset) (staging g)) as (ad & -> & Hl).
    exists ad. split; [done|]. unfold pairs. rewrite Hl. by rewrite Nat.even_mul.
  - apply appends_keeps. intros g. reflexivity.
  - apply appends_keeps. intros g. reflexivity.
  - apply appends_keeps. intros g. reflexivity.
  - apply appends_keeps. intros g. unfold addProtected, modify. cbn [snd].
    by destruct (protectedPkgs g).
  - apply appends_keeps. intros g. reflexivity.
  - apply appends_keeps. intros g. reflexivity.
Qed.

(** X1: whatever is called on a goal, intents, policy setters or [run],
    returning or throwing, the staging queue keeps what it held and grows
    by whole (action, id) pairs only. *)
Theorem staging_grows_by_pairs ev calls g :
  exists added,
    staging (exec_all ev calls g) = staging g ++ added /\ pairs added.
Proof.
  revert g. induction calls as [|c calls IH]; intros g; cbn [exec_all foldl].
  - exists []. by rewrite app_nil_r.
  - destruct (appends_exec ev c g) as (ad1 & H1 & Hp1).
    destruct (IH (snd (exec ev c g))) as (ad2 & H2 & Hp2).
    unfold exec_all in H2. rewrite H2, H1, <- app_assoc.
    exists (ad1 ++ ad2). split; [done|]. by apply pairs_app.
Qed.

(** *** [run] and the staged request *)

Lemma keeps_run {B} (proj : Impl -> B) flags :
  (forall x g, proj (set_actions x g) = proj g) ->
  (forall x g, proj (set_trans x g) = proj g) ->
  (forall x g, proj (set_solv x g) = proj g) ->
  (forall x g, proj (set_removalOfProtected x g) = proj g) ->
  (forall g, proj (set_protectedPkgs (Some ∅) g) = proj g \/ is_Some (protectedPkgs g)) ->
  keeps proj (run flags).
Proof.
  intros H1 H2 H3 H4 H5.
  assert (Hallow : forall job fl, keeps proj (allowUninstallAllButProtected job fl)).
  { intros job fl. unfold allowUninstallAllButProtected. keeps.
    destruct (protectedPkgs g) eqn:Hp; [done|]. destruct (H5 g) as [H|[? H]]; [done|].
    congruence. }
  unfold run, constructJob, or_actions. keeps; [apply Hallow | apply H1 |].
  unfold solve. keeps; auto. unfold protectedInRemovals. keeps; auto.
Qed.

(** X2: [run] works on a copy of the staging queue: it leaves the staged
    jobs, the packages excluded from weak dependencies, the sack and the
    kernel protection as they were, adds its flags to the actions and
    keeps the members of the protected set. *)
Theorem run_keeps_request flags g :
  staging (snd (run flags g)) = staging g
  /\ exclude_from_weak (snd (run flags g)) = exclude_from_weak g
  /\ sack (snd (run flags g)) = sack g
  /\ protect_running_kernel (snd (run flags g)) = protect_running_kernel g
  /\ default ∅ (protectedPkgs (snd (run flags g))) = default ∅ (protectedPkgs g)
  /\ actions (snd (run flags g)) = Z.lor (actions g) flags.
Proof.
  repeat split.
  - apply keeps_staging_run.
  - apply (keeps_run exclude_from_weak); auto.
  - apply (keeps_run sack); auto.
  - apply (keeps_run protect_running_kernel); auto.
  - apply (keeps_run (fun g => default ∅ (protectedPkgs g))); auto.
    intros g0. destruct (protectedPkgs g0) eqn:Hp; [right; eauto | by left].
  - unfold run, mbind, SE_bind.
    destruct (constructJob_returns flags g) as [job ->].
    unfold or_actions, modify. rewrite keeps_solve. cbn.
    unfold with_protected. by destruct (protectedPkgs g).
Qed.

(** *** Selectors that are malformed or match nothing *)

(** X3: a selector whose name filter holds no match or more than one is
    refused with [BAD_SELECTOR] and the message on multiple match objects;
    one whose name filter compares by something else than [HY_EQ] or
    [HY_GLOB] is refused with the message on the comparison type. *)
Theorem sltrToJob_name_malformed p sltr job a f :
  getFilterName sltr = Some f ->
  (length (matches f) <> 1%nat ->
   sltrToJob p sltr job a =
     Throws (GoalError
       "Ill-formed Selector, presence of multiple match objects in the filter"
       DNF_ERROR_BAD_SELECTOR))
  /\ (length (matches f) = 1%nat -> cmpType f <> HY_EQ -> cmpType f <> HY_GLOB ->
      sltrToJob p sltr job a =
        Throws (GoalError
          "Ill-formed Selector used for the operation, incorrect comparison type"
          DNF_ERROR_BAD_SELECTOR)).
Proof.
  intros Hf.
  assert (Hreq : sltrToJob p sltr job a =
    step job (filterPkgToJob (getPkgs sltr) []) (fun job_sltr =>
    step job (filterNameToJob p (getFilterName sltr) job_sltr) (fun job_sltr =>
    step job (filterFileToJob p (getFilterFile sltr) job_sltr) (fun job_sltr =>
    step job (filterProvidesToJob p (getFilterProvides sltr) job_sltr) (fun job_sltr =>
    step job (filterArchToJob p (getFilterArch sltr) job_sltr) (fun job_sltr =>
    step job (filterEvrToJob p (getFilterEvr sltr) job_sltr) (fun job_sltr =>
    step job (filterReponameToJob p (getFilterReponame sltr) job_sltr) (fun job_sltr =>
    finish 0 (push_with_action job_sltr a job))))))))).
  { unfold sltrToJob. rewrite Hf. rewrite bool_decide_eq_true_2 by eauto. reflexivity. }
  rewrite Hreq, Hf. unfold filterPkgToJob. split.
  - intros Hl. apply Nat.eqb_neq in Hl.
    destruct (getPkgs sltr =? 0); cbn [step mret SE_ret negb Z.eqb];
      unfold filterNameToJob; rewrite Hl; reflexivity.
  - intros Hl He Hg. apply Z.eqb_neq in He, Hg.
    destruct (getPkgs sltr =? 0); cbn [step mret SE_ret negb Z.eqb];
      unfold filterNameToJob; rewrite Hl, He, Hg; reflexivity.
Qed.

(** X4: lowering a selector with a name (and optionally an arch) never
    fails: it appends the single job on that name (restricted to the arch)
    when the pool knows the name and the arch, and appends nothing, without
    any error, when the name or the arch is unknown. *)
Theorem sltrToJob_name_arch p n ar job a :
  sltrToJob p (name_arch_selector n ar) job a =
  Returns
    (let id := pool_str2id p n in
     match ar with
     | None =>
         if id =? 0 then job else job ++ [Z.lor SOLVER_SOLVABLE_NAME a; id]
     | Some arch =>
         let archid := str2archid p arch in
         if (id =? 0) || (archid =? 0) then job
         else job ++ [Z.lor (Z.lor SOLVER_SOLVABLE_NAME SOLVER_SETARCH) a;
                      pool_rel2id p id archid REL_ARCH]
     end).
Proof.
  unfold sltrToJob, name_arch_selector.
  cbn [getFilterName getFilterProvides getFilterFile getPkgs getFilterArch getFilterEvr
       getFilterReponame].
  rewrite (bool_decide_eq_true_2 (is_Some (Some _))) by eauto.
  cbn [orb negb]. unfold filterPkgToJob, filterNameToJob, filterFileToJob,
    filterProvidesToJob, filterEvrToJob, filterReponameToJob.
  cbn [Z.eqb step mret SE_ret negb matches length Nat.eqb cmpType head default
       from_option id match_str].
  change (HY_EQ =? HY_EQ) with true. cbn iota.
  destruct (pool_str2id p n =? 0) eqn:Hid; cbn [negb step Z.eqb].
  - destruct ar as [arch|]; cbn [fmap option_fmap option_map filterArchToJob].
    + cbn [cmpType matches length Nat.eqb negb]. change (HY_EQ =? HY_EQ) with true.
      cbn [negb head default from_option id match_str].
      destruct (str2archid p arch =? 0); reflexivity.
    + reflexivity.
  - destruct ar as [arch|]; cbn [fmap option_fmap option_map filterArchToJob].
    + cbn [cmpType matches length Nat.eqb negb]. change (HY_EQ =? HY_EQ) with true.
      cbn [negb head default from_option id match_str].
      destruct (str2archid p arch =? 0); [reflexivity|].
      unfold queue_push2. cbn [app rewrite_names].
      change (Z.land SOLVER_SOLVABLE_NAME SOLVER_SELECTMASK =? SOLVER_SOLVABLE_NAME)
        with true.
      reflexivity.
    + reflexivity.
Qed.

(** *** Protected packages *)



Lemma listResults_trans g g' t1 t2 :
  is_Some (trans g) -> trans g' = trans g -> listResults g' t1 t2 = listResults g t1 t2.
Proof. intros [t Ht] H. unfold listResults. by rewrite H, Ht. Qed.

(** Once a transaction and a protected set exist, [protectedInRemovals]
    answers [false] only when the transaction erases or obsoletes nothing
    protected. *)
Lemma protectedInRemovals_false g t prot g' :
  trans g = Some t -> protectedPkgs g = Some prot ->
  protectedInRemovals g = (Returns false, g') ->
  trans g' = Some t
  /\ exists e o, listErasures g = Returns e /\ listObsoleted g = Returns o
      /\ forall id, id ∈ e ∪ o ->
           (id ∉ prot)
           /\ (protect_running_kernel g = true -> id <> running_kernel (sack g)).
Proof.
  intros Ht Hp. unfold protectedInRemovals, mbind, SE_bind, get, lift, modify.
  cbn beta iota. rewrite !Hp.
  unfold listErasures, listObsoleted.
  assert (He : exists e, listResults g SOLVER_TRANSACTION_ERASE 0 = Returns e)
    by (unfold listResults; rewrite Ht; eauto).
  assert (Ho : exists o, listResults g SOLVER_TRANSACTION_OBSOLETED 0 = Returns o)
    by (unfold listResults; rewrite Ht; eauto).
  destruct He as [e He], Ho as [o Ho]. rewrite He, Ho.
  destruct (_ && _) eqn:Hb.
  - intros [= <-]. split; [done|]. exists e, o. split; [done|]. split; [done|].
    apply andb_true_iff in Hb as [H1 H2]. rewrite pset_size_0 in H1.
    apply bool_decide_eq_true in H1. apply negb_true_iff in H2. subst prot.
    intros id _. split; [set_solver|]. congruence.
  - cbn beta iota. intros [= Hk <-]. cbn [trans set_removalOfProtected].
    split; [done|]. exists e, o. split; [done|]. split; [done|].
    apply negb_false_iff, bool_decide_eq_true in Hk.
    intros id Hid.
    assert (Hn : id ∉ filter (fun id => id ∈ prot \/ id = protectedRunningKernel g) (e ∪ o))
      by (rewrite Hk; set_solver).
    rewrite elem_of_filter in Hn. split.
    + intros Hin. apply Hn. split; [by left|done].
    + intros Hprk Heq. apply Hn. split; [|done]. right.
      unfold protectedRunningKernel. by rewrite Hprk.
Qed.

Lemma solve_false job flags g prot g' :
  protectedPkgs g = Some prot ->
  solve job flags g = (Returns false, g') ->
  exists g1 t, trans g1 = Some t /\ protectedPkgs g1 = Some prot
    /\ sack g1 = sack g /\ protect_running_kernel g1 = protect_running_kernel g
    /\ protectedInRemovals g1 = (Returns false, g').
Proof.
  intros Hp. unfold solve, mbind, SE_bind, modify, get, mret, SE_ret. cbn beta iota.
  destruct (solver_problem_count _ =? 0) eqn:Hc1; cbn [negb andb]; cbn beta iota;
    [|discriminate].
  destruct (limitInstallonlyPackages _ _ _) as [[] job2]; cbn [negb andb]; cbn beta iota.
  - match goal with
    | |- context [allowUninstallAllButProtected ?j ?f ?st] =>
        destruct (allowUninstall_returns j f st) as [job3 Hj]; rewrite Hj;
        assert (Hwp : with_protected st = st)
          by (unfold with_protected; cbn; by rewrite Hp);
        rewrite Hwp; clear Hj Hwp
    end.
    cbn [negb andb]; cbn beta iota.
    match goal with
    | |- context [solver_problem_count ?s =? 0] =>
        destruct (solver_problem_count s =? 0) eqn:Hc2
    end; cbn [negb andb]; cbn beta iota; [|discriminate].
    match goal with
    | |- context [protectedInRemovals ?st] =>
        destruct (protectedInRemovals st) as [[b|e] g2] eqn:Hr; [|discriminate];
        intros [= Hb Hg]; subst b g2; exists st; eexists;
        split; [reflexivity|]; split; [exact Hp|]; split; [reflexivity|];
        split; [reflexivity|exact Hr]
    end.
  - match goal with
    | |- context [protectedInRemovals ?st] =>
        destruct (protectedInRemovals st) as [[b|e] g2] eqn:Hr; [|discriminate];
        intros [= Hb Hg]; subst b g2; exists st; eexists;
        split; [reflexivity|]; split; [exact Hp|]; split; [reflexivity|];
        split; [reflexivity|exact Hr]
    end.
Qed.

(** X6: when [run] answers success, the transaction it stored erases and
    obsoletes no member of the protected set and, when the running kernel
    is protected, not the running kernel. *)
Theorem run_success_spares_protected flags g :
  fst (run flags g) = Returns false ->
  exists e o,
    listErasures (snd (run flags g)) = Returns e
    /\ listObsoleted (snd (run flags g)) = Returns o
    /\ forall id, id ∈ e ∪ o ->
         (id ∉ default ∅ (protectedPkgs g))
         /\ (protect_running_kernel g = true -> id <> running_kernel (sack g)).
Proof.
  intros Hf.
  assert (Hrun : run flags g = (Returns false, snd (run flags g)))
    by (destruct (run flags g); cbn in *; by subst).
  revert Hrun. generalize (snd (run flags g)). clear Hf. intros g' Hrun.
  unfold run in Hrun. destruct (constructJob_returns flags g) as [job Hjob].
  unfold mbind at 1, SE_bind at 1 in Hrun. rewrite Hjob in Hrun.
  unfold mbind at 1, SE_bind at 1 in Hrun. unfold or_actions, modify in Hrun.
  destruct (with_protected_some g) as [prot Hp].
  apply (solve_false _ _ _ prot) in Hrun as (g1 & t & Ht & Hp1 & Hs & Hk & Hr); [|done].
  destruct (protectedInRemovals_false g1 t prot g' Ht Hp1 Hr) as (Ht' & e & o & He & Ho & H).
  exists e, o.
  split; [unfold listErasures in *; rewrite <- He; apply listResults_trans; [eauto|congruence]|].
  split; [unfold listObsoleted in *; rewrite <- Ho; apply listResults_trans; [eauto|congruence]|].
  assert (Hd : default ∅ (protectedPkgs g) = prot).
  { unfold with_protected in Hp.
    destruct (protectedPkgs g) eqn:E; cbn in Hp; [rewrite E in Hp|]; cbn; congruence. }
  assert (Hs' : sack g1 = sack g)
    by (rewrite Hs; unfold with_protected; by destruct (protectedPkgs g)).
  assert (Hk' : protect_running_kernel g1 = protect_running_kernel g)
    by (rewrite Hk; unfold with_protected; by destruct (protectedPkgs g)).
  rewrite Hd, <- Hs', <- Hk'. exact H.
Qed.

(** X7: after [run] a solver exists; the goal holds a transaction exactly
    when that solver reports no problem; [run] answers failure whenever it
    reports one and stores a transaction whenever it answers success. *)
Theorem run_transaction_iff flags g :
  exists s,
    solv (snd (run flags g)) = Some s
    /\ (is_Some (trans (snd (run flags g))) <-> solver_problem_count s = 0)
    /\ (solver_problem_count s <> 0 -> fst (run flags g) = Returns true)
    /\ (fst (run flags g) = Returns false -> is_Some (trans (snd (run flags g)))).
Proof.
  destruct (run_cases flags g) as (b & g' & s & Hr & Hs & Hc). rewrite Hr. cbn [fst snd].
  exists s. split; [done|].
  destruct Hc as [(-> & Ht & _ & Hn)|(Ht & Hz & _)].
  - rewrite Ht. split; [|split]; [|done|done].
    split; [intros [? ?]; done | done].
  - split; [|split]; [|done|done]. split; done.
Qed.

(** *** Installonly limits *)

Lemma foldl_push_pairs {A} (f : Queue -> A -> Queue) (l : list A) job :
  (forall q x, exists a b, f q x = q ++ [a; b]) ->
  exists added, foldl f job l = job ++ added /\ pairs added.
Proof.
  intros Hf. revert job. induction l as [|x l IH]; intros job; cbn [foldl].
  - exists []. by rewrite app_nil_r.
  - destruct (Hf job x) as (a & b & ->). destruct (IH (job ++ [a; b])) as (ad & -> & Hp).
    exists ([a; b] ++ ad). rewrite <- app_assoc. split; [done|]. by apply pairs_app.
Qed.

Lemma limit_runs_appends p limit fuel rq reresolve job :
  exists added,
    snd (limit_runs p limit fuel rq reresolve job) = job ++ added
    /\ pairs added
    /\ (fst (limit_runs p limit fuel rq reresolve job) = false ->
        added = [] /\ reresolve = false).
Proof.
  revert rq reresolve job. induction fuel as [|fuel IH]; intros rq reresolve job.
  - exists []. by rewrite app_nil_r.
  - cbn [limit_runs]. destruct rq as [|x rq]; [exists []; by rewrite app_nil_r|].
    destruct (same_name_subqueue p (x :: rq)) as [same_names rq'].
    destruct (_ <=? limit); [apply IH|].
    match goal with
    | |- context [foldl ?f job ?l] =>
        destruct (foldl_push_pairs f l job) as (ad1 & -> & Hp1);
          [intros q [j id]; eexists _, _; reflexivity|]
    end.
    destruct (IH rq' true (job ++ ad1)) as (ad2 & H2 & Hp2 & Hf).
    exists (ad1 ++ ad2). rewrite H2, <- app_assoc. split; [done|].
    split; [by apply pairs_app|]. intros H. by destruct (Hf H).
Qed.

(** X8: [limitInstallonlyPackages] only appends whole pairs to the job;
    when it asks for no second solver run it has appended nothing, and with
    an installonly limit of 0 it never asks for one. *)
Theorem limitInstallonly_appends sk solv_ job :
  exists added,
    snd (limitInstallonlyPackages sk solv_ job) = job ++ added
    /\ pairs added
    /\ (fst (limitInstallonlyPackages sk solv_ job) = false -> added = [])
    /\ (installonly_limit sk = 0 ->
        fst (limitInstallonlyPackages sk solv_ job) = false).
Proof.
  unfold limitInstallonlyPackages.
  destruct (installonly_limit sk =? 0) eqn:Hl.
  { exists []. rewrite app_nil_r. done. }
  apply Z.eqb_neq in Hl.
  assert (H : forall onlies re job0,
    exists added,
      snd (foldl
        (fun '(reresolve, job) only =>
           let q := List.filter
                      (fun x => is_package (pool sk) x
                                && (0 <? solver_get_decisionlevel solv_ x))
                      (whatprovides (pool sk) only) in
           if Z.of_nat (length q) <=? installonly_limit sk then (reresolve, job) else
           if negb (existsb (fun id => negb (in_installed (pool sk)
                                               (pool_id2solvable (pool sk) id))) q)
           then (reresolve, job) else
           let q := solv_sort (pool sk) (sort_packages (pool sk) (running_kernel sk)) q in
           limit_runs (pool sk) (installonly_limit sk) (length q) (rev q) reresolve job)
        (re, job0) onlies) = job0 ++ added
      /\ pairs added
      /\ (fst (foldl
        (fun '(reresolve, job) only =>
           let q := List.filter
                      (fun x => is_package (pool sk) x
                                && (0 <? solver_get_decisionlevel solv_ x))
                      (whatprovides (pool sk) only) in
           if Z.of_nat (length q) <=? installonly_limit sk then (reresolve, job) else
           if negb (existsb (fun id => negb (in_installed (pool sk)
                                               (pool_id2solvable (pool sk) id))) q)
           then (reresolve, job) else
           let q := solv_sort (pool sk) (sort_packages (pool sk) (running_kernel sk)) q in
           limit_runs (pool sk) (installonly_limit sk) (length q) (rev q) reresolve job)
        (re, job0) onlies) = false -> added = [] /\ re = false)).
  { induction onlies as [|only onlies IH]; intros re job0; cbn [foldl].
    - exists []. by rewrite app_nil_r.
    - cbv zeta. destruct (_ <=? installonly_limit sk); [apply IH|].
      destruct (negb (existsb _ _)); [apply IH|].
      match goal with
      | |- context [limit_runs ?p ?l ?f ?rq re job0] =>
          destruct (limit_runs_appends p l f rq re job0) as (ad1 & H1 & Hp1 & Hf1);
          destruct (limit_runs p l f rq re job0) as [re1 job1]
      end.
      cbn [fst snd] in *. subst job1.
      destruct (IH re1 (job0 ++ ad1)) as (ad2 & H2 & Hp2 & Hf2).
      exists (ad1 ++ ad2). rewrite H2, <- app_assoc. split; [done|].
      split; [by apply pairs_app|]. intros Hfalse.
      destruct (Hf2 Hfalse) as [-> ->]. destruct (Hf1 eq_refl) as [-> ->]. done. }
  destruct (H (installonly sk) false job) as (ad & H1 & Hp & Hf).
  exists ad. split; [done|]. split; [done|]. split; [|done].
  intros Hfalse. by destruct (Hf Hfalse).
Qed.

(** *** The result lists *)

Lemma foldl_cond_union (c : Id -> bool) l (acc : gset Z) :
  foldl (fun plist p => if c p then {[p]} ∪ plist else plist) acc l
  = acc ∪ list_to_set (List.filter c l).
Proof.
  revert acc. induction l as [|x l IH]; intros acc; cbn [foldl List.filter].
  - set_solver.
  - rewrite IH. destruct (c x); set_solver.
Qed.

Lemma elem_of_listResults g t t1 t2 e p :
  trans g = Some t -> listResults g t1 t2 = Returns e -> p ∈ e ->
  p ∈ steps t
  /\ (step_type t t1 p = t1 \/ (t2 <> 0 /\ step_type t t1 p = t2)).
Proof.
  intros Ht. unfold listResults. rewrite Ht. intros [= <-]. cbv zeta.
  fold (step_type t t1). rewrite foldl_cond_union.
  rewrite elem_of_union, elem_of_list_to_set, list_elem_of_In, List.filter_In,
    <- list_elem_of_In, orb_true_iff, andb_true_iff, negb_true_iff, !Z.eqb_eq, Z.eqb_neq.
  intros [H|H]; [set_solver|done].
Qed.

(** X9: with a transaction, the lists of installs, reinstalls, upgrades,
    downgrades and erasures hold steps of that transaction and no step is
    in two of them. *)
Theorem result_lists_disjoint g t :
  trans g = Some t ->
  exists i r u d e,
    listInstalls g = Returns i /\ listReinstalls g = Returns r
    /\ listUpgrades g = Returns u /\ listDowngrades g = Returns d
    /\ listErasures g = Returns e
    /\ i ∪ r ∪ u ∪ d ∪ e ⊆ list_to_set (steps t)
    /\ i ## r /\ i ## u /\ i ## d /\ i ## e
    /\ r ## u /\ r ## d /\ r ## e /\ u ## d /\ u ## e /\ d ## e.
Proof.
  intros Ht.
  assert (Hex : forall t1 t2, exists x, listResults g t1 t2 = Returns x)
    by (intros; unfold listResults; rewrite Ht; eauto).
  unfold listInstalls, listReinstalls, listUpgrades, listDowngrades, listErasures.
  destruct (Hex SOLVER_TRANSACTION_INSTALL SOLVER_TRANSACTION_OBSOLETES) as [i Hi].
  destruct (Hex SOLVER_TRANSACTION_REINSTALL 0) as [r Hr].
  destruct (Hex SOLVER_TRANSACTION_UPGRADE 0) as [u Hu].
  destruct (Hex SOLVER_TRANSACTION_DOWNGRADE 0) as [d Hd].
  destruct (Hex SOLVER_TRANSACTION_ERASE 0) as [e He].
  exists i, r, u, d, e. rewrite Hi, Hr, Hu, Hd, He.
  repeat (split; [reflexivity|]).
  pose proof (fun p => elem_of_listResults g t _ _ i p Ht Hi) as Ei.
  pose proof (fun p => elem_of_listResults g t _ _ r p Ht Hr) as Er.
  pose proof (fun p => elem_of_listResults g t _ _ u p Ht Hu) as Eu.
  pose proof (fun p => elem_of_listResults g t _ _ d p Ht Hd) as Ed.
  pose proof (fun p => elem_of_listResults g t _ _ e p Ht He) as Ee.
  unfold step_type in Ei, Er, Eu, Ed, Ee.
  change (SOLVER_TRANSACTION_INSTALL =? SOLVER_TRANSACTION_OBSOLETED) with false in Ei.
  change (SOLVER_TRANSACTION_REINSTALL =? SOLVER_TRANSACTION_OBSOLETED) with false in Er.
  change (SOLVER_TRANSACTION_UPGRADE =? SOLVER_TRANSACTION_OBSOLETED) with false in Eu.
  change (SOLVER_TRANSACTION_DOWNGRADE =? SOLVER_TRANSACTION_OBSOLETED) with false in Ed.
  change (SOLVER_TRANSACTION_ERASE =? SOLVER_TRANSACTION_OBSOLETED) with false in Ee.
  cbn iota in Ei, Er, Eu, Ed, Ee.
  split.
  { intros p. rewrite !elem_of_union, elem_of_list_to_set.
    intros [[[[H|H]|H]|H]|H];
      [apply Ei in H|apply Er in H|apply Eu in H|apply Ed in H|apply Ee in H];
      by destruct H. }
  repeat split; intros p H1 H2;
    first [apply Ei in H1 | apply Er in H1 | apply Eu in H1 | apply Ed in H1];
    first [apply Er in H2 | apply Eu in H2 | apply Ed in H2 | apply Ee in H2];
    destruct H1 as [_ [H1|[_ H1]]], H2 as [_ [H2|[? H2]]]; try done;
    rewrite H1 in H2; discriminate H2.
Qed.

End GoalMore.
(** ** Copies of a goal and problem reports *)

Module GoalReportFacts.
Import Goal Calls GoalProps GoalProps2 GoalReport GoalFacts GoalFacts2.

Lemma copy_forget g : Impl_copy (protect_running_kernel g) g = forget g.
Proof. reflexivity. Qed.

(** [solve] starts from scratch: the solver and the transaction that the
    goal holds do not matter to it. *)
Lemma solve_forget job flags g : solve job flags (forget g) = solve job flags g.
Proof. reflexivity. Qed.

Lemma or_actions_forget flags g :
  or_actions flags (forget g)
  = (fst (or_actions flags g), forget (snd (or_actions flags g))).
Proof. reflexivity. Qed.

Lemma constructJob_forget flags g :
  constructJob flags (forget g)
  = (fst (constructJob flags g), forget (snd (constructJob flags g))).
Proof.
  unfold constructJob, allowUninstallAllButProtected, mbind, SE_bind, get, modify, mret, SE_ret.
  cbn beta iota. change (protectedPkgs (forget g)) with (protectedPkgs g).
  destruct (protectedPkgs g); cbn beta iota;
    destruct (has_bit DNF_ALLOW_UNINSTALL flags); reflexivity.
Qed.

(** X10: a copy of a goal (with the [protect_running_kernel] of its
    source) holds the request of the source but neither its solver nor its
    transaction: it answers [hasActions] and [jobLength] as the source,
    its result lists raise [INTERNAL_ERROR] until it is run, and running it
    gives the answer that running the source gives, and, when that run
    returns, the very same goal state: [run] does not depend on an earlier
    run. *)
Theorem copy_runs_like_source flags g :
  (forall X, hasActions (Impl_copy (protect_running_kernel g) g) X = hasActions g X)
  /\ jobLength (Impl_copy (protect_running_kernel g) g) = jobLength g
  /\ (forall t1 t2, listResults (Impl_copy (protect_running_kernel g) g) t1 t2 =
        Throws (GoalError "no solv in the goal" DNF_ERROR_INTERNAL_ERROR))
  /\ fst (run flags (Impl_copy (protect_running_kernel g) g)) = fst (run flags g)
  /\ (forall b, fst (run flags g) = Returns b ->
      snd (run flags (Impl_copy (protect_running_kernel g) g)) = snd (run flags g)).
Proof.
  split; [done|]. split; [done|]. split; [done|].
  rewrite copy_forget. unfold run, mbind, SE_bind.
  rewrite constructJob_forget.
  destruct (constructJob flags g) as [[job|e] g1]; cbn [fst snd].
  - rewrite or_actions_forget.
    destruct (or_actions flags g1) as [[[]|e] g2]; cbn [fst snd].
    + rewrite solve_forget. done.
    + split; [done|]. intros b H. discriminate H.
  - split; [done|]. intros b H. discriminate H.
Qed.

(** *** string_join *)

Lemma string_app_cons x (a b : string) : String x a +:+ b = String x (a +:+ b).
Proof. reflexivity. Qed.

Lemma string_app_assoc (a b c : string) : (a +:+ b) +:+ c = a +:+ (b +:+ c).
Proof.
  induction a as [|x a IH]; [reflexivity|]. by rewrite !string_app_cons, IH.
Qed.

Lemma string_app_nil_r (a : string) : a +:+ "" = a.
Proof. induction a as [|x a IH]; [reflexivity|]. by rewrite string_app_cons, IH. Qed.

Lemma string_join_loop_app rest delim output :
  string_join_loop rest delim output
  = output +:+ string_join_loop rest delim "".
Proof.
  revert output. induction rest as [|x rest IH]; intros output; cbn [string_join_loop].
  - by rewrite string_app_nil_r.
  - rewrite IH, (IH (("" +:+ delim) +:+ x)).
    change ("" +:+ delim) with delim. by rewrite !string_app_assoc.
Qed.

Lemma string_join_cons x rest delim :
  rest <> [] ->
  string_join (x :: rest) delim = x +:+ delim +:+ string_join rest delim.
Proof.
  destruct rest as [|y rest]; [done|]. intros _. cbn [string_join string_join_loop].
  rewrite string_join_loop_app, (string_join_loop_app rest delim y).
  by rewrite !string_app_assoc.
Qed.

(** X11: [string_join] puts the delimiter between the elements and
    nowhere else: joining two non-empty lists one after the other is
    joining each and putting one delimiter between the two; the empty list
    joins to the empty string and a single element to itself. *)
Theorem string_join_app l1 l2 delim :
  string_join [] delim = ""
  /\ (forall x, string_join [x] delim = x)
  /\ (l1 <> [] -> l2 <> [] ->
      string_join (l1 ++ l2) delim
      = string_join l1 delim +:+ delim +:+ string_join l2 delim).
Proof.
  split; [done|]. split; [done|]. intros H1 H2.
  induction l1 as [|x l1 IH]; [done|]. destruct l1 as [|y l1].
  - cbn [app]. by rewrite string_join_cons.
  - change ((x :: y :: l1) ++ l2) with (x :: ((y :: l1) ++ l2)).
    rewrite string_join_cons by done. rewrite IH by done.
    rewrite (string_join_cons x (y :: l1)) by done.
    by rewrite !string_app_assoc.
Qed.

(** *** formatAllProblemRules *)

Lemma format_loop_app format_d prefix rest p index output :
  format_loop format_d prefix (rest ++ [p]) index output
  = format_loop format_d prefix rest index output
    +:+ String "010" " "
    +:+ format_d prefix (index + Z.of_nat (length rest))
    +:+ string_join p (String "010" "  - ").
Proof.
  revert index output. induction rest as [|q rest IH]; intros index output.
  - cbn [app format_loop length]. rewrite Z.add_0_r. by rewrite !string_app_assoc.
  - cbn [app format_loop length]. rewrite IH.
    replace (index + 1 + Z.of_nat (length rest)) with (index + Z.of_nat (S (length rest)))
      by lia.
    reflexivity.
Qed.

(** X12: [formatAllProblemRules] answers the empty string for no problem
    and labels a single problem without a number; from two problems on
    they are numbered from 1 in their order, so that one more problem at
    the end adds a line break, its label with the next number and its
    joined lines to what the others format to. *)
Theorem formatAllProblemRules_numbers gettext format_d ps p :
  formatAllProblemRules gettext format_d [] = ""
  /\ (forall q, formatAllProblemRules gettext format_d [q]
               = gettext "Problem: " +:+ string_join q (String "010" "  - "))
  /\ ((2 <= length ps)%nat ->
      formatAllProblemRules gettext format_d (ps ++ [p])
      = formatAllProblemRules gettext format_d ps
        +:+ String "010" " "
        +:+ format_d (gettext "Problem %d: ") (Z.of_nat (length ps) + 1)
        +:+ string_join p (String "010" "  - ")).
Proof.
  split; [done|]. split; [done|]. intros Hl.
  destruct ps as [|first [|second rest]]; [cbn in Hl; lia|cbn in Hl; lia|].
  unfold formatAllProblemRules. cbn [app length Nat.eqb]. cbv zeta.
  change (second :: rest ++ [p]) with ((second :: rest) ++ [p]).
  rewrite format_loop_app. cbn [length].
  replace (2 + Z.of_nat (S (length rest))) with (Z.of_nat (S (S (length rest))) + 1) by lia.
  reflexivity.
Qed.

(** *** describeAllProblemRules *)

Lemma all_present_spec e e' b :
  e <> [] ->
  all_present e e' b = true <-> forall line, line ∈ e -> line ∈ e'.
Proof.
  assert (Hex : forall line, existsb (fun s => String.eqb s line) e' = true <-> line ∈ e').
  { intros line. rewrite existsb_exists. split.
    - intros (s & Hs%list_elem_of_In & ->%String.eqb_eq). done.
    - intros H. exists line. split; [by apply list_elem_of_In | apply String.eqb_refl]. }
  revert b. induction e as [|x e IH]; intros b Hne; [done|].
  cbn [all_present]. destruct (existsb _ e') eqn:Hx; cbn [negb].
  - apply Hex in Hx. destruct e as [|y e].
    + cbn. split; [|done]. intros _ line ->%list_elem_of_singleton. done.
    + rewrite IH by done. split.
      * intros H line [->|Hin]%elem_of_cons; auto.
      * intros H line Hin. apply H. apply elem_of_cons. by right.
  - split; [done|]. intros H.
    assert (Hin : x ∈ e') by (apply H, elem_of_cons; by left).
    apply Hex in Hin. congruence.
Qed.

Lemma is_unique_spec e output :
  e <> [] ->
  is_unique e output = false <-> exists e', e' ∈ output /\ covers e' e.
Proof.
  intros Hne. unfold is_unique.
  assert (H : forall u,
    foldl (fun unique problemsSaved =>
             if negb (length e =? length problemsSaved)%nat then unique
             else if all_present e problemsSaved false then false else unique)
      u output = false <-> u = false \/ exists e', e' ∈ output /\ covers e' e).
  { induction output as [|s output IH]; intros u; cbn [foldl].
    - split; [by left|]. intros [H|(e' & H & _)]; [done|]. by apply elem_of_nil in H.
    - rewrite IH. destruct (length e =? length s)%nat eqn:Hl; cbn [negb].
      + apply Nat.eqb_eq in Hl. destruct (all_present e s false) eqn:Ha.
        * pose proof (proj1 (all_present_spec e s false Hne) Ha) as Ha'.
          split; [|by left].
          intros _. right. exists s. split; [apply elem_of_cons; by left|done].
        * split.
          -- intros [H|(e' & H & Hc)]; [by left|]. right. exists e'.
             split; [apply elem_of_cons; by right|done].
          -- intros [H|(e' & [->|H]%elem_of_cons & Hc)]; [by left| |right; eauto].
             exfalso. destruct Hc as [_ Hc].
             pose proof (proj2 (all_present_spec e s false Hne) Hc). congruence.
      + apply Nat.eqb_neq in Hl. split.
        * intros [H|(e' & H & Hc)]; [by left|]. right. exists e'.
          split; [apply elem_of_cons; by right|done].
        * intros [H|(e' & [->|H]%elem_of_cons & Hc)]; [by left| |right; eauto].
          exfalso. by destruct Hc. }
  rewrite H. split; [intros [?|?]; done|by right].
Qed.

(** X13: [describeAllProblemRules] fails its assertion on a goal without
    a solver; otherwise every entry it returns is the non-empty
    description of a problem, no entry is covered by an earlier one (same
    number of lines, every line among the earlier entry's), and every
    problem with a description is covered by an entry. *)
Theorem describeAllProblemRules_unique describe g :
  (solv g = None -> describeAllProblemRules describe g = Throws AssertionFailure)
  /\ forall count, countProblems g = Returns count ->
      exists output,
        describeAllProblemRules describe g = Returns output
        /\ (forall e, e ∈ output ->
              e <> [] /\ exists i, 0 <= i < count /\ e = describe i)
        /\ (forall i, 0 <= i < count -> describe i <> [] ->
              exists e', e' ∈ output /\ covers e' (describe i))
        /\ (forall l1 e1 l2 e2 l3,
              output = l1 ++ e1 :: l2 ++ e2 :: l3 -> ~ covers e1 e2).
Proof.
  split.
  { intros Hs. unfold describeAllProblemRules, countProblems. by rewrite Hs. }
  intros count Hc. unfold describeAllProblemRules. rewrite Hc. cbn [mbind mret].
  eexists. split; [reflexivity|].
  set (f := fun (output : list (list string)) (i : Z) =>
              if bool_decide (describe i = []) then output
              else if is_unique (describe i) output then output ++ [describe i]
              else output).
  assert (Hinv : forall n,
    let output := foldl f [] (Z.of_nat <$> seq 0 n) in
    (forall e, e ∈ output -> e <> [] /\ exists i, 0 <= i < Z.of_nat n /\ e = describe i)
    /\ (forall i, 0 <= i < Z.of_nat n -> describe i <> [] ->
          exists e', e' ∈ output /\ covers e' (describe i))
    /\ (forall l1 e1 l2 e2 l3,
          output = l1 ++ e1 :: l2 ++ e2 :: l3 -> ~ covers e1 e2)).
  { induction n as [|n IH]; cbv zeta.
    - cbn. split; [|split].
      + intros e H. by apply elem_of_nil in H.
      + intros i Hi. lia.
      + intros l1 e1 l2 e2 l3 H. by destruct l1.
    - rewrite seq_S, fmap_app, foldl_app. cbn [fmap list_fmap foldl Nat.add].
      cbv zeta in IH. destruct IH as (I1 & I2 & I3).
      set (output := foldl f [] (Z.of_nat <$> seq 0 n)) in *.
      remember (f output (Z.of_nat n)) as out' eqn:Ho'. unfold f in Ho'.
      case_bool_decide as He.
      { subst out'. split; [|split]; [| |exact I3].
        - intros e H. destruct (I1 e H) as (? & i & ? & ?). split; [done|].
          exists i. split; [lia|done].
        - intros i Hi Hne. destruct (decide (i = Z.of_nat n)) as [->|]; [done|].
          apply I2; [lia|done]. }
      destruct (is_unique (describe (Z.of_nat n)) output) eqn:Hu; subst out'.
      + split; [|split].
        * intros e [H|H%list_elem_of_singleton]%elem_of_app; [|subst e].
          -- destruct (I1 e H) as (? & i & ? & ?). split; [done|].
             exists i. split; [lia|done].
          -- split; [done|]. exists (Z.of_nat n). split; [lia|done].
        * intros i Hi Hne. destruct (decide (i = Z.of_nat n)) as [->|].
          -- exists (describe (Z.of_nat n)).
             split; [apply elem_of_app; right; by apply list_elem_of_singleton|].
             split; done.
          -- destruct (I2 i) as (e' & H1 & H2); [lia|done|].
             exists e'. split; [apply elem_of_app; by left|done].
        * intros l1 e1 l2 e2 l3 Heq.
          destruct (decide (l3 = [])) as [->|Hl3].
          -- assert (Hsplit : output = l1 ++ e1 :: l2 /\ e2 = describe (Z.of_nat n)).
             { change (l1 ++ e1 :: l2 ++ [e2]) with (l1 ++ (e1 :: l2) ++ [e2]) in Heq.
               rewrite app_assoc in Heq. by apply app_inj_tail in Heq as [-> ->]. }
             destruct Hsplit as [Ho ->]. intros Hcov.
             assert (Hfalse : is_unique (describe (Z.of_nat n)) output = false).
             { apply is_unique_spec; [done|]. exists e1. split; [|done].
               rewrite Ho. apply elem_of_app. right. apply elem_of_cons. by left. }
             congruence.
          -- destruct (exists_last Hl3) as (l3' & x & ->).
             apply (I3 l1 e1 l2 e2 l3').
             replace (l1 ++ e1 :: l2 ++ e2 :: l3' ++ [x])
               with ((l1 ++ e1 :: l2 ++ e2 :: l3') ++ [x]) in Heq
               by (rewrite <- app_assoc; cbn [app]; by rewrite <- app_assoc).
             by apply app_inj_tail in Heq as [-> _].
      + split; [|split]; [| |exact I3].
        * intros e H. destruct (I1 e H) as (? & i & ? & ?). split; [done|].
          exists i. split; [lia|done].
        * intros i Hi Hne. destruct (decide (i = Z.of_nat n)) as [->|].
          -- by apply is_unique_spec.
          -- apply I2; [lia|done]. }
  specialize (Hinv (Z.to_nat count)). cbv zeta in Hinv.
  destruct (decide (0 <= count)) as [Hpos|Hneg].
  - rewrite Z2Nat.id in Hinv by done. exact Hinv.
  - destruct Hinv as (I1 & I2 & I3). split; [|split]; [| |exact I3].
    + intros e H. destruct (I1 e H) as (? & i & ? & ?). lia.
    + intros i Hi. lia.
Qed.

End GoalReportFacts.
(** ** The strict NEVRA filter on any patterns *)

Module NevraStrictFacts.
Import Nevra NevraSpec Query QueryOps QueryProps QueryProps2 QueryFacts NevraFacts.

Ltac cmp_cases :=
  repeat match goal with
    | |- context [?a =? ?b] => destruct (Z.eqb_spec a b)
    | |- context [?a <? ?b] => destruct (Z.ltb_spec a b)
    | H : context [?a =? ?b] |- _ => destruct (Z.eqb_spec a b)
    | H : context [?a <? ?b] |- _ => destruct (Z.ltb_spec a b)
    end; cbn [negb andb orb] in *; try done; try lia.

(** X14: [nevraIDSorter] is a strict weak ordering, as [std::sort] asks of
    its comparator: irreflexive, transitive, and two entries that it does
    not order either way have the same name, arch and evr ids. *)
Theorem nevraIDSorter_strict_weak a b c :
  nevraIDSorter a a = false
  /\ (nevraIDSorter a b = true -> nevraIDSorter b c = true -> nevraIDSorter a c = true)
  /\ (nevraIDSorter a b = false -> nevraIDSorter b a = false ->
      name a = name b /\ arch a = arch b /\ evr a = evr b).
Proof.
  unfold nevraIDSorter. split; [|split].
  - cmp_cases.
  - intros H1 H2. cmp_cases.
  - intros H1 H2. cmp_cases.
Qed.

(** *** Sorting the patterns and looking a solvable up *)

Lemma std_sort_sorted {A} (comp : A -> A -> bool) (l : list A) :
  (forall a b, comp a b = true -> comp b a = false) ->
  (forall a b c, comp b a = false -> comp c b = false -> comp c a = false) ->
  sorted_by comp (std_sort comp l).
Proof.
  intros Hasym Htrans. unfold sorted_by, std_sort.
  set (R := fun a b : A => Is_true (negb (comp b a))).
  assert (Transitive R).
  { intros a b c H1 H2. unfold R in *.
    apply Is_true_true, negb_true_iff in H1, H2.
    apply Is_true_true, negb_true_iff. eauto. }
  assert (Total R).
  { intros a b. unfold R. destruct (comp b a) eqn:E.
    - right. apply Is_true_true, negb_true_iff. auto.
    - left. done. }
  apply (StronglySorted_merge_sort R).
Qed.

Lemma std_sort_perm {A} (comp : A -> A -> bool) (l : list A) : std_sort comp l ≡ₚ l.
Proof. apply merge_sort_Permutation. Qed.

Lemma existsb_perm {A} (f : A -> bool) l1 l2 :
  l1 ≡ₚ l2 -> existsb f l1 = existsb f l2.
Proof.
  induction 1 as [|x l1 l2 _ IH|x y l|l1 l2 l3 _ IH1 _ IH2]; cbn.
  - done.
  - by rewrite IH.
  - destruct (f x), (f y); done.
  - congruence.
Qed.

(** By ids: the entry that [lower_bound] finds has the ids of the solvable
    exactly when some entry has. *)
Lemma lower_bound_ids l s :
  sorted_by nevraIDSorter l ->
  match lower_bound nevraCompareLowerSolvable l s with
  | low :: _ => same_nevra low s
  | [] => false
  end = existsb (fun n => same_nevra n s) l.
Proof.
  unfold sorted_by. induction 1 as [|e rest Hs IH Hall]; cbn [lower_bound existsb]; [done|].
  destruct (nevraCompareLowerSolvable e s) eqn:Hlow.
  - rewrite IH. assert (same_nevra e s = false) as ->; [|done].
    revert Hlow. unfold nevraCompareLowerSolvable, same_nevra. cmp_cases.
  - destruct (same_nevra e s) eqn:He; [done|]. cbn [orb]. symmetry.
    apply not_true_is_false. intros (n & Hn & Hm)%existsb_exists.
    apply list_elem_of_In in Hn. rewrite Forall_forall in Hall.
    specialize (Hall n Hn). apply Is_true_true, negb_true_iff in Hall.
    revert Hlow He Hm Hall.
    unfold nevraCompareLowerSolvable, same_nevra, nevraIDSorter. cmp_cases.
Qed.

Lemma evr_scan_sorted p cmpType s l :
  sorted_by nevraNameArchKey l ->
  Forall (fun n => nameArchCompareLowerSolvable n s = false) l ->
  evr_scan p cmpType s l = existsb (evr_match p cmpType s) l.
Proof.
  unfold sorted_by. induction 1 as [|e rest Hs IH Hall]; intros Hge; [done|].
  apply Forall_cons in Hge as [He Hge]. cbn [evr_scan existsb].
  unfold evr_match at 1, nevra_match.
  destruct ((name e =? s_name s) && (arch e =? s_arch s)) eqn:Hk.
  - cbn [andb]. destruct (cmp_matches _ _); [done|]. cbn [orb]. by apply IH.
  - cbn [andb orb]. symmetry. apply not_true_is_false.
    intros (n & Hn & Hm)%existsb_exists. apply list_elem_of_In in Hn.
    rewrite Forall_forall in Hall. specialize (Hall n Hn).
    apply Is_true_true, negb_true_iff in Hall.
    unfold evr_match, nevra_match in Hm.
    apply andb_true_iff in Hm as [Hm _].
    revert He Hk Hm Hall. unfold nameArchCompareLowerSolvable, nevraNameArchKey.
    cmp_cases.
Qed.

Lemma lower_bound_scan p cmpType l s :
  sorted_by nevraNameArchKey l ->
  evr_scan p cmpType s (lower_bound nameArchCompareLowerSolvable l s)
  = existsb (evr_match p cmpType s) l.
Proof.
  intros Hs. induction l as [|e rest IH]; [done|]. cbn [lower_bound existsb].
  pose proof Hs as Hs0. unfold sorted_by in Hs. apply StronglySorted_cons in Hs as [Hall Hs].
  destruct (nameArchCompareLowerSolvable e s) eqn:Hlow.
  - rewrite IH by done. assert (evr_match p cmpType s e = false) as ->; [|done].
    unfold evr_match, nevra_match. revert Hlow.
    unfold nameArchCompareLowerSolvable. cmp_cases.
  - rewrite (evr_scan_sorted p cmpType s (e :: rest) Hs0); [done|].
    apply Forall_cons. split; [done|]. rewrite Forall_forall in Hall |- *.
    intros n Hn. specialize (Hall n Hn). apply Is_true_true, negb_true_iff in Hall.
    revert Hlow Hall. unfold nameArchCompareLowerSolvable, nevraNameArchKey. cmp_cases.
Qed.

Lemma parse_matches_parsed p createEVRId ms acc :
  parse_matches p createEVRId (take (g_strv_length ms) ms) acc
  = Returns (acc ++ parsed p createEVRId ms).
Proof.
  unfold g_strv_length, parsed. revert acc.
  induction ms as [|[m|] ms IH]; intros acc; cbn.
  - by rewrite app_nil_r.
  - destruct (parse p m createEVRId); rewrite IH; [|done].
    by rewrite <- app_assoc.
  - by rewrite app_nil_r.
Qed.

Lemma nevra_result_spec p cmpType createEVRId cs r x :
  x ∈ nevra_result p cmpType createEVRId cs r
  <-> x ∈ r
      /\ existsb (fun n => nevra_match p cmpType createEVRId n (pool_id2solvable p x)) cs
         = true.
Proof.
  unfold nevra_result. rewrite elem_of_list_to_set, list_elem_of_In, List.filter_In,
    <- list_elem_of_In, elem_of_pset_ids.
  apply and_iff_compat_l.
  destruct createEVRId; destruct (1 <? length cs)%nat eqn:Hlen; cbv zeta.
  - rewrite lower_bound_ids.
    + by rewrite (existsb_perm _ _ _ (std_sort_perm nevraIDSorter cs)).
    + apply std_sort_sorted; unfold nevraIDSorter; intros; cmp_cases.
  - apply Nat.ltb_ge in Hlen. destruct cs as [|n [|n' cs]]; cbn in *; try lia; try done.
    unfold nevra_match. by rewrite orb_false_r.
  - rewrite lower_bound_scan.
    + by rewrite (existsb_perm _ _ _ (std_sort_perm nevraNameArchKey cs)).
    + apply std_sort_sorted; unfold nevraNameArchKey; intros; cmp_cases.
  - apply Nat.ltb_ge in Hlen. destruct cs as [|n [|n' cs]]; cbn in *; try lia; try done.
    unfold nevra_match. by rewrite orb_false_r.
Qed.

(** X15: [filterNevraStrict] on a query that has a result, with any number
    of patterns: it never fails, touches nothing but the result, and keeps
    exactly the members that some pattern that parses matches; with
    [HY_NOT] it keeps exactly the others.  Patterns that do not parse are
    skipped, and the sorted look-up taken for several patterns selects what
    trying every pattern in turn would. *)
Theorem filterNevraStrict_any_patterns cmpType ms st r :
  result (impl st) = Some r ->
  exists r',
    filterNevraStrict cmpType ms st
    = (Returns tt, {| sack := sack st; impl := set_result (Some r') (impl st) |})
    /\ forall x, x ∈ r' <->
         x ∈ r
         /\ (has_bit cmpType HY_NOT = false <->
             exists n,
               n ∈ parsed (pool (sack st))
                     (negb (has_bit cmpType HY_LT || has_bit cmpType HY_GT)) ms
               /\ nevra_match (pool (sack st)) cmpType
                    (negb (has_bit cmpType HY_LT || has_bit cmpType HY_GT)) n
                    (pool_id2solvable (pool (sack st)) x) = true).
Proof.
  intros Hr. unfold filterNevraStrict, mbind, SE_bind, get, lift. cbv zeta.
  rewrite parse_matches_parsed. cbn [app].
  set (p := pool (sack st)).
  set (cev := negb (has_bit cmpType HY_LT || has_bit cmpType HY_GT)).
  set (cs := parsed p cev ms).
  assert (Hex : forall x,
    (exists n, n ∈ cs /\ nevra_match p cmpType cev n (pool_id2solvable p x) = true)
    <-> existsb (fun n => nevra_match p cmpType cev n (pool_id2solvable p x)) cs = true).
  { intros x. rewrite existsb_exists. setoid_rewrite list_elem_of_In. done. }
  case_bool_decide as Hcs.
  - destruct (has_bit cmpType HY_NOT) eqn:Hnot; cbn [negb].
    + exists r. split.
      * destruct st as [sk [ap fl res fs cc]]. cbn in Hr. subst res. reflexivity.
      * intros x. rewrite Hex, Hcs. cbn. intuition congruence.
    + exists ∅. split.
      * unfold get_result, set_impl, modify. rewrite Hr. reflexivity.
      * intros x. rewrite Hex, Hcs. cbn. set_solver.
  - unfold get_result, set_impl, modify. rewrite Hr.
    eexists. split; [reflexivity|]. intros x. rewrite Hex.
    destruct (has_bit cmpType HY_NOT).
    + rewrite elem_of_difference, nevra_result_spec.
      destruct (existsb _ cs); intuition congruence.
    + rewrite elem_of_intersection, nevra_result_spec. intuition.
Qed.

End NevraStrictFacts.
(** ** What [NevraID::parse] accepts *)

Module NevraParseFacts.
Import Nevra NevraSpec Query QueryOps QueryProps QueryProps2 QueryFacts NevraFacts.

Lemma no_char_app c s1 s2 :
  no_char c (s1 ++ s2) = no_char c s1 && no_char c s2.
Proof. unfold no_char. apply forallb_app. Qed.










(** *** What a pattern that parses looks like *)

Lemma scan_delims_snoc s c pos e r a :
  scan_delims (s ++ [c]) pos e r a =
  let '(e1, r1, a1, p1) := scan_delims s pos e r a in
  if is_char c "-" then (r1, Some p1, a1, p1 + 1)
  else if is_char c "." then (e1, r1, Some p1, p1 + 1)
  else (e1, r1, a1, p1 + 1).
Proof.
  rewrite scan_delims_app. destruct (scan_delims s pos e r a) as [[[e1 r1] a1] p1].
  cbn [scan_delims]. destruct (is_char c "-"); [done|]. by destruct (is_char c ".").
Qed.

Lemma no_char_snoc c T d : no_char c (T ++ [d]) = no_char c T && negb (is_char d c).
Proof. rewrite no_char_app. cbn. by rewrite andb_true_r. Qed.

(** The delimiters that the first loop records: the last ['-'], the one
    before it, the last ['.']. *)
Lemma scan_delims_inv s e r a end_ :
  scan_delims s 0 None None None = (e, r, a, end_) ->
  end_ = Z.of_nat (length s)
  /\ (forall k, r = Some k ->
        exists P T, s = P ++ "-"%char :: T /\ k = Z.of_nat (length P)
                    /\ no_char "-" T = true)
  /\ (forall j, e = Some j ->
        exists N E T, s = N ++ "-"%char :: E ++ "-"%char :: T
                      /\ j = Z.of_nat (length N)
                      /\ r = Some (Z.of_nat (length N) + 1 + Z.of_nat (length E))
                      /\ no_char "-" E = true /\ no_char "-" T = true)
  /\ (forall m, a = Some m ->
        exists Q A, s = Q ++ "."%char :: A /\ m = Z.of_nat (length Q)
                    /\ no_char "." A = true).
Proof.
  revert e r a end_. induction s as [|c s IH] using rev_ind; intros e r a end_.
  - cbn. intros [= <- <- <- <-]. done.
  - rewrite scan_delims_snoc.
    destruct (scan_delims s 0 None None None) as [[[e1 r1] a1] p1] eqn:Hs.
    destruct (IH _ _ _ _ eq_refl) as (Hp & Hr & He & Ha). subst p1.
    assert (Hext : forall (P T : cstring) (x : ascii),
              (P ++ x :: T) ++ [c] = P ++ x :: (T ++ [c])).
    { intros P T x. by rewrite <- app_assoc. }
    destruct (is_char c "-") eqn:Hc1; [|destruct (is_char c ".") eqn:Hc2].
    + apply bool_decide_eq_true in Hc1. subst c.
      intros [= <- <- <- <-]. split; [rewrite length_app; cbn; lia|]. split; [|split].
      * intros k [= <-]. exists s, []. done.
      * intros j Hj. destruct (Hr j Hj) as (P & T & -> & -> & HT).
        exists P, T, []. repeat first [rewrite <- app_assoc | progress cbn [app]].
        repeat split; try done. rewrite length_app. cbn. f_equal. lia.
      * intros m Hm. destruct (Ha m Hm) as (Q & A & -> & -> & HA).
        exists Q, (A ++ ["-"%char]). rewrite Hext, no_char_snoc, HA. done.
    + apply bool_decide_eq_true in Hc2. subst c.
      intros [= <- <- <- <-]. split; [rewrite length_app; cbn; lia|]. split; [|split].
      * intros k Hk. destruct (Hr k Hk) as (P & T & -> & -> & HT).
        exists P, (T ++ ["."%char]). rewrite Hext, no_char_snoc, HT. done.
      * intros j Hj. destruct (He j Hj) as (N & E & T & -> & -> & Hr1 & HE & HT).
        exists N, E, (T ++ ["."%char]). rewrite no_char_snoc, HT.
        repeat split; try done.
        repeat first [rewrite <- app_assoc | progress cbn [app]]. done.
      * intros m [= <-]. exists s, []. done.
    + intros [= <- <- <- <-]. split; [rewrite length_app; cbn; lia|]. split; [|split].
      * intros k Hk. destruct (Hr k Hk) as (P & T & -> & -> & HT).
        exists P, (T ++ [c]). rewrite Hext, no_char_snoc, HT, Hc1. done.
      * intros j Hj. destruct (He j Hj) as (N & E & T & -> & -> & Hr1 & HE & HT).
        exists N, E, (T ++ [c]). rewrite no_char_snoc, HT, Hc1.
        repeat split; try done.
        repeat first [rewrite <- app_assoc | progress cbn [app]]. done.
      * intros m Hm. destruct (Ha m Hm) as (Q & A & -> & -> & HA).
        exists Q, (A ++ [c]). rewrite Hext, no_char_snoc, HA, Hc2. done.
Qed.

Lemma app_eq_split {A} (l1 l2 k1 k2 : list A) :
  l1 ++ l2 = k1 ++ k2 -> (length l1 <= length k1)%nat ->
  exists m, k1 = l1 ++ m /\ l2 = m ++ k2.
Proof.
  intros H Hl. exists (drop (length l1) k1).
  pose proof (f_equal (take (length l1)) H) as Ht.
  pose proof (f_equal (drop (length l1)) H) as Hd.
  rewrite take_app_length, take_app_le in Ht by done.
  rewrite drop_app_length, drop_app_le in Hd by done.
  split; [|done]. rewrite <- (take_drop (length l1) k1) at 1. by rewrite <- Ht.
Qed.

Lemma strip_epoch_ge fuel s d index : 0 <= index -> d <= strip_epoch fuel s d index.
Proof.
  revert d index. induction fuel as [|fuel IH]; intros d index Hi; cbn [strip_epoch]; [lia|].
  destruct (is_char (char_at s (d + index)) "0"); [|lia].
  destruct (is_char (char_at s (d + (index + 1))) ":").
  - etrans; [|apply IH; lia]. lia.
  - apply IH. lia.
Qed.

Lemma nonempty_pos (l : cstring) : (0 < length l)%nat -> nonempty l = true.
Proof. destruct l; cbn; [lia|done]. Qed.

(** X17: a pattern that [parse] accepts is [N-E-R.A]: the name is what
    stands before the last but one ['-'] and is not empty, the arch is
    what follows the last ['.'], which comes after the last ['-'], and the
    evr is a tail [E'] of [E] (what the epoch loop leaves of it) followed by
    [-R]; all four parts are not empty and the ids of the result, none of
    them 0, are those of these strings. *)
Theorem parse_accepts_shape p s b n :
  parse p s b = Some n ->
  exists N pre E' R A,
    s = N ++ "-"%char :: (pre ++ E') ++ "-"%char :: R ++ "."%char :: A
    /\ no_char "-" (pre ++ E') = true /\ no_char "-" R = true
    /\ no_char "-" A = true /\ no_char "." A = true
    /\ parse_parts p N E' R A b = Some n
    /\ name n <> 0 /\ arch n <> 0 /\ (b = true -> evr n <> 0).
Proof.
  unfold parse.
  destruct (scan_delims s 0 None None None) as [[[e r] a] end_] eqn:Hs.
  destruct (scan_delims_inv _ _ _ _ _ Hs) as (Hend & _ & He & Ha).
  destruct e as [j|]; [|done]. destruct r as [k|]; [|done].
  destruct (Z.eqb_spec j 0) as [|Hj0]; [done|]. cbv zeta.
  set (d := strip_epoch (length s) s j 1).
  assert (Hd : j <= d) by (apply strip_epoch_ge; lia).
  destruct a as [ad|]; [|done].
  destruct (Z.leb_spec (k - d) 1) as [|Hc1]; [done|].
  destruct (Z.leb_spec ad (k + 1)) as [|Hc2]; [done|].
  destruct (Z.eqb_spec ad (end_ - 1)) as [|Hc3]; [done|]. cbn [orb].
  destruct (He j eq_refl) as (N & E & T & HsE & HjN & [= HkE] & HE & HT).
  destruct (Ha ad eq_refl) as (Q & A & HsA & HadQ & HA).
  assert (HTA : exists R, T = R ++ "."%char :: A
                          /\ ad = k + 1 + Z.of_nat (length R)).
  { assert (H : (N ++ "-"%char :: E ++ ["-"%char]) ++ T = Q ++ "."%char :: A).
    { rewrite <- HsA, HsE. repeat first [rewrite <- app_assoc | progress cbn [app]]. done. }
    apply app_eq_split in H as (R & HQ & HTR).
    - exists R. split; [done|]. subst ad Q.
      repeat first [rewrite length_app | progress cbn [length]]. lia.
    - repeat first [rewrite length_app | progress cbn [length]]. lia. }
  destruct HTA as (R & -> & HadR).
  rewrite no_char_app in HT. apply andb_true_iff in HT as [HR HA0].
  assert (HA1 : no_char "-" A = true) by (cbn in HA0; exact HA0).
  set (pre := take (Z.to_nat (d - j)) E). set (E' := drop (Z.to_nat (d - j)) E).
  assert (HEp : E = pre ++ E') by (symmetry; apply take_drop).
  assert (Hpre : Z.of_nat (length pre) = d - j).
  { unfold pre. rewrite length_take. lia. }
  assert (HE' : Z.of_nat (length E') = Z.of_nat (length E) - (d - j)).
  { unfold E'. rewrite length_drop. lia. }
  assert (HlenS : Z.of_nat (length s)
                  = j + 1 + Z.of_nat (length E) + 1 + Z.of_nat (length R) + 1
                    + Z.of_nat (length A)).
  { rewrite HsE. repeat first [rewrite length_app | progress cbn [length]]. lia. }
  unfold pool_strn2id.
  assert (S1 : substr s 0 (0 + j) = N).
  { rewrite HsE. apply (substr_middle [] N); [done|lia]. }
  assert (S2 : forall t, t = ad -> substr s (d + 1) t = E' ++ "-"%char :: R).
  { intros t ->. rewrite HsE, HEp.
    replace (N ++ "-"%char :: (pre ++ E') ++ "-"%char :: R ++ "."%char :: A)
      with ((N ++ "-"%char :: pre) ++ (E' ++ "-"%char :: R) ++ "."%char :: A)
      by (repeat first [rewrite <- app_assoc | progress cbn [app]]; reflexivity).
    apply substr_middle.
    - repeat first [rewrite length_app | progress cbn [length]]. lia.
    - repeat first [rewrite length_app | progress cbn [length]]. lia. }
  assert (S3 : forall t, t = end_ -> substr s (ad + 1) t = A).
  { intros t ->. rewrite HsE.
    replace (N ++ "-"%char :: E ++ "-"%char :: R ++ "."%char :: A)
      with ((N ++ "-"%char :: E ++ "-"%char :: R ++ ["."%char]) ++ A ++ [])
      by (rewrite app_nil_r; repeat first [rewrite <- app_assoc | progress cbn [app]];
          reflexivity).
    apply substr_middle.
    - repeat first [rewrite length_app | progress cbn [length]]. lia.
    - lia. }
  rewrite S1, !S2, !S3 by lia.
  destruct (Z.eqb_spec (pool_str2id p N) 0) as [|Hn]; [done|].
  intros H. exists N, pre, E', R, A. rewrite <- HEp.
  split; [exact HsE|]. split; [exact HE|]. split; [exact HR|]. split; [exact HA1|].
  split; [exact HA|].
  unfold parse_parts.
  rewrite !nonempty_pos by lia. cbn [andb].
  destruct (Z.eqb_spec (pool_str2id p N) 0) as [|_]; [done|].
  destruct b; cbn [andb] in *.
  - destruct (Z.eqb_spec (pool_str2id p (E' ++ "-"%char :: R)) 0) as [|Hev]; [done|].
    destruct (Z.eqb_spec (pool_str2id p A) 0) as [|Har]; [done|].
    injection H as <-. done.
  - destruct (Z.eqb_spec (pool_str2id p A) 0) as [|Har]; [done|].
    injection H as <-. done.
Qed.

End NevraParseFacts.
(** ** Filters one after the other, error answers, clear, installed *)

Module QueryMore.
Import Nevra NevraSpec Query QueryOps QueryProps QueryProps2 QueryFacts QueryFacts2 QueryInv
  PsetFacts NevraFacts.

Lemma apply_filters_app ev fs1 fs2 st :
  apply_filters ev (fs1 ++ fs2) st =
  match apply_filters ev fs1 st with
  | (Returns _, st1) => apply_filters ev fs2 st1
  | (Throws e, st1) => (Throws e, st1)
  end.
Proof.
  revert st. induction fs1 as [|f fs1 IH]; intros st; [done|].
  cbn [app apply_filters]. unfold mbind, SE_bind, get, get_result, lift, set_impl, modify.
  cbn beta iota.
  destruct (result (impl st)) as [r|]; [|done].
  destruct (eval_filter ev (sack st) r f) as [m|e]; [|done].
  apply IH.
Qed.

(** The filter loop does not look at the filter list or the applied mark
    of the query it works on. *)
Lemma apply_filters_reopen ev fs F st :
  apply_filters ev fs (reopen F st) =
  (fst (apply_filters ev fs st), reopen F (snd (apply_filters ev fs st))).
Proof.
  revert st. induction fs as [|f fs IH]; intros st; [done|].
  cbn [apply_filters]. unfold mbind, SE_bind, get, get_result, lift, set_impl, modify.
  cbn beta iota. change (result (impl (reopen F st))) with (result (impl st)).
  destruct (result (impl st)) as [r|]; [|done].
  change (sack (reopen F st)) with (sack st).
  destruct (eval_filter ev (sack st) r f) as [m|e]; [|done].
  match goal with |- _ = (fst (apply_filters ev fs ?s), _) => rewrite <- (IH s) end.
  reflexivity.
Qed.

Lemma initResult_reopen F st :
  initResult (reopen F st) = (fst (initResult st), reopen F (snd (initResult st))).
Proof.
  unfold initResult. change (sack (reopen F st)) with (sack st).
  change (flags (impl (reopen F st))) with (flags (impl st)).
  change (considered_cached (impl (reopen F st))) with (considered_cached (impl st)).
  repeat match goal with |- context [if ?b then _ else _] => destruct b end; reflexivity.
Qed.

(** [apply] after one more filter. *)
Lemma apply_push ev st f r m :
  applied_clean st ->
  fst (apply ev st) = Returns tt ->
  result (impl (snd (apply ev st))) = Some r ->
  eval_filter ev (sack (snd (apply ev st))) r f = Returns m ->
  fst (apply ev (reopen (filters (impl st) ++ [f]) st)) = Returns tt
  /\ result (impl (snd (apply ev (reopen (filters (impl st) ++ [f]) st))))
     = Some (if has_bit (cmpType f) HY_NOT then r ∖ m else r ∩ m)
  /\ sack (snd (apply ev (reopen (filters (impl st) ++ [f]) st)))
     = sack (snd (apply ev st)).
Proof.
  intros Hc. destruct (applied (impl st)) eqn:Hap.
  - rewrite (apply_applied ev st Hap). cbn [fst snd]. intros _ Hr He.
    rewrite (Hc Hap). cbn [app].
    unfold apply, mbind, SE_bind, get. cbn beta iota.
    change (applied (impl (reopen [f] st))) with false. cbn iota.
    change (result (impl (reopen [f] st))) with (result (impl st)). rewrite Hr.
    change (filters (impl (reopen [f] st))) with [f].
    cbn [apply_filters]. unfold mbind, SE_bind, get, get_result, lift, set_impl, modify, mret,
      SE_ret.
    cbn beta iota. change (result (impl (reopen [f] st))) with (result (impl st)).
    rewrite Hr. change (sack (reopen [f] st)) with (sack st). rewrite He. done.
  - assert (Hmain : forall st1,
      fst (let (o, st') := apply_filters ev (filters (impl st)) st1 in
           match o with
           | Returns _ => set_impl (fun q => set_filters [] (set_applied true q)) st'
           | Throws e => (Throws e, st')
           end) = Returns tt ->
      forall F, F = filters (impl st) ++ [f] ->
      result (impl (snd (let (o, st') := apply_filters ev (filters (impl st)) st1 in
           match o with
           | Returns _ => set_impl (fun q => set_filters [] (set_applied true q)) st'
           | Throws e => (Throws e, st')
           end))) = Some r ->
      eval_filter ev (sack (snd (let (o, st') := apply_filters ev (filters (impl st)) st1 in
           match o with
           | Returns _ => set_impl (fun q => set_filters [] (set_applied true q)) st'
           | Throws e => (Throws e, st')
           end))) r f = Returns m ->
      let out := (let (o, st') := apply_filters ev F (reopen F st1) in
           match o with
           | Returns _ => set_impl (fun q => set_filters [] (set_applied true q)) st'
           | Throws e => (Throws e, st')
           end) in
      fst out = Returns tt
      /\ result (impl (snd out))
         = Some (if has_bit (cmpType f) HY_NOT then r ∖ m else r ∩ m)
      /\ sack (snd out)
         = sack (snd (let (o, st') := apply_filters ev (filters (impl st)) st1 in
           match o with
           | Returns _ => set_impl (fun q => set_filters [] (set_applied true q)) st'
           | Throws e => (Throws e, st')
           end))).
    { intros st1 Ha F ->. revert Ha. cbv zeta.
      rewrite apply_filters_app, apply_filters_reopen.
      destruct (apply_filters ev (filters (impl st)) st1) as [[[]|e] st2]; cbn [fst snd];
        [|done].
      unfold set_impl, modify. cbn [fst snd impl result sack set_filters set_applied].
      intros _ Hr He. cbn [apply_filters].
      unfold mbind, SE_bind, get, get_result, lift, set_impl, modify, mret, SE_ret.
      cbn beta iota. change (result (impl (reopen _ st2))) with (result (impl st2)).
      rewrite Hr. change (sack (reopen _ st2)) with (sack st2). rewrite He. done. }
    unfold apply, mbind, SE_bind, get. cbn beta iota. rewrite Hap.
    change (applied (impl (reopen (filters (impl st) ++ [f]) st))) with false. cbn iota.
    change (result (impl (reopen (filters (impl st) ++ [f]) st))) with (result (impl st)).
    change (filters (impl (reopen (filters (impl st) ++ [f]) st)))
      with (filters (impl st) ++ [f]).
    destruct (result (impl st)) as [r0|] eqn:Hres.
    + cbn beta iota. intros Ha Hr He. by apply (Hmain st Ha _ eq_refl).
    + rewrite initResult_reopen.
      destruct (initResult st) as [[[]|e] st1]; cbn [fst snd]; [|done].
      intros Ha Hr He. by apply (Hmain st1 Ha _ eq_refl).
Qed.

(** X18: filters act one after the other.  On a query whose [apply]
    returns with result [r], one more filter [f] whose evaluation on [r]
    gives the bitmap [m] makes [apply] return with [r ∩ m], and with
    [r ∖ m] when the filter has [HY_NOT]: the filters before it are not
    evaluated on anything else than before, whether the query had already
    been applied or not. *)
Theorem apply_one_more_filter ev st f r m :
  applied_clean st ->
  fst (apply ev st) = Returns tt ->
  result (impl (snd (apply ev st))) = Some r ->
  eval_filter ev (sack (snd (apply ev st))) r f = Returns m ->
  fst (apply ev (reopen (filters (impl st) ++ [f]) st)) = Returns tt
  /\ result (impl (snd (apply ev (reopen (filters (impl st) ++ [f]) st))))
     = Some (if has_bit (cmpType f) HY_NOT then r ∖ m else r ∩ m).
Proof.
  intros Hc Ha Hr He. destruct (apply_push ev st f r m Hc Ha Hr He) as (H1 & H2 & _).
  done.
Qed.

(** X19: a package-set filter on [HY_PKG].  [addFilter] accepts it with
    [HY_EQ] and with [HY_NEQ], and the next [apply] leaves the members of
    the former result that are in the set, with [HY_NEQ] those that are not
    in it. *)
Theorem addFilter_pset_selects ev st r pset :
  applied_clean st ->
  fst (apply ev st) = Returns tt ->
  result (impl (snd (apply ev st))) = Some r ->
  (fst (addFilter_pset HY_PKG HY_EQ pset st) = Returns None
   /\ fst (apply ev (snd (addFilter_pset HY_PKG HY_EQ pset st))) = Returns tt
   /\ result (impl (snd (apply ev (snd (addFilter_pset HY_PKG HY_EQ pset st)))))
      = Some (r ∩ pset))
  /\ (fst (addFilter_pset HY_PKG HY_NEQ pset st) = Returns None
      /\ fst (apply ev (snd (addFilter_pset HY_PKG HY_NEQ pset st))) = Returns tt
      /\ result (impl (snd (apply ev (snd (addFilter_pset HY_PKG HY_NEQ pset st)))))
         = Some (r ∖ pset)).
Proof.
  intros Hc Ha Hr. split.
  - destruct (apply_push ev st (Filter_pset HY_PKG HY_EQ pset) r pset Hc Ha Hr eq_refl)
      as (H1 & H2 & _).
    split; [reflexivity|]. split; [exact H1|exact H2].
  - destruct (apply_push ev st (Filter_pset HY_PKG HY_NEQ pset) r pset Hc Ha Hr eq_refl)
      as (H1 & H2 & _).
    split; [reflexivity|]. split; [exact H1|exact H2].
Qed.

Lemma apply_push_empty ev st r :
  applied_clean st ->
  fst (apply ev st) = Returns tt ->
  result (impl (snd (apply ev st))) = Some r ->
  fst (apply ev (reopen (filters (impl st) ++ [Filter_num HY_PKG_EMPTY HY_EQ 1]) st))
  = Returns tt
  /\ result (impl (snd (apply ev
       (reopen (filters (impl st) ++ [Filter_num HY_PKG_EMPTY HY_EQ 1]) st)))) = Some ∅.
Proof.
  intros Hc Ha Hr.
  destruct (apply_push ev st (Filter_num HY_PKG_EMPTY HY_EQ 1) r ∅ Hc Ha Hr eq_refl)
    as (H1 & H2 & _).
  split; [exact H1|]. rewrite H2. f_equal. cbn. set_solver.
Qed.

(** X20: a dependency filter that names nothing empties the query.  An
    empty reldep list, and a string with [HY_EQ] that the [Dependency]
    constructor rejects, are both taken with answer 0 and stored as a
    filter on [HY_PKG_EMPTY]: the next [apply] returns with the empty
    result, whatever the result was. *)
Theorem reldep_naming_nothing_empties h ev st r k m :
  applied_clean st ->
  fst (apply ev st) = Returns tt ->
  result (impl (snd (apply ev st))) = Some r ->
  match_type_reldep k = true ->
  (fst (addFilter_reldeplist k [] st) = Returns None
   /\ fst (apply ev (snd (addFilter_reldeplist k [] st))) = Returns tt
   /\ result (impl (snd (apply ev (snd (addFilter_reldeplist k [] st))))) = Some ∅)
  /\ (Dependency_new h (sack st) m = None ->
      fst (addFilter_str h ev k HY_EQ m st) = Returns None
      /\ fst (apply ev (snd (addFilter_str h ev k HY_EQ m st))) = Returns tt
      /\ result (impl (snd (apply ev (snd (addFilter_str h ev k HY_EQ m st))))) = Some ∅).
Proof.
  intros Hc Ha Hr Hk.
  destruct (apply_push_empty ev st r Hc Ha Hr) as [H1 H2].
  split.
  - unfold addFilter_reldeplist, valid_filter_reldep. rewrite Hk. cbn [negb].
    split; [reflexivity|]. split; [exact H1|exact H2].
  - intros Hd.
    assert (E : addFilter_str h ev k HY_EQ m st
                = (Returns None,
                   reopen (filters (impl st) ++ [Filter_num HY_PKG_EMPTY HY_EQ 1]) st)).
    { unfold addFilter_str.
      assert (Hns : bool_decide (k = HY_PKG_NEVRA_STRICT) = false)
        by (apply bool_decide_eq_false; intros ->; discriminate Hk).
      rewrite Hns. change (has_bit HY_EQ HY_GLOB) with false. cbn [andb].
      assert (Hv : valid_filter_str k HY_EQ = true) by (destruct k; try done).
      rewrite Hv, Hk. cbn [negb].
      unfold mbind, SE_bind, set_impl, modify, get. cbn beta iota.
      change (HY_EQ =? HY_GLOB) with false. cbn iota.
      cbn [sack]. rewrite Hd. reflexivity. }
    rewrite E. cbn [fst snd]. done.
Qed.

Lemma addFilter_num_empty st :
  addFilter_num HY_PKG_EMPTY HY_EQ 1 st
  = (Returns None, reopen (filters (impl st) ++ [Filter_num HY_PKG_EMPTY HY_EQ 1]) st).
Proof. reflexivity. Qed.

Lemma addFilter_reldeplist_ok k l st :
  match_type_reldep k = true -> fst (addFilter_reldeplist k l st) = Returns None.
Proof.
  intros Hk. unfold addFilter_reldeplist, valid_filter_reldep. rewrite Hk. cbn [negb].
  unfold mbind, SE_bind, set_impl, modify, push_filter. cbn beta iota.
  by destruct (negb _).
Qed.

Lemma addFilter_reldep_ok k d st :
  match_type_reldep k = true -> fst (addFilter_reldep k d st) = Returns None.
Proof.
  intros Hk. unfold addFilter_reldep, valid_filter_reldep. by rewrite Hk.
Qed.

Lemma filterNevraStrict_unit cmpType ms st :
  fst (filterNevraStrict cmpType ms st) <> Returns tt ->
  exists e, fst (filterNevraStrict cmpType ms st) = Throws e.
Proof.
  destruct (fst (filterNevraStrict cmpType ms st)) as [[]|e]; [done|eauto].
Qed.

(** X21: an [addFilter] call, of any overload, that answers an error code
    answers [DNF_ERROR_BAD_QUERY] and has left the query as it was: no
    filter stored, the applied mark and the result untouched. *)
Theorem addFilter_error_keeps_query h ev a st e :
  fst (addFilter h ev a st) = Returns (Some e) ->
  e = DNF_ERROR_BAD_QUERY /\ snd (addFilter h ev a st) = st.
Proof.
  destruct a as [k c m|k c ms|k c ps|k d|k l|k c m|k c ms]; cbn [addFilter].
  - unfold addFilter_num. destruct (valid_filter_num k c); cbn [negb].
    + intros H. discriminate H.
    + cbn. by intros [= <-].
  - unfold addFilter_nums. destruct (valid_filter_num k c); cbn [negb].
    + intros H. discriminate H.
    + cbn. by intros [= <-].
  - unfold addFilter_pset. destruct (valid_filter_pkg k c); cbn [negb].
    + intros H. discriminate H.
    + cbn. by intros [= <-].
  - unfold addFilter_reldep. destruct (valid_filter_reldep k); cbn [negb].
    + intros H. discriminate H.
    + cbn. by intros [= <-].
  - unfold addFilter_reldeplist. destruct (valid_filter_reldep k) eqn:Hk; cbn [negb].
    + unfold valid_filter_reldep in Hk. intros H.
      pose proof (addFilter_reldeplist_ok k l st Hk) as H'.
      unfold addFilter_reldeplist, valid_filter_reldep in H'. rewrite Hk in H'.
      cbn [negb] in H'. congruence.
    + cbn. by intros [= <-].
  - unfold addFilter_str. case_bool_decide as Hs.
    + destruct (negb (has_bit c HY_EQ || has_bit c HY_GT || has_bit c HY_LT)).
      * cbn. by intros [= <-].
      * unfold mbind, SE_bind. destruct (apply ev st) as [[[]|e1] st1]; [|done].
        destruct (filterNevraStrict c [m; None] st1) as [[[]|e2] st2]; done.
    + set (c' := if has_bit c HY_GLOB && negb (hy_is_glob_pattern h m)
                 then Z.lor (Z.land c (Z.lnot HY_GLOB)) HY_EQ else c).
      destruct (valid_filter_str k c'); cbn [negb].
      2: { cbn. by intros [= <-]. }
      unfold mbind at 1, SE_bind at 1. unfold set_impl at 1, modify at 1.
      destruct (match_type_reldep k) eqn:Hk.
      * unfold mbind, SE_bind, get. cbn beta iota.
        destruct (c' =? HY_GLOB).
        -- destruct (addReldepWithGlob h _ m) as [ok reldeplist].
           destruct ok; cbn [negb].
           ++ rewrite (addFilter_reldeplist_ok k reldeplist _ Hk). done.
           ++ rewrite addFilter_num_empty. done.
        -- destruct (Dependency_new h _ m).
           ++ rewrite (addFilter_reldep_ok k _ _ Hk). done.
           ++ rewrite addFilter_num_empty. done.
      * unfold mbind, SE_bind, lift. cbn beta iota.
        destruct (Filter_str k c' m); done.
  - unfold addFilter_strs. case_bool_decide as Hs.
    + destruct (negb (has_bit c HY_EQ || has_bit c HY_GT || has_bit c HY_LT)).
      * cbn. by intros [= <-].
      * unfold mbind, SE_bind. destruct (apply ev st) as [[[]|e1] st1]; [|done].
        destruct (filterNevraStrict c ms st1) as [[[]|e2] st2]; done.
    + match goal with |- context [valid_filter_str k ?x] => set (c' := x) end.
      destruct (valid_filter_str k c'); cbn [negb].
      2: { cbn. by intros [= <-]. }
      unfold mbind at 1, SE_bind at 1. unfold set_impl at 1, modify at 1.
      destruct (match_type_reldep k) eqn:Hk.
      * unfold mbind, SE_bind, get. cbn beta iota.
        rewrite (addFilter_reldeplist_ok k _ _ Hk). done.
      * unfold mbind, SE_bind, lift. cbn beta iota.
        destruct (Filter_strs k c' ms); done.
Qed.

(** X22: [apply] never adds a package and fails in one way only.  On a
    query that has a result [r], [apply] either returns with a result that
    is a subset of [r], on the same sack, or stops on a failed assertion. *)
Theorem apply_only_narrows ev st r :
  result (impl st) = Some r ->
  (exists r', fst (apply ev st) = Returns tt
              /\ result (impl (snd (apply ev st))) = Some r' /\ r' ⊆ r
              /\ sack (snd (apply ev st)) = sack st)
  \/ fst (apply ev st) = Throws AssertionFailure.
Proof.
  intros Hr. unfold apply, mbind, SE_bind, get. cbn beta iota.
  destruct (applied (impl st)).
  - left. exists r. done.
  - rewrite Hr. cbn.
    pose proof (apply_filters_shrinks ev (filters (impl st)) st r Hr) as H.
    destruct (apply_filters ev (filters (impl st)) st) as [[[]|e] st'].
    + destruct H as (r' & H1 & H2 & H3 & _). left. exists r'. cbn.
      split; [reflexivity|]. split; [exact H1|]. split; [exact H2|exact H3].
    + right. cbn. by rewrite H.
Qed.

(** X23: [clear] forgets the filters and the result.  Whatever the query
    held, the [apply] that follows [clear] returns with every package
    solvable of the pool that the exclude mode of the query considers, and
    leaves the query applied with no filter. *)
Theorem clear_then_apply ev st :
  cache_ok (sack st) ->
  fst (apply ev (snd (clear st))) = Returns tt
  /\ result (impl (snd (apply ev (snd (clear st)))))
     = Some (restrict (list_to_set (for_pkg_solvables (pool (sack st))))
               (mode_considered (sack st) (considered_cached (impl st)) (flags (impl st))))
  /\ filters (impl (snd (apply ev (snd (clear st))))) = []
  /\ applied (impl (snd (apply ev (snd (clear st))))) = true.
Proof.
  intros Hc. unfold clear, set_impl, modify. cbn [snd].
  set (st0 := {| sack := sack st;
                 impl := set_filters [] (set_result None (set_applied false (impl st))) |}).
  destruct (initResult_spec st0 Hc) as (st1 & Hi & Hr & _).
  unfold apply, mbind, SE_bind, get. cbn beta iota.
  change (applied (impl st0)) with false. change (result (impl st0)) with (@None (gset Z)).
  change (filters (impl st0)) with (@nil Filter). cbn beta iota.
  rewrite Hi. cbn. rewrite Hr. done.
Qed.

Lemma sorted_filter (f : Z -> bool) l :
  StronglySorted Z.le l -> StronglySorted Z.le (List.filter f l).
Proof.
  induction 1 as [|x l Hs IH Hall]; cbn; [constructor|].
  destruct (f x); [|done]. constructor; [done|].
  rewrite Forall_forall in Hall |- *. intros y Hy.
  apply Hall. apply list_elem_of_In in Hy. apply List.filter_In in Hy as [Hy _].
  by apply list_elem_of_In.
Qed.

Lemma installed_walk_spec p R ids :
  StronglySorted Z.le ids ->
  (forall x, x ∈ ids -> s_repo (pool_id2solvable p x) = repoid R -> x < repo_end R) ->
  forall x, x ∈ installed_walk p R ids ∅
            <-> x ∈ ids /\ s_repo (pool_id2solvable p x) = repoid R.
Proof.
  induction 1 as [|x0 ids Hs IH Hall]; intros Hwf x; cbn [installed_walk].
  - set_solver.
  - assert (Hwf' : forall x, x ∈ ids -> s_repo (pool_id2solvable p x) = repoid R ->
                             x < repo_end R).
    { intros y Hy. apply Hwf. by right. }
    specialize (IH Hwf' x).
    destruct (Z.eqb_spec (s_repo (pool_id2solvable p x0)) (repoid R)) as [He|Hne].
    + rewrite installed_walk_acc, elem_of_union, IH, elem_of_cons. set_solver.
    + destruct (Z.ltb_spec x0 (repo_end R)) as [Hlt|Hge].
      * rewrite IH, elem_of_cons. naive_solver.
      * rewrite elem_of_cons. split; [set_solver|].
        intros [[->|Hx] Hrep]; [done|]. exfalso.
        rewrite Forall_forall in Hall. specialize (Hall x Hx).
        specialize (Hwf' x Hx Hrep). lia.
Qed.

(** X24: with every installed solvable in the id range of the installed
    repo, [installed] keeps exactly the members of the applied result whose
    repo is the installed repo, and [available] exactly the others. *)
Theorem installed_keeps_installed_repo ev st r rid :
  fst (apply ev st) = Returns tt ->
  result (impl (snd (apply ev st))) = Some r ->
  Solv.installed (pool (sack st)) = Some rid ->
  installed_in_range (pool (sack st)) rid r ->
  exists ri ra,
    fst (installed ev st) = Returns tt
    /\ result (impl (snd (installed ev st))) = Some ri
    /\ fst (available ev st) = Returns tt
    /\ result (impl (snd (available ev st))) = Some ra
    /\ forall x,
         (x ∈ ri <-> x ∈ r /\ s_repo (pool_id2solvable (pool (sack st)) x)
                              = repoid (repo_of (pool (sack st)) rid))
         /\ (x ∈ ra <-> x ∈ r /\ s_repo (pool_id2solvable (pool (sack st)) x)
                                 <> repoid (repo_of (pool (sack st)) rid)).
Proof.
  intros Ha Hr Hi Hwf. pose proof (apply_pool ev st) as Hp.
  apply outcome_surj in Ha. revert Ha Hr Hp. generalize (snd (apply ev st)).
  intros st1 Ha Hr Hp.
  unfold installed, available, mbind, SE_bind, get, get_result.
  rewrite Ha. cbn beta iota. rewrite Hr, Hp, Hi. rewrite Hr.
  eexists _, _. split; [reflexivity|]. split; [reflexivity|].
  split; [reflexivity|]. split; [reflexivity|].
  set (p := pool (sack st)). set (R := repo_of p rid).
  assert (Hw : forall x, x ∈ installed_walk p R (pset_ids_from r (repo_start R)) ∅
                         <-> x ∈ r /\ s_repo (pool_id2solvable p x) = repoid R).
  { intros x. rewrite installed_walk_spec.
    - unfold pset_ids_from. rewrite list_elem_of_In, List.filter_In, <- list_elem_of_In,
        elem_of_pset_ids.
      split; [naive_solver|]. intros [Hx Hrep]. split; [|done]. split; [done|].
      apply Z.leb_le. by apply (Hwf x Hx Hrep).
    - apply sorted_filter, pset_ids_sorted.
    - intros y Hy Hrep. unfold pset_ids_from in Hy.
      apply list_elem_of_In, List.filter_In in Hy as [Hy _].
      apply list_elem_of_In, elem_of_pset_ids in Hy. by apply (Hwf y Hy Hrep). }
  intros x. rewrite available_walk_spec, elem_of_intersection, elem_of_difference, Hw.
  split; [naive_solver|].
  split; [|naive_solver]. intros [Hx Hn]. split; [done|]. intros Heq. apply Hn. done.
Qed.

End QueryMore.
(** ** The goal on the kernel pool *)

Module GoalMoreExamples.
Import Goal Calls GoalProps GoalProps2 GoalMore.

Lemma sltrToJob_name_malformed_witness :
  sltrToJob Ex.kernel_pool two_names_selector [] SOLVER_INSTALL =
    Throws (GoalError
      "Ill-formed Selector, presence of multiple match objects in the filter"
      DNF_ERROR_BAD_SELECTOR).
Proof.
  apply (sltrToJob_name_malformed Ex.kernel_pool two_names_selector [] SOLVER_INSTALL
           two_names eq_refl).
  discriminate.
Defined.

Lemma run_success_spares_protected_witness :
  exists e o,
    listErasures (snd (run DNF_NONE unprotected_erase)) = Returns e
    /\ listObsoleted (snd (run DNF_NONE unprotected_erase)) = Returns o
    /\ forall id, id ∈ e ∪ o ->
         (id ∉ default ∅ (protectedPkgs unprotected_erase))
         /\ (protect_running_kernel unprotected_erase = true ->
             id <> running_kernel (sack unprotected_erase)).
Proof.
  apply (run_success_spares_protected DNF_NONE unprotected_erase).
  vm_compute. reflexivity.
Defined.

(** The run erases the unprotected kernel 2 and answers success. *)
Example unprotected_erase_runs :
  fst (run DNF_NONE unprotected_erase) = Returns false
  /\ listErasures (snd (run DNF_NONE unprotected_erase)) = Returns {[2]}.
Proof. split; vm_compute; reflexivity. Qed.

Lemma result_lists_disjoint_witness :
  exists i r u d e,
    listInstalls swap_goal = Returns i /\ listReinstalls swap_goal = Returns r
    /\ listUpgrades swap_goal = Returns u /\ listDowngrades swap_goal = Returns d
    /\ listErasures swap_goal = Returns e
    /\ i ∪ r ∪ u ∪ d ∪ e ⊆ list_to_set (steps swap_transaction)
    /\ i ## r /\ i ## u /\ i ## d /\ i ## e
    /\ r ## u /\ r ## d /\ r ## e /\ u ## d /\ u ## e /\ d ## e.
Proof. apply (result_lists_disjoint swap_goal swap_transaction). reflexivity. Defined.

End GoalMoreExamples.
(** ** filterExtras *)

Module ExtrasFacts.
Import Nevra Query QueryOps QueryProps QueryProps2 QueryExtra QueryFacts NevraFacts
  NevraStrictFacts.

Lemma no_name_arch_spec l s :
  sorted_by NameArchSolvableComparator l ->
  no_name_arch l s
  = negb (existsb (fun y => (s_name y =? s_name s) && (s_arch y =? s_arch s)) l).
Proof.
  unfold sorted_by, no_name_arch.
  induction 1 as [|e rest Hs IH Hall]; cbn [lower_bound existsb]; [done|].
  destruct (NameArchSolvableComparator e s) eqn:Hlow.
  - rewrite IH.
    assert ((s_name e =? s_name s) && (s_arch e =? s_arch s) = false) as ->; [|done].
    revert Hlow. unfold NameArchSolvableComparator. cmp_cases.
  - destruct ((s_name e =? s_name s) && (s_arch e =? s_arch s)) eqn:He.
    + cbn [orb negb]. apply andb_true_iff in He as [-> ->]. done.
    + cbn [orb].
      assert (existsb (fun y => (s_name y =? s_name s) && (s_arch y =? s_arch s)) rest
              = false) as ->.
      { apply not_true_is_false. intros (y & Hy & Hm)%existsb_exists.
        apply list_elem_of_In in Hy. rewrite Forall_forall in Hall.
        specialize (Hall y Hy). apply Is_true_true, negb_true_iff in Hall.
        revert Hlow He Hm Hall. unfold NameArchSolvableComparator. cmp_cases. }
      cbn [negb]. revert He. cmp_cases.
Qed.

Lemma available_fresh ev sk fl :
  exists ra st', available ev (fresh sk fl) = (Returns tt, st')
                 /\ result (impl st') = Some ra.
Proof.
  unfold available, mbind, SE_bind, get.
  assert (Ha : exists r st1, apply ev (fresh sk fl) = (Returns tt, st1)
                             /\ result (impl st1) = Some r).
  { unfold apply, mbind, SE_bind, get. cbn beta iota.
    change (applied (impl (fresh sk fl))) with false.
    change (result (impl (fresh sk fl))) with (@None (gset Z)).
    change (filters (impl (fresh sk fl))) with (@nil Filter). cbn beta iota.
    unfold initResult.
    repeat match goal with |- context [if ?b then _ else _] => destruct b end;
      cbn; eauto. }
  destruct Ha as (r & st1 & -> & Hr). cbn beta iota.
  destruct (Solv.installed (pool (sack st1))).
  - unfold get_result. rewrite Hr. cbn. eauto.
  - cbn. eauto.
Qed.

Lemma apply_applied_after ev st :
  fst (apply ev st) = Returns tt ->
  applied (impl (snd (apply ev st))) = true.
Proof.
  intros Ha. destruct (applied (impl st)) eqn:Hap.
  - by rewrite (apply_applied ev st Hap).
  - apply outcome_surj in Ha. by destruct (apply_returns_applied ev st _ Ha Hap).
Qed.

(** X25: [filterExtras] on a query whose [apply] returns with a result:
    it returns, and leaves exactly the members that [installed] keeps for
    which no package that [available] keeps of a new query with
    [IGNORE_REGULAR_EXCLUDES] on the same sack has the same name and the
    same arch. *)
Theorem filterExtras_installed_only ev st r :
  fst (apply ev st) = Returns tt ->
  result (impl (snd (apply ev st))) = Some r ->
  exists ri ra re,
    result (impl (snd (installed ev st))) = Some ri
    /\ result (impl (snd (available ev
         (fresh (sack (snd (apply ev st))) IGNORE_REGULAR_EXCLUDES)))) = Some ra
    /\ fst (filterExtras ev st) = Returns tt
    /\ result (impl (snd (filterExtras ev st))) = Some re
    /\ forall x, x ∈ re <->
         x ∈ ri
         /\ forall y, y ∈ ra ->
              ~ (s_name (pool_id2solvable (pool (sack st)) y)
                 = s_name (pool_id2solvable (pool (sack st)) x)
                 /\ s_arch (pool_id2solvable (pool (sack st)) y)
                    = s_arch (pool_id2solvable (pool (sack st)) x)).
Proof.
  intros Ha Hr. pose proof (apply_applied_after ev st Ha) as Hap.
  pose proof (apply_pool ev st) as Hp.
  apply outcome_surj in Ha. revert Ha Hr Hap Hp. generalize (snd (apply ev st)).
  intros st1 Ha Hr Hap Hp.
  set (p := pool (sack st)).
  set (ri := match Solv.installed (pool (sack st1)) with
             | None => ∅
             | Some rid =>
                 r ∩ installed_walk (pool (sack st1)) (repo_of (pool (sack st1)) rid)
                       (pset_ids_from r (repo_start (repo_of (pool (sack st1)) rid))) ∅
             end).
  assert (Hi : forall q, applied q = true -> result q = Some r ->
            installed ev {| sack := sack st1; impl := q |}
            = (Returns tt, {| sack := sack st1; impl := set_result (Some ri) q |})).
  { intros q Hq Hrq. unfold installed, mbind, SE_bind, get, get_result.
    rewrite (apply_applied ev {| sack := sack st1; impl := q |} Hq).
    cbn beta iota. cbn [impl sack]. rewrite Hrq. unfold ri.
    destruct (Solv.installed (pool (sack st1))); reflexivity. }
  destruct (available_fresh ev (sack st1) IGNORE_REGULAR_EXCLUDES) as (ra & sta & Hav & Hra).
  exists ri, ra.
  assert (Hinst : result (impl (snd (installed ev st))) = Some ri).
  { unfold installed, mbind, SE_bind, get, get_result. rewrite Ha. cbn beta iota.
    rewrite Hr. unfold ri.
    destruct (Solv.installed (pool (sack st1))); reflexivity. }
  assert (Hsize : size ev {| sack := sack st1;
                             impl := set_result (Some ri) (Impl_copy (impl st1)) |}
                  = (Returns (pset_size ri),
                     {| sack := sack st1;
                        impl := set_result (Some ri) (Impl_copy (impl st1)) |})).
  { unfold size, mbind, SE_bind. rewrite apply_applied by exact Hap. reflexivity. }
  rewrite Hav, Hinst. cbn [snd].
  destruct (filterExtras ev st) as [o stf] eqn:E. cbn [fst snd].
  unfold filterExtras, mbind, SE_bind, get in E. rewrite Ha in E. cbn beta iota in E.
  unfold get_result at 1 in E. rewrite Hr in E. cbn beta iota in E.
  unfold sub_query at 1 in E. rewrite (Hi (Impl_copy (impl st1)) Hap Hr) in E.
  cbn beta iota in E. cbn [impl sack] in E.
  unfold set_impl at 1, modify at 1 in E. cbn beta iota in E.
  unfold sub_query at 1 in E. cbn [sack impl] in E.
  rewrite Hsize in E. cbn beta iota in E. cbn [sack impl] in E.
  destruct (Z.eqb_spec (pset_size ri) 0) as [Hz|Hnz].
  - injection E as <- <-. exists ∅. split; [done|]. split; [done|]. split; [done|].
    split; [reflexivity|]. intros x. unfold pset_size in Hz.
    assert (ri = ∅) as -> by (apply leibniz_equiv, size_empty_inv; lia).
    set_solver.
  - unfold sub_query at 1 in E. cbn [sack impl] in E.
    change {| sack := sack st1; impl := new IGNORE_REGULAR_EXCLUDES |}
      with (fresh (sack st1) IGNORE_REGULAR_EXCLUDES) in E.
    rewrite Hav in E. cbn beta iota in E. cbn [impl sack result set_result] in E.
    rewrite Hra in E. unfold set_impl, modify in E. injection E as <- <-.
    eexists. split; [done|]. split; [done|]. split; [done|].
    split; [reflexivity|]. intros x.
    rewrite elem_of_list_to_set, list_elem_of_In, List.filter_In, <- list_elem_of_In,
      elem_of_pset_ids.
    apply and_iff_compat_l.
    rewrite no_name_arch_spec.
    2: { apply std_sort_sorted; unfold NameArchSolvableComparator; intros; cmp_cases. }
    rewrite (existsb_perm _ _ _ (std_sort_perm NameArchSolvableComparator _)).
    rewrite negb_true_iff, <- not_true_iff_false, existsb_exists.
    rewrite Hp. fold p. split.
    + intros Hn y Hy [H1 H2]. apply Hn. exists (pool_id2solvable p y). split.
      * apply list_elem_of_In, list_elem_of_fmap. exists y. split; [done|].
        by apply elem_of_pset_ids.
      * rewrite H1, H2, !Z.eqb_refl. done.
    + intros Hn (s & Hs & Hm).
      apply list_elem_of_In, list_elem_of_fmap in Hs as (y & -> & Hy).
      apply elem_of_pset_ids in Hy. apply andb_true_iff in Hm as [H1 H2].
      apply Z.eqb_eq in H1, H2. by apply (Hn y Hy).
Qed.

End ExtrasFacts.
(** ** filterDuplicated *)

Module DuplicatedFacts.
Import Nevra Query QueryOps QueryProps QueryProps2 QueryExtra QueryFacts NevraFacts
  LatestSpec LatestFacts ExtrasFacts.

(** *** The pairs of a block *)

Definition pair_step (p : Pool) (x : Id) (res : gset Z) (y : Id) : gset Z :=
  if (s_evr (pool_id2solvable p x) =? s_evr (pool_id2solvable p y))
     && negb (s_arch (pool_id2solvable p x) =? s_arch (pool_id2solvable p y))
  then res else {[y]} ∪ ({[x]} ∪ res).

Fixpoint dup_pairs (p : Pool) (b : list Id) (res : gset Z) : gset Z :=
  match b with
  | [] => res
  | x :: tl => dup_pairs p tl (foldl (pair_step p x) res tl)
  end.

Lemma elem_app_r (pre rest : list Id) x :
  elem (pre ++ x :: rest) (Z.of_nat (length pre)) = x.
Proof.
  unfold elem. rewrite Nat2Z.id, lookup_app_r by lia.
  by rewrite Nat.sub_diag.
Qed.

(** A loop over the positions of a segment is a loop over its members. *)
Lemma foldl_positions {B} (f : B -> Id -> B) (pre b rest : list Id) acc start :
  start = Z.of_nat (length pre) ->
  foldl (fun acc pos => f acc (elem (pre ++ b ++ rest) pos)) acc
    (seqZ start (Z.of_nat (length b)))
  = foldl f acc b.
Proof.
  revert pre acc start. induction b as [|x b IH]; intros pre acc start ->.
  - by rewrite seqZ_nil.
  - rewrite seqZ_cons by (cbn [length]; lia). cbn [foldl app].
    rewrite elem_app_r.
    replace (Z.pred (Z.of_nat (length (x :: b)))) with (Z.of_nat (length b))
      by (cbn [length]; lia).
    replace (pre ++ x :: b ++ rest) with ((pre ++ [x]) ++ b ++ rest)
      by (by rewrite <- app_assoc).
    apply IH. rewrite length_app. cbn. lia.
Qed.

Lemma add_duplicates_block p res pre b rest :
  add_duplicates_to_map p res (pre ++ b ++ rest) (Z.of_nat (length pre))
    (Z.of_nat (length pre + length b))
  = dup_pairs p b res.
Proof.
  unfold add_duplicates_to_map.
  replace (Z.of_nat (length pre + length b) - Z.of_nat (length pre))
    with (Z.of_nat (length b)) by lia.
  remember (Z.of_nat (length pre + length b)) as stop eqn:Hstop.
  remember (Z.of_nat (length pre)) as start eqn:Hstart.
  revert pre res start Hstart Hstop. induction b as [|x b IH]; intros pre res start -> ->.
  - by rewrite seqZ_nil.
  - rewrite seqZ_cons by (cbn [length]; lia). cbn [foldl dup_pairs].
    replace (Z.pred (Z.of_nat (length (x :: b)))) with (Z.of_nat (length b))
      by (cbn [length]; lia).
    replace (Z.of_nat (length pre + length (x :: b)) - (Z.of_nat (length pre) + 1))
      with (Z.of_nat (length b)) by (cbn [length]; lia).
    cbn [app]. rewrite elem_app_r.
    replace (pre ++ x :: b ++ rest) with ((pre ++ [x]) ++ b ++ rest)
      by (by rewrite <- app_assoc).
    rewrite (foldl_positions (pair_step p x) (pre ++ [x]) b rest res)
      by (rewrite length_app; cbn; lia).
    apply IH.
    + rewrite length_app. cbn. lia.
    + rewrite length_app. cbn [length]. lia.
Qed.

Lemma dup_of_sym p x y : dup_of p x y = dup_of p y x.
Proof.
  unfold dup_of. rewrite (Z.eqb_sym (s_evr (pool_id2solvable p x))),
    (Z.eqb_sym (s_arch (pool_id2solvable p x))). done.
Qed.

Lemma elem_of_pair_fold p x tl res z :
  z ∈ foldl (pair_step p x) res tl
  <-> z ∈ res \/ exists y, y ∈ tl /\ dup_of p x y = true /\ (z = x \/ z = y).
Proof.
  revert res. induction tl as [|y tl IH]; intros res; cbn [foldl].
  - split; [by left|]. intros [H|(y & Hy & _)]; [done|]. by apply elem_of_nil in Hy.
  - rewrite IH. setoid_rewrite elem_of_cons. unfold pair_step, dup_of.
    destruct ((s_evr (pool_id2solvable p x) =? s_evr (pool_id2solvable p y))
              && negb (s_arch (pool_id2solvable p x) =? s_arch (pool_id2solvable p y)))
      eqn:E; cbn [negb].
    + split.
      * intros [H|(y' & Hy' & Hd & Hz)]; [by left|]. right. exists y'. auto.
      * intros [H|(y' & [->|Hy'] & Hd & Hz)]; [by left| |].
        -- rewrite E in Hd. discriminate Hd.
        -- right. exists y'. auto.
    + rewrite !elem_of_union, !elem_of_singleton. split.
      * intros [[->|[->|H]]|(y' & Hy' & Hd & Hz)].
        -- right. exists y. rewrite E. auto.
        -- right. exists y. rewrite E. auto.
        -- by left.
        -- right. exists y'. auto.
      * intros [H|(y' & [->|Hy'] & Hd & Hz)].
        -- left. auto.
        -- left. destruct Hz as [->| ->]; auto.
        -- right. exists y'. auto.
Qed.

(** The members of a block that [add_duplicates_to_map] sets: those with
    another member that is a duplicate of them. *)
Lemma elem_of_dup_pairs p b res z :
  NoDup b ->
  z ∈ dup_pairs p b res
  <-> z ∈ res \/ (z ∈ b /\ exists y, y ∈ b /\ y <> z /\ dup_of p z y = true).
Proof.
  revert res. induction b as [|x tl IH]; intros res Hnd; cbn [dup_pairs].
  - split; [by left|]. intros [H|[H _]]; [done|]. by apply elem_of_nil in H.
  - apply NoDup_cons in Hnd as [Hx Hnd]. rewrite (IH _ Hnd), elem_of_pair_fold.
    setoid_rewrite elem_of_cons. split.
    + intros [[H|(y & Hy & Hd & [->| ->])]|(Hz & y & Hy & Hne & Hd)].
      * by left.
      * right. split; [by left|]. exists y. split; [by right|]. split; [|done].
        intros ->. done.
      * right. split; [by right|]. exists x. split; [by left|]. split.
        -- intros ->. done.
        -- by rewrite dup_of_sym.
      * right. split; [by right|]. exists y. auto.
    + intros [H|([->|Hz] & y & [->|Hy] & Hne & Hd)].
      * left. by left.
      * done.
      * left. right. exists y. auto.
      * left. right. exists z. rewrite dup_of_sym. auto.
      * right. split; [done|]. exists y. auto.
Qed.

(** *** The block loop *)

Definition same_name (p : Pool) (a b : Id) : bool :=
  s_name (pool_id2solvable p a) =? s_name (pool_id2solvable p b).

(** What [filterDuplicated] does behind its loop. *)
Definition dup_final (p : Pool) (q : Queue) (st : DupState) : gset Z :=
  if negb (d_start_block st =? -1)
  then add_duplicates_to_map p (d_map st) q (d_start_block st) (Z.of_nat (length q))
  else d_map st.

Definition dup_blocks (p : Pool) (bs : list (list Id)) (res : gset Z) : gset Z :=
  foldl (fun res b => dup_pairs p b res) res bs.

Lemma dup_loop_inv p q rest : forall pre h cur' st,
  q = pre ++ (h :: cur') ++ rest ->
  d_highest st = Some h ->
  d_start_block st = Z.of_nat (length pre) ->
  dup_final p q (dup_loop p q (length rest)
                   (Z.of_nat (length pre + length (h :: cur'))) st)
  = dup_blocks p (runs_from (same_name p) h (h :: cur') rest) (d_map st).
Proof.
  induction rest as [|x rest IH]; intros pre h cur' st Hq Hh Hs.
  - cbn [length dup_loop runs_from]. unfold dup_final, dup_blocks. rewrite Hs.
    assert (Hne : (Z.of_nat (length pre) =? -1) = false) by (apply Z.eqb_neq; lia).
    rewrite Hne. cbn [negb foldl].
    replace (Z.of_nat (length q)) with (Z.of_nat (length pre + length (h :: cur'))).
    2: { rewrite Hq, !length_app. cbn [length]. lia. }
    rewrite Hq. apply add_duplicates_block.
  - remember (Z.of_nat (length pre + length (h :: cur'))) as i eqn:Hi.
    cbn [length dup_loop runs_from].
    assert (Hel : elem q i = x) by (rewrite Hq, Hi; apply elem_middle).
    assert (Hne : (Z.of_nat (length pre) =? -1) = false) by (apply Z.eqb_neq; lia).
    unfold dup_step. rewrite Hel, Hh, Hs, Hne. fold (same_name p h x).
    replace (i + 1) with (Z.of_nat (length (pre ++ h :: cur') + length [x]))
      by (rewrite Hi, length_app; cbn [length]; lia).
    destruct (same_name p h x) eqn:Hsame; cbn [negb].
    + replace (Z.of_nat (length (pre ++ h :: cur') + length [x]))
        with (Z.of_nat (length pre + length (h :: (cur' ++ [x]))))
        by (rewrite length_app; cbn [length]; rewrite length_app; cbn [length]; lia).
      change ((h :: cur') ++ [x]) with (h :: (cur' ++ [x])).
      apply IH; [|done|done]. rewrite Hq. cbn [app]. by rewrite <- app_assoc.
    + rewrite (IH (pre ++ h :: cur') x []); cbn [d_highest d_start_block d_map].
      * unfold dup_blocks. cbn [foldl]. f_equal.
        destruct (Z.eqb_spec (Z.of_nat (length pre)) (i - 1)) as [He|He]; cbn [negb].
        -- destruct cur' as [|c cur']; [reflexivity|]. cbn [length] in Hi. lia.
        -- rewrite Hq, Hi. apply (add_duplicates_block p _ pre (h :: cur') (x :: rest)).
      * rewrite Hq. by rewrite <- app_assoc.
      * done.
      * rewrite Hi, length_app. done.
Qed.

Lemma dup_loop_spec p q :
  dup_final p q (dup_loop p q (length q) 0
                   {| d_highest := None; d_start_block := -1; d_map := ∅ |})
  = dup_blocks p (runs (same_name p) q) ∅.
Proof.
  destruct q as [|x rest] eqn:Hq; [reflexivity|].
  cbn [length dup_loop]. rewrite <- Hq.
  assert (Hstep : dup_step p q 0 {| d_highest := None; d_start_block := -1; d_map := ∅ |}
                  = {| d_highest := Some x; d_start_block := 0; d_map := ∅ |}).
  { unfold dup_step. cbn [d_highest d_start_block d_map]. rewrite Hq. reflexivity. }
  rewrite Hstep.
  pose proof (dup_loop_inv p q rest [] x []
    {| d_highest := Some x; d_start_block := 0; d_map := ∅ |}) as H.
  cbn [length app d_highest d_start_block d_map Nat.add] in H.
  change (Z.of_nat 1) with (0 + 1) in H. rewrite H; try done.
  unfold runs. by rewrite Hq.
Qed.

Lemma elem_of_dup_blocks p bs res z :
  Forall NoDup bs ->
  z ∈ dup_blocks p bs res
  <-> z ∈ res
      \/ exists b, b ∈ bs /\ z ∈ b /\ exists y, y ∈ b /\ y <> z /\ dup_of p z y = true.
Proof.
  revert res. induction bs as [|b bs IH]; intros res Hnd; unfold dup_blocks; cbn [foldl].
  - split; [by left|]. intros [H|(b & Hb & _)]; [done|]. by apply elem_of_nil in Hb.
  - apply Forall_cons in Hnd as [Hb Hnd]. fold (dup_blocks p bs (dup_pairs p b res)).
    rewrite (IH _ Hnd), (elem_of_dup_pairs p b res z Hb). setoid_rewrite elem_of_cons.
    split.
    + intros [[H|H]|(b' & Hb' & H)]; [by left| |].
      * right. exists b. auto.
      * right. exists b'. auto.
    + intros [H|(b' & [->|Hb'] & H)].
      * left. by left.
      * left. by right.
      * right. exists b'. auto.
Qed.

(** *** Runs of a queue that is sorted by name *)

Definition name_le (p : Pool) (a b : Id) : Prop :=
  s_name (pool_id2solvable p a) <= s_name (pool_id2solvable p b).

Lemma runs_from_sorted p h cur rest :
  cur <> [] ->
  Forall (fun x => same_name p h x = true) cur ->
  StronglySorted (name_le p) (cur ++ rest) ->
  forall b, b ∈ runs_from (same_name p) h cur rest ->
    (forall x, x ∈ b -> x ∈ cur ++ rest)
    /\ (forall x y, x ∈ b -> y ∈ b -> same_name p x y = true)
    /\ (forall x y, x ∈ b -> y ∈ cur ++ rest -> same_name p x y = true -> y ∈ b).
Proof.
  revert h cur. induction rest as [|x0 rest IH]; intros h cur Hne Hcur Hs b;
    cbn [runs_from].
  - rewrite app_nil_r. intros ->%list_elem_of_singleton.
    rewrite Forall_forall in Hcur. split; [done|]. split; [|done].
    intros x y Hx Hy. pose proof (Hcur x Hx) as Hx'. pose proof (Hcur y Hy) as Hy'.
    unfold same_name in *. apply Z.eqb_eq in Hx', Hy'. apply Z.eqb_eq. congruence.
  - destruct (same_name p h x0) eqn:Hsame.
    + replace (cur ++ x0 :: rest) with ((cur ++ [x0]) ++ rest) in * by (by rewrite <- app_assoc).
      apply IH; [by destruct cur| |done].
      apply Forall_app. split; [done|]. by constructor.
    + intros [->|Hb]%elem_of_cons.
      * rewrite Forall_forall in Hcur. split; [|split].
        -- intros x Hx. apply elem_of_app. by left.
        -- intros x y Hx Hy. pose proof (Hcur x Hx) as Hx'. pose proof (Hcur y Hy) as Hy'.
           unfold same_name in *. apply Z.eqb_eq in Hx', Hy'. apply Z.eqb_eq. congruence.
        -- intros x y Hx [Hy|Hy]%elem_of_app Hxy; [done|]. exfalso.
           specialize (Hcur x Hx).
           assert (H1 : name_le p x x0).
           { apply (StronglySorted_app_1_elem_of _ cur (x0 :: rest)); [done|done|]. left. }
           assert (H2 : name_le p x0 y).
           { apply StronglySorted_app_1_r, StronglySorted_cons in Hs as [Hall _].
             apply elem_of_cons in Hy as [->|Hy]; [unfold name_le; lia|].
             rewrite Forall_forall in Hall. by apply Hall. }
           unfold same_name, name_le in *.
           apply Z.eqb_eq in Hcur, Hxy. apply Z.eqb_neq in Hsame. lia.
      * assert (Hs' : StronglySorted (name_le p) ([x0] ++ rest))
          by (by apply StronglySorted_app_1_r in Hs).
        assert (Hx0 : Forall (fun x => same_name p x0 x = true) [x0]).
        { constructor; [|done]. unfold same_name. apply Z.eqb_refl. }
        destruct (IH x0 [x0] ltac:(done) Hx0 Hs' b Hb) as (I1 & I2 & I3).
        split; [|split].
        -- intros x Hx. apply elem_of_app. right. by apply I1.
        -- exact I2.
        -- intros x y Hx [Hy|Hy]%elem_of_app Hxy; [|by apply (I3 x)]. exfalso.
           rewrite Forall_forall in Hcur. specialize (Hcur y Hy).
           assert (H1 : name_le p y x0).
           { apply (StronglySorted_app_1_elem_of _ cur (x0 :: rest)); [done|done|]. left. }
           assert (H2 : name_le p x0 x).
           { specialize (I1 x Hx). cbn [app] in I1, Hs'.
             apply StronglySorted_cons in Hs' as [Hall _].
             apply elem_of_cons in I1 as [->|I1]; [unfold name_le; lia|].
             rewrite Forall_forall in Hall. by apply Hall. }
           unfold same_name, name_le in *.
           apply Z.eqb_eq in Hcur, Hxy. apply Z.eqb_neq in Hsame. lia.
Qed.

Lemma runs_sorted p q :
  StronglySorted (name_le p) q ->
  forall b, b ∈ runs (same_name p) q ->
    (forall x, x ∈ b -> x ∈ q)
    /\ (forall x y, x ∈ b -> y ∈ b -> same_name p x y = true)
    /\ (forall x y, x ∈ b -> y ∈ q -> same_name p x y = true -> y ∈ b).
Proof.
  destruct q as [|x rest]; intros Hs b; cbn [runs].
  - intros H. by apply elem_of_nil in H.
  - apply (runs_from_sorted p x [x] rest); [done| |done].
    constructor; [|done]. unfold same_name. apply Z.eqb_refl.
Qed.

Lemma NoDup_concat_inv {A} (bs : list (list A)) : NoDup (concat bs) -> Forall NoDup bs.
Proof.
  induction bs as [|b bs IH]; cbn [concat]; [done|].
  intros (H1 & _ & H2)%NoDup_app. constructor; auto.
Qed.

Lemma sortcmp_name_le p a b : filter_latest_sortcmp p a b <= 0 -> name_le p a b.
Proof.
  unfold filter_latest_sortcmp, name_le.
  destruct (Z.eqb_spec (s_name (pool_id2solvable p a) - s_name (pool_id2solvable p b)) 0);
    cbn [negb]; lia.
Qed.

Lemma sorted_weaken {A} (R S : A -> A -> Prop) l :
  (forall a b, R a b -> S a b) -> StronglySorted R l -> StronglySorted S l.
Proof.
  intros H. induction 1 as [|x l Hs IH Hall]; constructor; [done|].
  eapply Forall_impl; [exact Hall|]. auto.
Qed.

Lemma installed_applied ev st :
  fst (installed ev st) = Returns tt ->
  applied (impl (snd (installed ev st))) = true
  /\ pool (sack (snd (installed ev st))) = pool (sack st).
Proof.
  pose proof (apply_applied_after ev st) as Hap. pose proof (apply_pool ev st) as Hp.
  unfold installed, mbind, SE_bind, get, get_result.
  destruct (apply ev st) as [[[]|e] st1]; cbn [fst snd] in *; [|done].
  destruct (result (impl st1)); [|done].
  destruct (Solv.installed (pool (sack st1))); cbn; auto.
Qed.

Lemma elem_of_name_queue (ri : gset Z) n x :
  (forall x, x ∈ ri -> 1 <= x < n) ->
  x ∈ List.filter (pset_has ri) (Z.of_nat <$> seq 1 (Z.to_nat n - 1)) <-> x ∈ ri.
Proof.
  intros Hrange. rewrite list_elem_of_In, List.filter_In, <- list_elem_of_In.
  unfold pset_has. rewrite bool_decide_eq_true, list_elem_of_fmap.
  split; [by intros [_ H]|]. intros Hx. split; [|done].
  exists (Z.to_nat x). specialize (Hrange x Hx). split; [lia|].
  apply list_elem_of_In, in_seq. lia.
Qed.

Lemma NoDup_name_queue (ri : gset Z) n :
  NoDup (List.filter (pset_has ri) (Z.of_nat <$> seq 1 (Z.to_nat n - 1))).
Proof.
  apply NoDup_ListNoDup, List.NoDup_filter, NoDup_ListNoDup.
  apply NoDup_fmap; [apply _|]. apply NoDup_seq.
Qed.

(** X26: [filterDuplicated], with a [solv_sort] that sorts and the
    installed members in the id range of the pool: it leaves exactly the
    members [z] that [installed] keeps for which [installed] keeps another
    package of the same name that is not just the same evr for another
    arch. *)
Theorem filterDuplicated_same_name ev st ri :
  sorts (pool (sack st)) (filter_latest_sortcmp (pool (sack st))) ->
  fst (installed ev st) = Returns tt ->
  result (impl (snd (installed ev st))) = Some ri ->
  (forall x, x ∈ ri -> 1 <= x < nsolvables (pool (sack st))) ->
  exists rd,
    fst (filterDuplicated ev st) = Returns tt
    /\ result (impl (snd (filterDuplicated ev st))) = Some rd
    /\ forall z, z ∈ rd <->
         z ∈ ri
         /\ exists y, y ∈ ri /\ y <> z
              /\ s_name (pool_id2solvable (pool (sack st)) y)
                 = s_name (pool_id2solvable (pool (sack st)) z)
              /\ ~ (s_evr (pool_id2solvable (pool (sack st)) z)
                    = s_evr (pool_id2solvable (pool (sack st)) y)
                    /\ s_arch (pool_id2solvable (pool (sack st)) z)
                       <> s_arch (pool_id2solvable (pool (sack st)) y)).
Proof.
  intros Hsort Hi Hr Hrange.
  destruct (installed_applied ev st Hi) as [Hap Hp].
  set (p := pool (sack st)) in *.
  set (q := solv_sort p (filter_latest_sortcmp p)
              (List.filter (pset_has ri) (Z.of_nat <$> seq 1 (Z.to_nat (nsolvables p) - 1)))).
  exists (dup_blocks p (runs (same_name p) q) ∅).
  assert (E : filterDuplicated ev st
              = (Returns tt,
                 {| sack := sack (snd (installed ev st));
                    impl := set_result (Some (dup_blocks p (runs (same_name p) q) ∅))
                              (impl (snd (installed ev st))) |})).
  { unfold filterDuplicated, mbind, SE_bind, get. cbn beta iota.
    rewrite (surjective_pairing (installed ev st)), Hi. cbn beta iota.
    revert Hr Hap Hp. generalize (snd (installed ev st)). intros st2 Hr Hap Hp.
    unfold get_result at 1. rewrite Hr. cbn beta iota.
    unfold hy_query_to_name_ordered_queue, mbind, SE_bind, get.
    rewrite (apply_applied ev st2 Hap). cbn beta iota. rewrite Hr, Hp. fold p. cbn beta iota.
    unfold mret, SE_ret. cbn beta iota. fold q.
    fold (dup_final p q (dup_loop p q (length q) 0
            {| d_highest := None; d_start_block := -1; d_map := ∅ |})).
    rewrite dup_loop_spec. reflexivity. }
  rewrite E. cbn [fst snd impl result set_result].
  split; [reflexivity|]. split; [reflexivity|].
  destruct (Hsort (List.filter (pset_has ri)
              (Z.of_nat <$> seq 1 (Z.to_nat (nsolvables p) - 1)))) as [Hperm Hsorted].
  fold q in Hperm, Hsorted.
  assert (Hq : forall x, x ∈ q <-> x ∈ ri).
  { intros x. rewrite Hperm. by apply elem_of_name_queue. }
  assert (Hnd : NoDup q) by (rewrite Hperm; apply NoDup_name_queue).
  assert (Hs : StronglySorted (name_le p) q).
  { eapply sorted_weaken; [|exact Hsorted]. apply sortcmp_name_le. }
  pose proof (concat_runs (same_name p) q) as Hcat.
  assert (Hbs : Forall NoDup (runs (same_name p) q)).
  { apply NoDup_concat_inv. by rewrite Hcat. }
  assert (Hdup : forall z y, dup_of p z y = true
                 <-> ~ (s_evr (pool_id2solvable p z) = s_evr (pool_id2solvable p y)
                        /\ s_arch (pool_id2solvable p z) <> s_arch (pool_id2solvable p y))).
  { intros z y. unfold dup_of. rewrite negb_true_iff, andb_false_iff, negb_false_iff.
    rewrite Z.eqb_neq, Z.eqb_eq. split; [naive_solver|]. intros Hn.
    destruct (decide (s_evr (pool_id2solvable p z) = s_evr (pool_id2solvable p y)));
      [|by left].
    right. destruct (decide (s_arch (pool_id2solvable p z)
                             = s_arch (pool_id2solvable p y))); [done|]. naive_solver. }
  intros z. rewrite (elem_of_dup_blocks p _ ∅ z Hbs). split.
  - intros [H|(b & Hb & Hz & y & Hy & Hne & Hd)]; [by apply elem_of_empty in H|].
    destruct (runs_sorted p q Hs b Hb) as (I1 & I2 & I3).
    split; [by apply Hq, I1|]. exists y. split; [by apply Hq, I1|]. split; [done|].
    split; [|by apply Hdup].
    specialize (I2 y z Hy Hz). unfold same_name in I2. by apply Z.eqb_eq in I2.
  - intros (Hz & y & Hy & Hne & Hname & Hd). right.
    apply Hq in Hz, Hy.
    assert (Hin : exists b, b ∈ runs (same_name p) q /\ z ∈ b).
    { rewrite <- Hcat in Hz. apply list_elem_of_In, in_concat in Hz as (b & Hb & Hz).
      exists b. split; by apply list_elem_of_In. }
    destruct Hin as (b & Hb & Hzb). exists b. split; [done|]. split; [done|].
    destruct (runs_sorted p q Hs b Hb) as (I1 & I2 & I3).
    exists y. split; [|split; [done|by apply Hdup]].
    apply (I3 z y Hzb Hy). unfold same_name. apply Z.eqb_eq. done.
Qed.

End DuplicatedFacts.
(** ** The kernel pool: the query facts at work *)

Module QueryMoreExamples.
Import Nevra NevraSpec Query QueryOps QueryProps QueryProps2 QueryExtra QueryFacts
  QueryInv NevraFacts.

Lemma filterNevraStrict_any_patterns_witness :
  exists r',
    filterNevraStrict HY_EQ two_patterns applied_kernel_query
    = (Returns tt, {| sack := sack applied_kernel_query;
                      impl := set_result (Some r') (impl applied_kernel_query) |})
    /\ forall x, x ∈ r' <->
         x ∈ all_four
         /\ (has_bit HY_EQ HY_NOT = false <->
             exists n,
               n ∈ parsed (pool (sack applied_kernel_query))
                     (negb (has_bit HY_EQ HY_LT || has_bit HY_EQ HY_GT)) two_patterns
               /\ nevra_match (pool (sack applied_kernel_query)) HY_EQ
                    (negb (has_bit HY_EQ HY_LT || has_bit HY_EQ HY_GT)) n
                    (pool_id2solvable (pool (sack applied_kernel_query)) x) = true).
Proof.
  apply (NevraStrictFacts.filterNevraStrict_any_patterns HY_EQ two_patterns
           applied_kernel_query all_four).
  vm_compute. reflexivity.
Defined.

(** Two patterns: the packages 2 and 3 carry the first, the package 4 the
    second. *)
Example two_patterns_select :
  result (impl (snd (filterNevraStrict HY_EQ two_patterns applied_kernel_query)))
  = Some {[2; 3; 4]}.
Proof. vm_compute. reflexivity. Qed.


Example zero_epoch_parses :
  parse Ex.kernel_pool (cstr "p-00:1-1.x86_64") true
  = Some {| name := 6; arch := 5; evr := 3; evr_str := [] |}.
Proof. vm_compute. reflexivity. Qed.

Lemma parse_accepts_shape_witness :
  exists N pre E' R A,
    kernel_nevra 4 = N ++ "-"%char :: (pre ++ E') ++ "-"%char :: R ++ "."%char :: A
    /\ no_char "-" (pre ++ E') = true /\ no_char "-" R = true
    /\ no_char "-" A = true /\ no_char "." A = true
    /\ parse_parts Ex.kernel_pool N E' R A true
       = Some {| name := 6; arch := 5; evr := 3; evr_str := [] |}
    /\ name {| name := 6; arch := 5; evr := 3; evr_str := [] |} <> 0
    /\ arch {| name := 6; arch := 5; evr := 3; evr_str := [] |} <> 0
    /\ (true = true -> evr {| name := 6; arch := 5; evr := 3; evr_str := [] |} <> 0).
Proof.
  apply (NevraParseFacts.parse_accepts_shape Ex.kernel_pool (kernel_nevra 4) true
           {| name := 6; arch := 5; evr := 3; evr_str := [] |}).
  vm_compute. reflexivity.
Defined.

Lemma apply_one_more_filter_witness :
  fst (apply Ex.no_evaluators
         (reopen (filters (impl kernel_query) ++ [Filter_pset HY_PKG HY_EQ {[2; 4; 9]}])
            kernel_query)) = Returns tt
  /\ result (impl (snd (apply Ex.no_evaluators
       (reopen (filters (impl kernel_query) ++ [Filter_pset HY_PKG HY_EQ {[2; 4; 9]}])
          kernel_query))))
     = Some (if has_bit (cmpType (Filter_pset HY_PKG HY_EQ {[2; 4; 9]})) HY_NOT
             then all_four ∖ {[2; 4; 9]} else all_four ∩ {[2; 4; 9]}).
Proof.
  apply (QueryMore.apply_one_more_filter Ex.no_evaluators kernel_query
           (Filter_pset HY_PKG HY_EQ {[2; 4; 9]}) all_four {[2; 4; 9]}).
  - apply applied_clean_fresh.
  - vm_compute. reflexivity.
  - vm_compute. reflexivity.
  - reflexivity.
Defined.

Lemma addFilter_pset_selects_witness :
  (fst (addFilter_pset HY_PKG HY_EQ {[2; 4; 9]} kernel_query) = Returns None
   /\ fst (apply Ex.no_evaluators (snd (addFilter_pset HY_PKG HY_EQ {[2; 4; 9]} kernel_query)))
      = Returns tt
   /\ result (impl (snd (apply Ex.no_evaluators
        (snd (addFilter_pset HY_PKG HY_EQ {[2; 4; 9]} kernel_query)))))
      = Some (all_four ∩ {[2; 4; 9]}))
  /\ (fst (addFilter_pset HY_PKG HY_NEQ {[2; 4; 9]} kernel_query) = Returns None
      /\ fst (apply Ex.no_evaluators
                (snd (addFilter_pset HY_PKG HY_NEQ {[2; 4; 9]} kernel_query))) = Returns tt
      /\ result (impl (snd (apply Ex.no_evaluators
           (snd (addFilter_pset HY_PKG HY_NEQ {[2; 4; 9]} kernel_query)))))
         = Some (all_four ∖ {[2; 4; 9]})).
Proof.
  apply (QueryMore.addFilter_pset_selects Ex.no_evaluators kernel_query all_four {[2; 4; 9]}).
  - apply applied_clean_fresh.
  - vm_compute. reflexivity.
  - vm_compute. reflexivity.
Defined.

Lemma reldep_naming_nothing_empties_witness :
  (fst (addFilter_reldeplist HY_PKG_REQUIRES [] kernel_query) = Returns None
   /\ fst (apply Ex.no_evaluators (snd (addFilter_reldeplist HY_PKG_REQUIRES [] kernel_query)))
      = Returns tt
   /\ result (impl (snd (apply Ex.no_evaluators
        (snd (addFilter_reldeplist HY_PKG_REQUIRES [] kernel_query))))) = Some ∅)
  /\ (Dependency_new Ex.no_helpers (sack kernel_query) (Some (cstr "nothing")) = None ->
      fst (addFilter_str Ex.no_helpers Ex.no_evaluators HY_PKG_REQUIRES HY_EQ
             (Some (cstr "nothing")) kernel_query) = Returns None
      /\ fst (apply Ex.no_evaluators
                (snd (addFilter_str Ex.no_helpers Ex.no_evaluators HY_PKG_REQUIRES HY_EQ
                        (Some (cstr "nothing")) kernel_query))) = Returns tt
      /\ result (impl (snd (apply Ex.no_evaluators
           (snd (addFilter_str Ex.no_helpers Ex.no_evaluators HY_PKG_REQUIRES HY_EQ
                   (Some (cstr "nothing")) kernel_query))))) = Some ∅).
Proof.
  apply (QueryMore.reldep_naming_nothing_empties Ex.no_helpers Ex.no_evaluators
           kernel_query all_four HY_PKG_REQUIRES (Some (cstr "nothing"))).
  - apply applied_clean_fresh.
  - vm_compute. reflexivity.
  - vm_compute. reflexivity.
  - reflexivity.
Defined.

Lemma addFilter_error_keeps_query_witness :
  DNF_ERROR_BAD_QUERY = DNF_ERROR_BAD_QUERY
  /\ snd (addFilter Ex.no_helpers Ex.no_evaluators (AddNum HY_PKG_NAME HY_EQ 1)
            narrowed_kernel_query) = narrowed_kernel_query.
Proof.
  apply (QueryMore.addFilter_error_keeps_query Ex.no_helpers Ex.no_evaluators
           (AddNum HY_PKG_NAME HY_EQ 1) narrowed_kernel_query DNF_ERROR_BAD_QUERY).
  reflexivity.
Defined.

Lemma apply_only_narrows_witness :
  (exists r', fst (apply Ex.no_evaluators narrowed_kernel_query) = Returns tt
              /\ result (impl (snd (apply Ex.no_evaluators narrowed_kernel_query))) = Some r'
              /\ r' ⊆ all_four
              /\ sack (snd (apply Ex.no_evaluators narrowed_kernel_query))
                 = sack narrowed_kernel_query)
  \/ fst (apply Ex.no_evaluators narrowed_kernel_query) = Throws AssertionFailure.
Proof.
  apply (QueryMore.apply_only_narrows Ex.no_evaluators narrowed_kernel_query all_four).
  vm_compute. reflexivity.
Defined.

Lemma clear_then_apply_witness :
  fst (apply Ex.no_evaluators (snd (clear narrowed_kernel_query))) = Returns tt
  /\ result (impl (snd (apply Ex.no_evaluators (snd (clear narrowed_kernel_query)))))
     = Some (restrict (list_to_set (for_pkg_solvables (pool (sack narrowed_kernel_query))))
               (mode_considered (sack narrowed_kernel_query)
                  (considered_cached (impl narrowed_kernel_query))
                  (flags (impl narrowed_kernel_query))))
  /\ filters (impl (snd (apply Ex.no_evaluators (snd (clear narrowed_kernel_query))))) = []
  /\ applied (impl (snd (apply Ex.no_evaluators (snd (clear narrowed_kernel_query))))) = true.
Proof.
  apply (QueryMore.clear_then_apply Ex.no_evaluators narrowed_kernel_query).
  intros H1 H2. vm_compute. reflexivity.
Defined.

Example clear_then_apply_gives_all :
  result (impl (snd (apply Ex.no_evaluators narrowed_kernel_query))) = Some {[2; 4]}
  /\ result (impl (snd (apply Ex.no_evaluators (snd (clear narrowed_kernel_query)))))
     = Some all_four.
Proof. split; vm_compute; reflexivity. Qed.

Lemma kernel_installed_in_range : installed_in_range Ex.kernel_pool 1 all_four.
Proof.
  intros x Hx Hrep.
  assert (Hc : x = 1 \/ x = 2 \/ x = 3 \/ x = 4) by (unfold all_four in Hx; set_solver).
  destruct Hc as [->|[->|[->| ->]]]; vm_compute in Hrep |- *;
    first [discriminate Hrep | split; congruence].
Qed.

Lemma installed_keeps_installed_repo_witness :
  exists ri ra,
    fst (installed Ex.no_evaluators kernel_query) = Returns tt
    /\ result (impl (snd (installed Ex.no_evaluators kernel_query))) = Some ri
    /\ fst (available Ex.no_evaluators kernel_query) = Returns tt
    /\ result (impl (snd (available Ex.no_evaluators kernel_query))) = Some ra
    /\ forall x,
         (x ∈ ri <-> x ∈ all_four
                     /\ s_repo (pool_id2solvable (pool (sack kernel_query)) x)
                        = repoid (repo_of (pool (sack kernel_query)) 1))
         /\ (x ∈ ra <-> x ∈ all_four
                        /\ s_repo (pool_id2solvable (pool (sack kernel_query)) x)
                           <> repoid (repo_of (pool (sack kernel_query)) 1)).
Proof.
  apply (QueryMore.installed_keeps_installed_repo Ex.no_evaluators kernel_query all_four 1).
  - vm_compute. reflexivity.
  - vm_compute. reflexivity.
  - reflexivity.
  - exact kernel_installed_in_range.
Defined.

Lemma filterExtras_installed_only_witness :
  exists ri ra re,
    result (impl (snd (installed Ex.no_evaluators kernel_query))) = Some ri
    /\ result (impl (snd (available Ex.no_evaluators
         (fresh (sack (snd (apply Ex.no_evaluators kernel_query)))
            IGNORE_REGULAR_EXCLUDES)))) = Some ra
    /\ fst (filterExtras Ex.no_evaluators kernel_query) = Returns tt
    /\ result (impl (snd (filterExtras Ex.no_evaluators kernel_query))) = Some re
    /\ forall x, x ∈ re <->
         x ∈ ri
         /\ forall y, y ∈ ra ->
              ~ (s_name (pool_id2solvable (pool (sack kernel_query)) y)
                 = s_name (pool_id2solvable (pool (sack kernel_query)) x)
                 /\ s_arch (pool_id2solvable (pool (sack kernel_query)) y)
                    = s_arch (pool_id2solvable (pool (sack kernel_query)) x)).
Proof.
  apply (ExtrasFacts.filterExtras_installed_only Ex.no_evaluators kernel_query all_four).
  - vm_compute. reflexivity.
  - vm_compute. reflexivity.
Defined.

(** Both installed kernels have an available package of their name and
    arch: no extras. *)
Example kernel_has_no_extras :
  fst (filterExtras Ex.no_evaluators kernel_query) = Returns tt
  /\ result (impl (snd (filterExtras Ex.no_evaluators kernel_query))) = Some ∅.
Proof. split; vm_compute; reflexivity. Qed.

(** *** The insertion sort of the example pools sorts *)

Lemma insert_by_permutes cmp x l : Ex.insert_by cmp x l ≡ₚ x :: l.
Proof.
  induction l as [|y l IH]; cbn [Ex.insert_by]; [done|].
  destruct (cmp x y <=? 0); [done|]. rewrite IH. apply Permutation_swap.
Qed.

Lemma insert_by_sorted cmp x l :
  (forall a b, cmp a b <= 0 \/ cmp b a <= 0) ->
  (forall a b c, cmp a b <= 0 -> cmp b c <= 0 -> cmp a c <= 0) ->
  StronglySorted (fun a b => cmp a b <= 0) l ->
  StronglySorted (fun a b => cmp a b <= 0) (Ex.insert_by cmp x l).
Proof.
  intros Htot Htrans. induction 1 as [|y l Hs IH Hall]; cbn [Ex.insert_by].
  - repeat constructor.
  - destruct (Z.leb_spec (cmp x y) 0) as [Hle|Hgt].
    + constructor; [by constructor|]. constructor; [done|].
      eapply Forall_impl; [exact Hall|]. intros z Hz. by apply (Htrans x y z).
    + constructor; [done|]. rewrite (insert_by_permutes cmp x l). constructor; [|done].
      destruct (Htot x y); [lia|done].
Qed.

Lemma isort_sorts cmp :
  (forall a b, cmp a b <= 0 \/ cmp b a <= 0) ->
  (forall a b c, cmp a b <= 0 -> cmp b c <= 0 -> cmp a c <= 0) ->
  forall l, Ex.isort cmp l ≡ₚ l /\ StronglySorted (fun a b => cmp a b <= 0) (Ex.isort cmp l).
Proof.
  intros Htot Htrans. induction l as [|x l [IH1 IH2]]; cbn [Ex.isort foldr].
  - split; [done|constructor].
  - fold (Ex.isort cmp l). split.
    + by rewrite insert_by_permutes, IH1.
    + by apply insert_by_sorted.
Qed.

Ltac sgn_cases :=
  repeat match goal with
    | |- context [Z.sgn ?x] => destruct (Z.sgn_spec x) as [[? ->]|[[? ->]|[? ->]]]
    end.

Lemma kernel_sorts : sorts Ex.kernel_pool (filter_latest_sortcmp Ex.kernel_pool).
Proof.
  unfold sorts. change (solv_sort Ex.kernel_pool) with Ex.isort.
  apply isort_sorts.
  - intros a b. unfold filter_latest_sortcmp.
    change (pool_evrcmp Ex.kernel_pool) with (fun a b : Z => Z.sgn (a - b)). cbv beta.
    generalize (s_name (pool_id2solvable Ex.kernel_pool a)),
      (s_name (pool_id2solvable Ex.kernel_pool b)),
      (s_evr (pool_id2solvable Ex.kernel_pool a)),
      (s_evr (pool_id2solvable Ex.kernel_pool b)).
    intros na nb ea eb. sgn_cases;
      repeat match goal with
        | |- context [?x =? ?y] => destruct (Z.eqb_spec x y)
        end; cbn [negb]; lia.
  - intros a b c. unfold filter_latest_sortcmp.
    change (pool_evrcmp Ex.kernel_pool) with (fun a b : Z => Z.sgn (a - b)). cbv beta.
    generalize (s_name (pool_id2solvable Ex.kernel_pool a)),
      (s_name (pool_id2solvable Ex.kernel_pool b)),
      (s_name (pool_id2solvable Ex.kernel_pool c)),
      (s_evr (pool_id2solvable Ex.kernel_pool a)),
      (s_evr (pool_id2solvable Ex.kernel_pool b)),
      (s_evr (pool_id2solvable Ex.kernel_pool c)).
    intros na nb nc ea eb ec. sgn_cases;
      repeat match goal with
        | |- context [?x =? ?y] => destruct (Z.eqb_spec x y)
        end; cbn [negb]; lia.
Qed.

Lemma filterDuplicated_same_name_witness :
  exists rd,
    fst (filterDuplicated Ex.no_evaluators kernel_query) = Returns tt
    /\ result (impl (snd (filterDuplicated Ex.no_evaluators kernel_query))) = Some rd
    /\ forall z, z ∈ rd <->
         z ∈ ({[1; 2]} : gset Z)
         /\ exists y, y ∈ ({[1; 2]} : gset Z) /\ y <> z
              /\ s_name (pool_id2solvable (pool (sack kernel_query)) y)
                 = s_name (pool_id2solvable (pool (sack kernel_query)) z)
              /\ ~ (s_evr (pool_id2solvable (pool (sack kernel_query)) z)
                    = s_evr (pool_id2solvable (pool (sack kernel_query)) y)
                    /\ s_arch (pool_id2solvable (pool (sack kernel_query)) z)
                       <> s_arch (pool_id2solvable (pool (sack kernel_query)) y)).
Proof.
  apply (DuplicatedFacts.filterDuplicated_same_name Ex.no_evaluators kernel_query {[1; 2]}).
  - exact kernel_sorts.
  - vm_compute. reflexivity.
  - vm_compute. reflexivity.
  - intros x Hx. assert (Hc : x = 1 \/ x = 2) by set_solver.
    destruct Hc as [->| ->]; vm_compute; split; congruence.
Defined.

(** The two installed kernels differ in their evr: both are duplicates. *)
Example kernels_are_duplicated :
  result (impl (snd (filterDuplicated Ex.no_evaluators kernel_query))) = Some {[1; 2]}.
Proof. vm_compute. reflexivity. Qed.

End QueryMoreExamples.
